(** * script.js: LaTeX-to-safe-HTML pipeline, tolerant candidate parser and
      confidence formatter, embedded in Rocq.

    Strings are JavaScript strings: finite sequences of UTF-16 code units,
    modelled as [list N].  Regular expressions are given by an abstract
    syntax that is interpreted by a backtracking matcher following the
    ECMAScript matching order (leftmost start, alternatives left to right,
    greedy and lazy quantifiers, capture groups, back references and
    lookahead). *)

From Stdlib Require Import String Ascii.
From Stdlib Require Import List NArith ZArith Bool Lia Arith.
From Stdlib Require Import QArith Qround SpecFloat DecimalString.
Close Scope Q_scope.
Import ListNotations.

Set Implicit Arguments.
Set Warnings "-register-all".

(** ** Strings *)

Definition jstr := list N.

Definition ch (a : ascii) : N := N_of_ascii a.

Definition js (s : string) : jstr := map N_of_ascii (list_ascii_of_string s).

Fixpoint jstr_eqb (a b : jstr) : bool :=
  match a, b with
  | [], [] => true
  | x :: a', y :: b' => N.eqb x y && jstr_eqb a' b'
  | _, _ => false
  end.

(** [String.prototype.slice] for indices inside [0, length]. *)
Definition slice (s : jstr) (a b : nat) : jstr := firstn (b - a) (skipn a s).

(** [strip_prefix w s] is [Some t] when [s = w ++ t]. *)
Fixpoint strip_prefix (w s : jstr) : option jstr :=
  match w with
  | [] => Some s
  | c :: w' =>
      match s with
      | x :: s' => if N.eqb x c then strip_prefix w' s' else None
      | [] => None
      end
  end.

(** The code units matched by [\s], which are also the ones removed by
    [String.prototype.trim] (WhiteSpace and LineTerminator). *)
Definition is_space (c : N) : bool :=
  (N.leb 9 c && N.leb c 13) || N.eqb c 32 || N.eqb c 160 || N.eqb c 5760
  || (N.leb 8192 c && N.leb c 8202) || N.eqb c 8232 || N.eqb c 8233
  || N.eqb c 8239 || N.eqb c 8287 || N.eqb c 12288 || N.eqb c 65279.

(** [\w]: ASCII letters, digits and underscore. *)
Definition is_word (c : N) : bool :=
  (N.leb 48 c && N.leb c 57) || (N.leb 65 c && N.leb c 90)
  || (N.leb 97 c && N.leb c 122) || N.eqb c 95.

Definition any_char (_ : N) : bool := true.
Definition is_char (a : N) (c : N) : bool := N.eqb c a.
Definition not_char (a : N) (c : N) : bool := negb (N.eqb c a).

Fixpoint drop_space (s : jstr) : jstr :=
  match s with
  | c :: tl => if is_space c then drop_space tl else s
  | [] => []
  end.

Definition trim (s : jstr) : jstr := rev (drop_space (rev (drop_space s))).

(** ** Regular expressions *)

Inductive regex : Type :=
| Eps
| Chr (c : N)
| Cls (p : N -> bool)
| Cat (r1 r2 : regex)
| Alt (r1 r2 : regex)
| Opt (r : regex)
| Rep (lazy : bool) (min : nat) (p : N -> bool)
| Grp (i : nat) (r : regex)
| Bref (i : nat)
| Ahead (r : regex)
| NotAhead (r : regex)
| WordB
| Bol
| Eol.

(** A literal string, and the concatenation of a list of pieces. *)
Fixpoint lit (w : jstr) : regex :=
  match w with
  | [] => Eps
  | c :: w' => Cat (Chr c) (lit w')
  end.

Definition seq (rs : list regex) : regex := fold_right Cat Eps rs.

(** Matcher state: the code unit before the current position (for [\b]),
    the text still to be read, the current index and the captures. *)
Record mstate : Type := MState {
  prev : option N;
  rest : jstr;
  pos : nat;
  caps : list (nat * jstr)
}.

Definition advance (st : mstate) (c : N) (tl : jstr) : mstate :=
  MState (Some c) tl (S (pos st)) (caps st).

Fixpoint advance_by (w : jstr) (st : mstate) (tl : jstr) : mstate :=
  match w with
  | [] => MState (prev st) tl (pos st) (caps st)
  | c :: w' => advance_by w' (MState (Some c) tl (S (pos st)) (caps st)) tl
  end.

Fixpoint get_cap (i : nat) (cs : list (nat * jstr)) : option jstr :=
  match cs with
  | [] => None
  | (j, w) :: cs' => if Nat.eqb i j then Some w else get_cap i cs'
  end.

Definition set_cap (i : nat) (w : jstr) (st : mstate) : mstate :=
  MState (prev st) (rest st) (pos st) ((i, w) :: caps st).

Definition with_caps (st st' : mstate) : mstate :=
  MState (prev st) (rest st) (pos st) (caps st').

Definition word_before (st : mstate) : bool :=
  match prev st with Some c => is_word c | None => false end.

Definition word_after (st : mstate) : bool :=
  match rest st with c :: _ => is_word c | [] => false end.

(** [p{min,}] over a character class, greedy or lazy, with backtracking
    into the continuation [k].  [s] is the text at [st]. *)
Fixpoint rep (lazy : bool) (p : N -> bool) (min : nat) (s : jstr)
    (st : mstate) (k : mstate -> option mstate) {struct s} : option mstate :=
  let more :=
    match s with
    | c :: tl => if p c then rep lazy p (Nat.pred min) tl (advance st c tl) k
                 else None
    | [] => None
    end in
  match min with
  | S _ => more
  | O =>
      if lazy then
        match k st with
        | Some r => Some r
        | None => more
        end
      else
        match more with
        | Some r => Some r
        | None => k st
        end
  end.

(** The backtracking matcher, in continuation-passing style. *)
Fixpoint rmatch (r : regex) (st : mstate) (k : mstate -> option mstate)
    {struct r} : option mstate :=
  match r with
  | Eps => k st
  | Chr c =>
      match rest st with
      | x :: tl => if N.eqb x c then k (advance st x tl) else None
      | [] => None
      end
  | Cls p =>
      match rest st with
      | x :: tl => if p x then k (advance st x tl) else None
      | [] => None
      end
  | Cat r1 r2 => rmatch r1 st (fun st' => rmatch r2 st' k)
  | Alt r1 r2 =>
      match rmatch r1 st k with
      | Some res => Some res
      | None => rmatch r2 st k
      end
  | Opt r1 =>
      match rmatch r1 st k with
      | Some res => Some res
      | None => k st
      end
  | Rep lazy min p => rep lazy p min (rest st) st k
  | Grp i r1 =>
      rmatch r1 st
        (fun st' => k (set_cap i (firstn (pos st' - pos st) (rest st)) st'))
  | Bref i =>
      match get_cap i (caps st) with
      | None => k st
      | Some w =>
          match strip_prefix w (rest st) with
          | Some tl => k (advance_by w st tl)
          | None => None
          end
      end
  | Ahead r1 =>
      match rmatch r1 st Some with
      | Some st' => k (with_caps st st')
      | None => None
      end
  | NotAhead r1 =>
      match rmatch r1 st Some with
      | Some _ => None
      | None => k st
      end
  | WordB => if xorb (word_before st) (word_after st) then k st else None
  | Bol => match pos st with O => k st | S _ => None end
  | Eol => match rest st with [] => k st | _ :: _ => None end
  end.

(** One match attempt at the current position: the end state on success. *)
Definition match_at (r : regex) (pv : option N) (s : jstr) (n : nat)
  : option mstate :=
  rmatch r (MState pv s n []) Some.

(** Leftmost match at or after the current position: start index and end
    state. *)
Fixpoint search (r : regex) (pv : option N) (s : jstr) (n : nat)
  : option (nat * mstate) :=
  match match_at r pv s n with
  | Some st' => Some (n, st')
  | None =>
      match s with
      | c :: tl => search r (Some c) tl (S n)
      | [] => None
      end
  end.

(** [RegExp.prototype.exec] on a global regex whose [lastIndex] is
    [lastIndex]: the start and end index of the match (the end index is the
    new [lastIndex]) and the captures. *)
Definition exec (r : regex) (s : jstr) (lastIndex : nat)
  : option (nat * nat * list (nat * jstr)) :=
  if Nat.ltb (length s) lastIndex then None
  else
    match search r (match lastIndex with
                    | O => None
                    | S i => nth_error s i
                    end) (skipn lastIndex s) lastIndex with
    | Some (i, st') => Some (i, pos st', caps st')
    | None => None
    end.

(** [String.prototype.replace] with a global regex and a replacement
    function of the matched text and the captures.  [skip] counts the code
    units of the last match that are still to be dropped; after an empty
    match the next code unit is copied before matching resumes. *)
Fixpoint replace_from (r : regex) (f : jstr -> list (nat * jstr) -> jstr)
    (pv : option N) (s : jstr) (n : nat) (skip : nat) {struct s} : jstr :=
  match skip with
  | S k =>
      match s with
      | c :: tl => replace_from r f (Some c) tl (S n) k
      | [] => []
      end
  | O =>
      match match_at r pv s n with
      | Some st' =>
          let len := pos st' - n in
          f (firstn len s) (caps st') ++
          match s with
          | c :: tl =>
              match len with
              | O => c :: replace_from r f (Some c) tl (S n) 0
              | S k => replace_from r f (Some c) tl (S n) k
              end
          | [] => []
          end
      | None =>
          match s with
          | c :: tl => c :: replace_from r f (Some c) tl (S n) 0
          | [] => []
          end
      end
  end.

Definition replace_all (r : regex) (f : jstr -> list (nat * jstr) -> jstr)
    (s : jstr) : jstr :=
  replace_from r f None s 0 0.

(** Replacement by a fixed string without [$] patterns. *)
Definition replace_const (r : regex) (w : jstr) (s : jstr) : jstr :=
  replace_all r (fun _ _ => w) s.

(** [RegExp.prototype.test] for a regex without the global flag. *)
Definition test (r : regex) (s : jstr) : bool :=
  match search r None s 0 with Some _ => true | None => false end.

Definition cap (i : nat) (cs : list (nat * jstr)) : jstr :=
  match get_cap i cs with Some w => w | None => [] end.

(** ** processLatexForDisplay *)

Definition bullet : N := 8226%N.
Definition dquote : N := 34%N.

(** [/\\begin\{(equation|align)\*?\}([\s\S]*?)\\end\{\1\*?\}/g] *)
Definition re_env : regex :=
  seq [lit (js "\begin{");
       Grp 1 (Alt (lit (js "equation")) (lit (js "align")));
       Opt (Chr (ch "*")); Chr (ch "}");
       Grp 2 (Rep true 0 any_char);
       lit (js "\end{"); Bref 1; Opt (Chr (ch "*")); Chr (ch "}")].

(** [/\\(label|ref|eqref|cite)\{[^}]*\}/g] *)
Definition re_ref : regex :=
  seq [Chr (ch "\");
       Grp 1 (Alt (lit (js "label")) (Alt (lit (js "ref"))
             (Alt (lit (js "eqref")) (lit (js "cite")))));
       Chr (ch "{"); Rep false 0 (not_char (ch "}")); Chr (ch "}")].

(** [/\\begin\{(enumerate|itemize)\}(\[[^\]]*\])?/g] *)
Definition re_list_begin : regex :=
  seq [lit (js "\begin{");
       Grp 1 (Alt (lit (js "enumerate")) (lit (js "itemize")));
       Chr (ch "}");
       Opt (Grp 2 (seq [Chr (ch "["); Rep false 0 (not_char (ch "]"));
                        Chr (ch "]")]))].

(** [/\\end\{(enumerate|itemize)\}/g] *)
Definition re_list_end : regex :=
  seq [lit (js "\end{");
       Grp 1 (Alt (lit (js "enumerate")) (lit (js "itemize")));
       Chr (ch "}")].

(** [/\\item\s*/g] *)
Definition re_item : regex := seq [lit (js "\item"); Rep false 0 is_space].

(** [/~/g] *)
Definition re_tilde : regex := Chr (ch "~").

(** [/\s{2,}/g] *)
Definition re_spaces : regex := Rep false 2 is_space.

(** Steps 1 and 2 of the function: environments to [\[...\]], then the
    chain of clean-up replacements and the final [trim]. *)
Definition normalize (s : jstr) : jstr :=
  let s1 := replace_all re_env
              (fun _ cs => js "\[" ++ trim (cap 2 cs) ++ js "\]") s in
  let s2 := replace_const re_ref [] s1 in
  let s3 := replace_const re_list_begin [] s2 in
  let s4 := replace_const re_list_end [] s3 in
  let s5 := replace_const re_item (js "<br>" ++ [bullet; ch " "]) s4 in
  let s6 := replace_const re_tilde (js " ") s5 in
  let s7 := replace_const re_spaces (js " ") s6 in
  trim s7.

Definition SENTINEL : jstr := js "__BR_SENTINEL__".

(** [/<br\s*\/?>/g] *)
Definition re_br : regex :=
  seq [lit (js "<br"); Rep false 0 is_space; Opt (Chr (ch "/")); Chr (ch ">")].

Definition protect_br (s : jstr) : jstr := replace_const re_br SENTINEL s.

(** The object literal indexed by the matched character; a key that is not
    in the object would give [undefined]. *)
Definition entity (m : jstr) : jstr :=
  match m with
  | [38%N] => js "&amp;"
  | [60%N] => js "&lt;"
  | [62%N] => js "&gt;"
  | [34%N] => js "&quot;"
  | [39%N] => js "&#39;"
  | _ => js "undefined"
  end.

Definition is_html_special (c : N) : bool :=
  N.eqb c 38 || N.eqb c 60 || N.eqb c 62 || N.eqb c 34 || N.eqb c 39.

(** The character class of the five HTML-sensitive characters: ampersand,
    less-than, greater-than, double quote and single quote. *)
Definition re_special : regex := Cls is_html_special.

(** The local arrow function [escapeHTML] of processLatexForDisplay. *)
Definition escapeHTML_local (s : jstr) : jstr :=
  replace_all re_special (fun m _ => entity m) s.

(** The four delimiter pairs, in the order of the alternation. *)
Definition re_math : regex :=
  Grp 1
    (Alt (seq [lit (js "\("); Rep true 0 any_char; lit (js "\)")])
    (Alt (seq [lit (js "\["); Rep true 0 any_char; lit (js "\]")])
    (Alt (seq [lit (js "$$"); Rep true 0 any_char; lit (js "$$")])
         (seq [lit (js "$"); Rep true 0 any_char; lit (js "$")])))).

(** [/\\hspace\s*\{\s*\}/g] *)
Definition re_hspace_empty : regex :=
  seq [lit (js "\hspace"); Rep false 0 is_space; Chr (ch "{");
       Rep false 0 is_space; Chr (ch "}")].

(** [/\\hspace(?!\s*\{[^}]+\})/g] *)
Definition re_hspace_bare : regex :=
  seq [lit (js "\hspace");
       NotAhead (seq [Rep false 0 is_space; Chr (ch "{");
                      Rep false 1 (not_char (ch "}")); Chr (ch "}")])].

(** The chain of replacements applied to a matched math segment; the last
    two replace [<] by [<] and [>] by [>]. *)
Definition mathSeg (m0 : jstr) : jstr :=
  replace_const (Chr (ch ">")) (js ">")
    (replace_const (Chr (ch "<")) (js "<")
      (replace_const re_hspace_bare (js "\,")
        (replace_const re_hspace_empty (js "\,") m0))).

(** Loop state: the output built so far, [last] and the regex's
    [lastIndex]. *)
Record seg_state : Type := SegState {
  seg_out : jstr;
  seg_last : nat;
  seg_lastIndex : nat
}.

(** The [while ((m = re.exec(processedStr)))] loop.  Each iteration
    consumes one unit of fuel; [None] means the fuel ran out. *)
Fixpoint seg_loop (fuel : nat) (s : jstr) (st : seg_state)
  : option seg_state :=
  match fuel with
  | O => None
  | S fuel' =>
      match exec re_math s (seg_lastIndex st) with
      | Some (index, lastIndex', _) =>
          let textSeg := slice s (seg_last st) index in
          let out1 := seg_out st ++ escapeHTML_local textSeg in
          let out2 := out1 ++ mathSeg (slice s index lastIndex') in
          seg_loop fuel' s (SegState out2 lastIndex' lastIndex')
      | None => Some (SegState (seg_out st) (seg_last st) 0)
      end
  end.

(** Lines 58 to 77: the loop and the final plain segment. *)
Definition segment_fuel (fuel : nat) (s : jstr) : option jstr :=
  match seg_loop fuel s (SegState [] 0 0) with
  | Some st =>
      Some (if Nat.ltb (seg_last st) (length s)
            then seg_out st ++ escapeHTML_local (slice s (seg_last st) (length s))
            else seg_out st)
  | None => None
  end.

Definition segment (s : jstr) : option jstr := segment_fuel (S (length s)) s.

(** [out.replace(new RegExp(SENTINEL, 'g'), '<br>')] *)
Definition restore_br (s : jstr) : jstr :=
  replace_const (lit SENTINEL) (js "<br>") s.

(** The whole function; [None] as input stands for [null] or [undefined],
    [None] as output for a loop that did not finish within its fuel. *)
Definition processLatexForDisplay (rawStr : option jstr) : option jstr :=
  match rawStr with
  | None => Some []
  | Some raw =>
      match segment (protect_br (normalize raw)) with
      | Some out => Some (restore_br out)
      | None => None
      end
  end.

(** ** The segments seen by the loop *)

Inductive span : Type :=
| Plain (t : jstr)
| Math (t : jstr).

Definition span_text (sp : span) : jstr :=
  match sp with Plain t => t | Math t => t end.

(** What the loop appends to [out] for a span. *)
Definition render (sp : span) : jstr :=
  match sp with
  | Plain t => escapeHTML_local t
  | Math t => mathSeg t
  end.

(** A text that opens with [op] and closes with [cl], the two not
    overlapping. *)
Definition delimited (op cl t : jstr) : bool :=
  match strip_prefix op t with
  | Some body =>
      match strip_prefix (rev cl) (rev body) with
      | Some _ => true
      | None => false
      end
  | None => false
  end.

Definition is_math_text (t : jstr) : bool :=
  delimited (js "\(") (js "\)") t || delimited (js "\[") (js "\]") t
  || delimited (js "$$") (js "$$") t || delimited (js "$") (js "$") t.

Definition span_ok (sp : span) : Prop :=
  match sp with
  | Plain _ => True
  | Math t => is_math_text t = true
  end.

(** A lower bound on the length of any match of a regex. *)
Fixpoint min_len (r : regex) : nat :=
  match r with
  | Eps => 0
  | Chr _ => 1
  | Cls _ => 1
  | Cat r1 r2 => min_len r1 + min_len r2
  | Alt r1 r2 => Nat.min (min_len r1) (min_len r2)
  | Opt _ => 0
  | Rep _ min _ => min
  | Grp _ r1 => min_len r1
  | Bref _ => 0
  | Ahead _ => 0
  | NotAhead _ => 0
  | WordB => 0
  | Bol => 0
  | Eol => 0
  end.

(** [reach n st st']: [st'] lies [w] further in the text than [st], with
    [w] at least [n] long. *)
Definition reach (n : nat) (st st' : mstate) : Prop :=
  exists w, rest st = w ++ rest st' /\ pos st' = pos st + length w
            /\ n <= length w.

(** ** The HTML escaper, by character *)

Definition esc_char (c : N) : jstr :=
  if is_html_special c then entity [c] else [c].

(** The global [escapeHTML] function: [String(str).replace(...)], on a
    string argument. *)
Definition escapeHTML (str : jstr) : jstr :=
  replace_all re_special (fun m _ => entity m) str.

(** Modelled from the spec: the inverse entity substitution (unescaping),
    which the source does not contain.  One left-to-right pass replaces
    each of the five entities by its character. *)
Definition re_entity : regex :=
  Alt (lit (js "&amp;")) (Alt (lit (js "&lt;")) (Alt (lit (js "&gt;"))
      (Alt (lit (js "&quot;")) (lit (js "&#39;"))))).

Definition unentity (m : jstr) : jstr :=
  if jstr_eqb m (js "&amp;") then [38%N]
  else if jstr_eqb m (js "&lt;") then [60%N]
  else if jstr_eqb m (js "&gt;") then [62%N]
  else if jstr_eqb m (js "&quot;") then [34%N]
  else if jstr_eqb m (js "&#39;") then [39%N]
  else m.

Definition unescapeHTML (s : jstr) : jstr :=
  replace_all re_entity (fun m _ => unentity m) s.


(** ** Numbers

    A Number is an IEEE 754 binary64 value, given by the standard library's
    specification of binary floating point at precision 53. *)

Definition prec : Z := 53.
Definition emax : Z := 1024.

(** The least exponent of a finite value (that of the subnormals). *)
Definition emin_exp : Z := -1074.

Definition is_finite (x : spec_float) : bool :=
  match x with
  | S754_zero _ | S754_finite _ _ _ => true
  | S754_infinity _ | S754_nan => false
  end.

Definition num_of_Z (n : Z) : spec_float := binary_normalize prec emax n 0 false.

(** The Number nearest to [M * 10^E] (ties to even) for [M >= 0], with the
    sign [neg].  A negative [E] is a division, carried out with enough
    extra bits and the position of the remainder. *)
Definition decimal_to_float (neg : bool) (M E : Z) : spec_float :=
  match M with
  | Zpos m =>
      match E with
      | Zneg _ =>
          let d := (10 ^ (- E))%Z in
          let k := Z.max 0 (66 + Z.log2 d - Z.log2 M) in
          let '(q, r) := Z.div_eucl (Z.shiftl M k) d in
          binary_round_aux prec emax neg q (- k) (new_location d r)
      | _ => binary_round prec emax neg (Z.to_pos (M * 10 ^ E)) 0
      end
  | _ => S754_zero neg
  end.

(** [Math.round]: the integer nearest to [x], halves going up; a result of
    zero keeps the sign of [x]. *)
Definition math_round (x : spec_float) : spec_float :=
  match x with
  | S754_finite s m e =>
      if (0 <=? e)%Z then x
      else
        let v := if s then Zneg m else Zpos m in
        match ((2 * v + 2 ^ (- e)) / 2 ^ (1 - e))%Z with
        | Z0 => S754_zero s
        | n => binary_normalize prec emax n 0 s
        end
  | _ => x
  end.

Definition Qltb (a b : Q) : bool := negb (Qle_bool b a).

Definition Qabs_diff (a b : Q) : Q :=
  if Qle_bool a b then (b - a)%Q else (a - b)%Q.

(** The real numbers that round to the positive value [m * 2^e]: those
    between the midpoints with its two neighbours, the midpoints included
    when [m] is even. *)
Definition rounds_to (m : positive) (e : Z) (q : Q) : bool :=
  let x := inject_Z (Zpos m) in
  let u := Qpower 2 e in
  let below := if Pos.eqb m (2 ^ 52) && (emin_exp <? e)%Z
               then (1 # 4)%Q else (1 # 2)%Q in
  let lo := ((x - below) * u)%Q in
  let hi := ((x + (1 # 2)) * u)%Q in
  if Z.even (Zpos m) then Qle_bool lo q && Qle_bool q hi
  else Qltb lo q && Qltb q hi.

(** The least [n' >= n] with [q < 10^n']. *)
Fixpoint mag10 (fuel : nat) (q : Q) (n : Z) : Z :=
  match fuel with
  | O => n
  | S fuel' => if Qltb q (Qpower 10 n) then n else mag10 fuel' q (n + 1)
  end.

(** The candidates [(s, n)] with [k] digits for the value [m * 2^e]: the
    two multiples of [10^(n-k)] around it, when they have [k] digits and
    round to it. *)
Definition candidates (m : positive) (e : Z) (k n : Z) : list (Z * Z) :=
  let x := (inject_Z (Zpos m) * Qpower 2 e)%Q in
  let g := Qpower 10 (n - k) in
  let s1 := Qfloor (x / g) in
  map (fun s => (s, n))
    (filter (fun s => (10 ^ (k - 1) <=? s)%Z && (s <? 10 ^ k)%Z
                      && rounds_to m e (inject_Z s * g)%Q)
            [s1; (s1 + 1)%Z]).

(** Of two candidates the one nearer to the value, the even one on a
    tie. *)
Definition better (x : Q) (k : Z) (a b : Z * Z) : Z * Z :=
  let val c := (inject_Z (fst c) * Qpower 10 (snd c - k))%Q in
  let da := Qabs_diff (val a) x in
  let db := Qabs_diff (val b) x in
  if Qltb da db then a
  else if Qltb db da then b
  else if Z.even (fst a) then a else b.

(** The shortest digits [(n, k, s)] of Number::toString for [m * 2^e]. *)
Fixpoint shortest (fuel : nat) (m : positive) (e : Z) (n0 k : Z)
  : Z * Z * Z :=
  match fuel with
  | O => (n0, k, 0%Z)
  | S fuel' =>
      let x := (inject_Z (Zpos m) * Qpower 2 e)%Q in
      match candidates m e k (n0 - 1) ++ candidates m e k n0
            ++ candidates m e k (n0 + 1) with
      | [] => shortest fuel' m e n0 (k + 1)
      | c :: cs =>
          let best := fold_left (better x k) cs c in
          (snd best, k, fst best)
      end
  end.

Definition digits_of_Z (z : Z) : jstr :=
  js (NilZero.string_of_uint (N.to_uint (Z.to_N z))).

Definition zeros (n : Z) : jstr := repeat (ch "0") (Z.to_nat n).

(** Steps 6 to 10 of Number::toString in radix 10. *)
Definition format_digits (n k s : Z) : jstr :=
  let ds := digits_of_Z s in
  if (k <=? n)%Z && (n <=? 21)%Z then ds ++ zeros (n - k)
  else if (0 <? n)%Z && (n <=? 21)%Z then
    firstn (Z.to_nat n) ds ++ js "." ++ skipn (Z.to_nat n) ds
  else if (-6 <? n)%Z && (n <=? 0)%Z then js "0." ++ zeros (- n) ++ ds
  else
    let e := (n - 1)%Z in
    let es := (if (e <? 0)%Z then js "-" else js "+") ++ digits_of_Z (Z.abs e) in
    if (k =? 1)%Z then ds ++ js "e" ++ es
    else firstn 1 ds ++ js "." ++ skipn 1 ds ++ js "e" ++ es.

(** Number::toString. *)
Definition number_to_string (x : spec_float) : jstr :=
  match x with
  | S754_nan => js "NaN"
  | S754_zero _ => js "0"
  | S754_infinity s => if s then js "-Infinity" else js "Infinity"
  | S754_finite s m e =>
      let n0 := mag10 700 (inject_Z (Zpos m) * Qpower 2 e)%Q (-330) in
      let '(n, k, d) := shortest 20 m e n0 1 in
      (if s then js "-" else []) ++ format_digits n k d
  end.

(** *** StringToNumber *)

Definition is_digit (c : N) : bool := N.leb 48 c && N.leb c 57.

Fixpoint take_while (p : N -> bool) (s : jstr) : jstr * jstr :=
  match s with
  | c :: tl =>
      if p c then let '(a, b) := take_while p tl in (c :: a, b)
      else ([], s)
  | [] => ([], [])
  end.

Definition digit_val (c : N) : Z :=
  if is_digit c then Z.of_N c - 48
  else if N.leb 97 c && N.leb c 102 then Z.of_N c - 87
  else if N.leb 65 c && N.leb c 70 then Z.of_N c - 55
  else 0.

Definition digits_val (radix : Z) (ds : jstr) : Z :=
  fold_left (fun a c => radix * a + digit_val c)%Z ds 0%Z.

Definition is_hex_digit (c : N) : bool :=
  is_digit c || (N.leb 97 c && N.leb c 102) || (N.leb 65 c && N.leb c 70).
Definition is_oct_digit (c : N) : bool := N.leb 48 c && N.leb c 55.
Definition is_bin_digit (c : N) : bool := N.leb 48 c && N.leb c 49.

Definition radix_literal (p : N -> bool) (radix : Z) (ds : jstr) : spec_float :=
  match ds with
  | [] => S754_nan
  | _ => if forallb p ds then num_of_Z (digits_val radix ds) else S754_nan
  end.

(** The exponent part: [e] or [E], an optional sign and at least one
    digit, up to the end of the string. *)
Definition exponent_part (s : jstr) : option Z :=
  match s with
  | [] => Some 0%Z
  | c :: tl =>
      if N.eqb c 101 || N.eqb c 69 then
        let '(neg, tl') :=
          match tl with
          | 45%N :: r => (true, r)
          | 43%N :: r => (false, r)
          | _ => (false, tl)
          end in
        match tl' with
        | [] => None
        | _ => if forallb is_digit tl'
               then Some (if neg then - digits_val 10 tl' else digits_val 10 tl')%Z
               else None
        end
      else None
  end.

(** StrUnsignedDecimalLiteral with the sign [neg] already read. *)
Definition decimal_literal (neg : bool) (s : jstr) : spec_float :=
  if jstr_eqb s (js "Infinity") then S754_infinity neg
  else
    let '(ip, r1) := take_while is_digit s in
    let '(fp, r2) :=
      match r1 with
      | 46%N :: r => take_while is_digit r
      | _ => ([], r1)
      end in
    match ip ++ fp with
    | [] => S754_nan
    | ds =>
        match exponent_part r2 with
        | Some ex => decimal_to_float neg (digits_val 10 ds)
                       (ex - Z.of_nat (length fp))
        | None => S754_nan
        end
    end.

(** StringToNumber: white space trimmed, the empty string is [0]. *)
Definition string_to_number (s : jstr) : spec_float :=
  match trim s with
  | [] => S754_zero false
  | 48%N :: 120%N :: ds | 48%N :: 88%N :: ds => radix_literal is_hex_digit 16 ds
  | 48%N :: 111%N :: ds | 48%N :: 79%N :: ds => radix_literal is_oct_digit 8 ds
  | 48%N :: 98%N :: ds | 48%N :: 66%N :: ds => radix_literal is_bin_digit 2 ds
  | 45%N :: r => decimal_literal true r
  | 43%N :: r => decimal_literal false r
  | t => decimal_literal false t
  end.

(** ** Outcomes of code that may throw *)

Inductive outcome (A : Type) : Type :=
| Ret (a : A)
| Throw
| Diverge.

Arguments Ret {A} a.
Arguments Throw {A}.
Arguments Diverge {A}.

(** [try { body } catch (e) { handler }] *)
Definition try_catch {A : Type} (body handler : outcome A) : outcome A :=
  match body with
  | Throw => handler
  | _ => body
  end.

Definition bind {A B : Type} (o : outcome A) (f : A -> outcome B)
  : outcome B :=
  match o with
  | Ret a => f a
  | Throw => Throw
  | Diverge => Diverge
  end.

(** The results of a list of computations run from left to right, up to
    the first one that throws. *)
Fixpoint collect {A : Type} (l : list (outcome A)) : outcome (list A) :=
  match l with
  | [] => Ret []
  | o :: l' => bind o (fun a => bind (collect l') (fun t => Ret (a :: t)))
  end.

(** ** Values

    The values that the data can hold: what [JSON.parse] builds, and
    [undefined] for a missing property.  The objects are plain objects and
    the arrays plain arrays: their only own properties are the fields and
    the elements. *)

Inductive value : Type :=
| VUndefined
| VNull
| VBool (b : bool)
| VNum (x : spec_float)
| VStr (s : jstr)
| VArr (l : list value)
| VObj (fields : list (jstr * value)).

Fixpoint join (sep : jstr) (l : list jstr) : jstr :=
  match l with
  | [] => []
  | [a] => a
  | a :: l' => a ++ sep ++ join sep l'
  end.

Fixpoint lookup_field (k : jstr) (fs : list (jstr * value)) : option value :=
  match fs with
  | [] => None
  | (k', v) :: fs' => if jstr_eqb k k' then Some v else lookup_field k fs'
  end.

(** [String(v)].  An array is converted by [Array.prototype.toString],
    which joins the converted elements ([null] and [undefined] give the
    empty string).  A plain object is converted by
    [Object.prototype.toString] unless it has an own field [toString]: the
    value of a field is never callable, the inherited [valueOf] returns the
    object itself, and the conversion ends in a TypeError. *)
Fixpoint to_string (v : value) : outcome jstr :=
  match v with
  | VUndefined => Ret (js "undefined")
  | VNull => Ret (js "null")
  | VBool b => Ret (if b then js "true" else js "false")
  | VNum x => Ret (number_to_string x)
  | VStr s => Ret s
  | VArr l =>
      bind (collect (map (fun e => match e with
                                   | VUndefined | VNull => Ret []
                                   | _ => to_string e
                                   end) l))
           (fun parts => Ret (join (js ",") parts))
  | VObj fs =>
      match lookup_field (js "toString") fs with
      | Some _ => Throw
      | None => Ret (js "[object Object]")
      end
  end.

(** [Number(v)]: an array or an object is first converted to a primitive,
    which for these values is the string of [String(v)] (the inherited
    [valueOf] returns the object, an own field [valueOf] is not
    callable). *)
Definition to_number (v : value) : outcome spec_float :=
  match v with
  | VUndefined => Ret S754_nan
  | VNull => Ret (S754_zero false)
  | VBool b => Ret (if b then num_of_Z 1 else S754_zero false)
  | VNum x => Ret x
  | VStr s => Ret (string_to_number s)
  | VArr _ | VObj _ => bind (to_string v) (fun s => Ret (string_to_number s))
  end.

(** ToBoolean. *)
Definition to_boolean (v : value) : bool :=
  match v with
  | VUndefined | VNull => false
  | VBool b => b
  | VNum x =>
      match x with
      | S754_zero _ | S754_nan => false
      | _ => true
      end
  | VStr s =>
      match s with
      | [] => false
      | _ :: _ => true
      end
  | VArr _ | VObj _ => true
  end.

(** [a || b] and [a ?? b] on values. *)
Definition js_or (a b : value) : value := if to_boolean a then a else b.

Definition is_nullish (v : value) : bool :=
  match v with
  | VUndefined | VNull => true
  | _ => false
  end.

Definition js_coalesce (a b : value) : value := if is_nullish a then b else a.

(** ** processLatexForDisplay on the values of the data

    Lines 26 and 27: [null] and [undefined] give the empty string, every
    other argument goes through [String]. *)

Definition processLatexForDisplay_value (rawStr : value) : outcome jstr :=
  if is_nullish rawStr then Ret []
  else
    bind (to_string rawStr) (fun s =>
    match processLatexForDisplay (Some s) with
    | Some out => Ret out
    | None => Diverge
    end).

(** ** formatConfidence *)

Definition formatConfidence (c : value) : outcome jstr :=
  bind (to_number c) (fun num =>
  if negb (is_finite num) then to_string c
  else if SFleb num (num_of_Z 1)
       then Ret (number_to_string
                   (math_round (SFmul prec emax num (num_of_Z 100)))
                 ++ js "%")
       else Ret (number_to_string num)).

(** ** JSON.parse and JSON.stringify *)

Definition is_json_ws (c : N) : bool :=
  N.eqb c 32 || N.eqb c 9 || N.eqb c 10 || N.eqb c 13.

Fixpoint skip_ws (s : jstr) : jstr :=
  match s with
  | c :: tl => if is_json_ws c then skip_ws tl else s
  | [] => []
  end.

(** The characters of a JSON string after its opening quote, up to the
    closing quote: the decoded text and what follows. *)
Fixpoint parse_string (s : jstr) : option (jstr * jstr) :=
  let cons_to c r :=
    match r with
    | Some (t, r') => Some (c :: t, r')
    | None => None
    end in
  match s with
  | [] => None
  | 34%N :: r => Some ([], r)
  | 92%N :: e :: r =>
      if N.eqb e 34 then cons_to 34%N (parse_string r)
      else if N.eqb e 92 then cons_to 92%N (parse_string r)
      else if N.eqb e 47 then cons_to 47%N (parse_string r)
      else if N.eqb e 98 then cons_to 8%N (parse_string r)
      else if N.eqb e 102 then cons_to 12%N (parse_string r)
      else if N.eqb e 110 then cons_to 10%N (parse_string r)
      else if N.eqb e 114 then cons_to 13%N (parse_string r)
      else if N.eqb e 116 then cons_to 9%N (parse_string r)
      else if N.eqb e 117 then
        match r with
        | h1 :: h2 :: h3 :: h4 :: r' =>
            if forallb is_hex_digit [h1; h2; h3; h4]
            then cons_to (Z.to_N (digits_val 16 [h1; h2; h3; h4]))
                         (parse_string r')
            else None
        | _ => None
        end
      else None
  | c :: r => if N.ltb c 32 then None else cons_to c (parse_string r)
  end.

(** A JSON number: optional minus, [0] or a digit string without leading
    zero, optional fraction, optional exponent. *)
Definition parse_number (s : jstr) : option (spec_float * jstr) :=
  let '(neg, s1) :=
    match s with
    | 45%N :: r => (true, r)
    | _ => (false, s)
    end in
  let int_part :=
    match s1 with
    | 48%N :: r => Some ([48%N], r)
    | c :: _ => if is_digit c then Some (take_while is_digit s1) else None
    | [] => None
    end in
  match int_part with
  | None => None
  | Some (ip, s2) =>
      let frac :=
        match s2 with
        | 46%N :: r =>
            match take_while is_digit r with
            | ([], _) => None
            | (fp, r') => Some (fp, r')
            end
        | _ => Some ([], s2)
        end in
      match frac with
      | None => None
      | Some (fp, s3) =>
          let expo :=
            match s3 with
            | c :: r =>
                if N.eqb c 101 || N.eqb c 69 then
                  let '(eneg, r1) :=
                    match r with
                    | 45%N :: r' => (true, r')
                    | 43%N :: r' => (false, r')
                    | _ => (false, r)
                    end in
                  match take_while is_digit r1 with
                  | ([], _) => None
                  | (ds, r2) =>
                      Some ((if eneg then - digits_val 10 ds
                             else digits_val 10 ds)%Z, r2)
                  end
                else Some (0%Z, s3)
            | [] => Some (0%Z, s3)
            end in
          match expo with
          | None => None
          | Some (ex, s4) =>
              Some (decimal_to_float neg (digits_val 10 (ip ++ fp))
                      (ex - Z.of_nat (length fp)), s4)
          end
      end
  end.

(** A later duplicate of a key replaces the value of the earlier one. *)
Fixpoint set_field (k : jstr) (v : value) (fs : list (jstr * value))
  : list (jstr * value) :=
  match fs with
  | [] => [(k, v)]
  | (k', v') :: fs' =>
      if jstr_eqb k k' then (k, v) :: fs' else (k', v') :: set_field k v fs'
  end.

(** Recursive descent over the JSON grammar; every call uses one unit of
    fuel and reads at least one character, so the length of the text is
    fuel enough.  [None] is a SyntaxError. *)
Fixpoint parse_value (fuel : nat) (s : jstr) {struct fuel}
  : option (value * jstr) :=
  match fuel with
  | O => None
  | S f =>
      match skip_ws s with
      | 123%N :: r =>
          match skip_ws r with
          | 125%N :: r' => Some (VObj [], r')
          | _ => parse_members f r []
          end
      | 91%N :: r =>
          match skip_ws r with
          | 93%N :: r' => Some (VArr [], r')
          | _ => parse_elems f r []
          end
      | 34%N :: r =>
          match parse_string r with
          | Some (t, r') => Some (VStr t, r')
          | None => None
          end
      | t =>
          match strip_prefix (js "true") t with
          | Some r => Some (VBool true, r)
          | None =>
          match strip_prefix (js "false") t with
          | Some r => Some (VBool false, r)
          | None =>
          match strip_prefix (js "null") t with
          | Some r => Some (VNull, r)
          | None =>
          match parse_number t with
          | Some (x, r) => Some (VNum x, r)
          | None => None
          end end end end
      end
  end
with parse_elems (fuel : nat) (s : jstr) (acc : list value) {struct fuel}
  : option (value * jstr) :=
  match fuel with
  | O => None
  | S f =>
      match parse_value f s with
      | Some (v, r) =>
          match skip_ws r with
          | 44%N :: r' => parse_elems f r' (v :: acc)
          | 93%N :: r' => Some (VArr (rev (v :: acc)), r')
          | _ => None
          end
      | None => None
      end
  end
with parse_members (fuel : nat) (s : jstr) (acc : list (jstr * value))
    {struct fuel} : option (value * jstr) :=
  match fuel with
  | O => None
  | S f =>
      match skip_ws s with
      | 34%N :: r =>
          match parse_string r with
          | Some (k, r1) =>
              match skip_ws r1 with
              | 58%N :: r2 =>
                  match parse_value f r2 with
                  | Some (v, r3) =>
                      match skip_ws r3 with
                      | 44%N :: r4 => parse_members f r4 (set_field k v acc)
                      | 125%N :: r4 => Some (VObj (set_field k v acc), r4)
                      | _ => None
                      end
                  | None => None
                  end
              | _ => None
              end
          | None => None
          end
      | _ => None
      end
  end.

(** [JSON.parse(text)] without a reviver. *)
Definition JSON_parse (text : jstr) : outcome value :=
  match parse_value (S (length text)) text with
  | Some (v, r) =>
      match skip_ws r with
      | [] => Ret v
      | _ :: _ => Throw
      end
  | None => Throw
  end.

Definition hex_digit (n : N) : N :=
  if N.ltb n 10 then (48 + n)%N else (87 + n)%N.

(** [\uXXXX] with lower-case digits. *)
Definition unicode_escape (c : N) : jstr :=
  js "\u" ++ [hex_digit (N.shiftr c 12 mod 16); hex_digit (N.shiftr c 8 mod 16);
              hex_digit (N.shiftr c 4 mod 16); hex_digit (c mod 16)].

Definition is_high_surrogate (c : N) : bool := N.leb 55296 c && N.leb c 56319.
Definition is_low_surrogate (c : N) : bool := N.leb 56320 c && N.leb c 57343.

(** The body of QuoteJSONString: short escapes, [\u] escapes for the other
    control characters and for surrogates that are not paired. *)
Fixpoint quote_body (s : jstr) : jstr :=
  match s with
  | [] => []
  | c :: tl =>
      if N.eqb c 8 then js "\b" ++ quote_body tl
      else if N.eqb c 9 then js "\t" ++ quote_body tl
      else if N.eqb c 10 then js "\n" ++ quote_body tl
      else if N.eqb c 12 then js "\f" ++ quote_body tl
      else if N.eqb c 13 then js "\r" ++ quote_body tl
      else if N.eqb c 34 then [92%N; 34%N] ++ quote_body tl
      else if N.eqb c 92 then [92%N; 92%N] ++ quote_body tl
      else if N.ltb c 32 then unicode_escape c ++ quote_body tl
      else if is_high_surrogate c then
        match tl with
        | d :: tl' =>
            if is_low_surrogate d then c :: d :: quote_body tl'
            else unicode_escape c ++ quote_body tl
        | [] => unicode_escape c
        end
      else if is_low_surrogate c then unicode_escape c ++ quote_body tl
      else c :: quote_body tl
  end.

(** [JSON.stringify(val)] for a string [val]. *)
Definition JSON_stringify_string (val : jstr) : jstr :=
  [34%N] ++ quote_body val ++ [34%N].

(** ** parseCandidates *)

Definition not_quote_or_newline (c : N) : bool :=
  negb (N.eqb c 39) && negb (N.eqb c 10).

(** [/\bNone\b/g], [/\bTrue\b/g], [/\bFalse\b/g] *)
Definition re_word (w : jstr) : regex := seq [WordB; lit w; WordB].

(** The pattern of line 96 for a single-quoted object key: group 1 is an
    opening brace or a comma with the white space after it, group 2 the
    text between the quotes (lazy, without quote or line feed), then white
    space and a colon. *)
Definition re_key : regex :=
  seq [Grp 1 (seq [Cls (fun c => N.eqb c 123 || N.eqb c 44);
                   Rep false 0 is_space]);
       Chr 39; Grp 2 (Rep true 0 not_quote_or_newline); Chr 39;
       Rep false 0 is_space; Chr 58].

(** The pattern of line 97 for a single-quoted value of an object: a colon,
    white space, group 1 between the quotes, and as group 2 the white space
    up to a closing brace or comma. *)
Definition re_val : regex :=
  seq [Chr 58; Rep false 0 is_space; Chr 39;
       Grp 1 (Rep true 0 not_quote_or_newline); Chr 39;
       Grp 2 (seq [Rep false 0 is_space;
                   Cls (fun c => N.eqb c 125 || N.eqb c 44)])].

(** The pattern of line 98 for a single-quoted element of a sequence:
    group 1 is an opening bracket or a white-space character and a comma,
    group 2 the text between the quotes, and the lookahead (group 3) asks
    for a comma or a closing bracket after the white space. *)
Definition re_elem : regex :=
  seq [Grp 1 (Alt (Chr 91) (seq [Cls is_space; Chr 44]));
       Rep false 0 is_space; Chr 39;
       Grp 2 (Rep true 0 not_quote_or_newline); Chr 39;
       Rep false 0 is_space;
       Ahead (Grp 3 (Alt (Chr 44) (Chr 93)))].

(** The rewrite of the near-JSON dialect, in the order of the source. *)
Definition lenient_rewrite (text : jstr) : jstr :=
  let s0 := replace_const (re_word (js "False")) (js "false")
              (replace_const (re_word (js "True")) (js "true")
                (replace_const (re_word (js "None")) (js "null") text)) in
  let s1 := replace_all re_key
              (fun _ cs => cap 1 cs ++ [34%N] ++ cap 2 cs ++ [34%N; 58%N]) s0 in
  let s2 := replace_all re_val
              (fun _ cs => js ": " ++ JSON_stringify_string (cap 1 cs)
                           ++ cap 2 cs) s1 in
  replace_all re_elem
    (fun _ cs => cap 1 cs ++ JSON_stringify_string (cap 2 cs)) s2.

(** The class of the allow-list, item by item as in the source. *)
Definition guard_char (c : N) : bool :=
  is_space c || N.eqb c 91 || N.eqb c 93 || N.eqb c 123 || N.eqb c 125
  || N.eqb c 58 || N.eqb c 44 || (N.leb 48 c && N.leb c 57) || N.eqb c 46
  || N.eqb c 45 || N.eqb c 43
  || N.eqb c 101 || N.eqb c 69 || N.eqb c 116 || N.eqb c 114 || N.eqb c 117
  || N.eqb c 97 || N.eqb c 102 || N.eqb c 108 || N.eqb c 115 || N.eqb c 110
  || N.eqb c 34 || N.eqb c 39 || (N.leb 8208 c && N.leb c 8303)
  || N.eqb c 9 || N.eqb c 10 || N.eqb c 13 || N.eqb c 32
  || (N.leb 65 c && N.leb c 90) || (N.leb 97 c && N.leb c 122)
  || N.eqb c 38 || N.eqb c 59 || N.eqb c 40 || N.eqb c 41 || N.eqb c 95.

(** The anchored allow-list: start of input, any number of allowed
    characters, end of input. *)
Definition re_guard : regex := seq [Bol; Rep false 0 guard_char; Eol].

(** The source text handed to the [Function] constructor. *)
Definition function_source (text : jstr) : jstr :=
  [34%N] ++ js "use strict" ++ [34%N] ++ js ";return (" ++ text ++ js ")".

(** What parseCandidates returns: a value built from the data, or whatever
    the evaluated code produced. *)
Inductive candidates_result (R : Type) : Type :=
| Data (v : value)
| Evaluated (r : R).

Arguments Data {R} v.
Arguments Evaluated {R} r.

Section ParseCandidates.

(** The JavaScript engine: building a function from a source text with
    the [Function] constructor and calling it yields a result, throws
    (a SyntaxError of the constructor included) or does not return. *)
Variable R : Type.
Variable run_function : jstr -> outcome R.

Definition lift_data (o : outcome value) : outcome (candidates_result R) :=
  match o with
  | Ret v => Ret (Data v)
  | Throw => Throw
  | Diverge => Diverge
  end.

Definition lift_eval (o : outcome R) : outcome (candidates_result R) :=
  match o with
  | Ret r => Ret (Evaluated r)
  | Throw => Throw
  | Diverge => Diverge
  end.

Definition parseCandidates (raw : value)
  : outcome (candidates_result R) :=
  match raw with
  | VArr _ => Ret (Data raw)
  | VNull | VUndefined => Ret (Data (VArr []))
  | _ =>
      let text := match raw with VStr s => trim s | _ => [] end in
      match text with
      | [] => Ret (Data (VArr []))
      | _ :: _ =>
          try_catch (lift_data (JSON_parse text))
            (try_catch (lift_data (JSON_parse (lenient_rewrite text)))
               (try_catch
                  (if test re_guard text
                   then lift_eval (run_function (function_source text))
                   else Ret (Data (VArr [])))
                  (Ret (Data (VArr [])))))
      end
  end.

End ParseCandidates.

(** ** Auxiliary notions used in the statements *)

(** The code unit before the position reached after reading [w]. *)
Definition prev_after (pv : option N) (w : jstr) : option N :=
  fold_left (fun _ c => Some c) w pv.

(** The four characters that never occur in escaped text. *)
Definition is_markup_char (c : N) : bool :=
  N.eqb c 60 || N.eqb c 62 || N.eqb c 34 || N.eqb c 39.

(** The text after an ampersand that makes it one of the five entities. *)
Definition entity_tails : list jstr :=
  [js "amp;"; js "lt;"; js "gt;"; js "quot;"; js "#39;"].

Definition starts_entity_tail (s : jstr) : bool :=
  existsb (fun e => match strip_prefix e s with Some _ => true | None => false end)
          entity_tails.

Fixpoint amp_ok (s : jstr) : bool :=
  match s with
  | [] => true
  | c :: tl => (if N.eqb c 38 then starts_entity_tail tl else true) && amp_ok tl
  end.

(** What undoing the escaping of the plain segments gives back for a
    span. *)
Definition undo_span (sp : span) : jstr :=
  match sp with
  | Plain t => unescapeHTML (render (Plain t))
  | Math t => t
  end.


Definition is_ascii_letter (c : N) : bool :=
  (N.leb 65 c && N.leb c 90) || (N.leb 97 c && N.leb c 122).

Definition letter_or_paren (c : N) : bool :=
  is_ascii_letter c || N.eqb c 40 || N.eqb c 41.


(** ** Matching on the remaining text alone

    For a regex without back reference, word boundary or start anchor, a
    match depends only on the text that remains.  [rmatch_rest] is the
    matcher over that text; the stateful matcher is shown to agree with
    it. *)

Fixpoint position_free (r : regex) : bool :=
  match r with
  | Eps | Chr _ | Cls _ | Rep _ _ _ | Eol => true
  | Cat r1 r2 | Alt r1 r2 => position_free r1 && position_free r2
  | Opt r1 | Grp _ r1 | Ahead r1 | NotAhead r1 => position_free r1
  | Bref _ | WordB | Bol => false
  end.

Fixpoint rep_rest (lazy : bool) (p : N -> bool) (min : nat) (s : jstr)
    (k : jstr -> option jstr) {struct s} : option jstr :=
  let more :=
    match s with
    | c :: tl => if p c then rep_rest lazy p (Nat.pred min) tl k else None
    | [] => None
    end in
  match min with
  | S _ => more
  | O =>
      if lazy then
        match k s with
        | Some r => Some r
        | None => more
        end
      else
        match more with
        | Some r => Some r
        | None => k s
        end
  end.

Fixpoint rmatch_rest (r : regex) (s : jstr) (k : jstr -> option jstr)
    {struct r} : option jstr :=
  match r with
  | Eps => k s
  | Chr c =>
      match s with
      | x :: tl => if N.eqb x c then k tl else None
      | [] => None
      end
  | Cls p =>
      match s with
      | x :: tl => if p x then k tl else None
      | [] => None
      end
  | Cat r1 r2 => rmatch_rest r1 s (fun s' => rmatch_rest r2 s' k)
  | Alt r1 r2 =>
      match rmatch_rest r1 s k with
      | Some res => Some res
      | None => rmatch_rest r2 s k
      end
  | Opt r1 =>
      match rmatch_rest r1 s k with
      | Some res => Some res
      | None => k s
      end
  | Rep lazy min p => rep_rest lazy p min s k
  | Grp _ r1 => rmatch_rest r1 s k
  | Ahead r1 =>
      match rmatch_rest r1 s Some with
      | Some _ => k s
      | None => None
      end
  | NotAhead r1 =>
      match rmatch_rest r1 s Some with
      | Some _ => None
      | None => k s
      end
  | Eol => match s with [] => k s | _ :: _ => None end
  | Bref _ | WordB | Bol => None
  end.

(** ** The repairs of a math span, read directly off the text *)

Fixpoint drop_while (p : N -> bool) (s : jstr) : jstr :=
  match s with
  | c :: tl => if p c then drop_while p tl else s
  | [] => []
  end.

(** [s] begins with [\hspace], white space, an opening brace, white space
    and a closing brace: what follows the closing brace. *)
Definition empty_hspace_at (s : jstr) : option jstr :=
  match strip_prefix (js "\hspace") s with
  | Some s1 =>
      match drop_while is_space s1 with
      | x :: s2 =>
          if N.eqb x (ch "{") then
            match drop_while is_space s2 with
            | y :: s3 => if N.eqb y (ch "}") then Some s3 else None
            | [] => None
            end
          else None
      | [] => None
      end
  | None => None
  end.

(** [s] begins with white space and a brace group that holds at least one
    character. *)
Definition group_follows (s : jstr) : bool :=
  match drop_while is_space s with
  | x :: c :: s2 =>
      N.eqb x (ch "{") && not_char (ch "}") c
      && match drop_while (not_char (ch "}")) s2 with
         | y :: _ => N.eqb y (ch "}")
         | [] => false
         end
  | _ => false
  end.

(** [s] begins with a [\hspace] that no such group follows: what follows
    the command name. *)
Definition bare_hspace_at (s : jstr) : option jstr :=
  match strip_prefix (js "\hspace") s with
  | Some s1 => if group_follows s1 then None else Some s1
  | None => None
  end.

(** [s] begins with the sentinel. *)
Definition sentinel_at (s : jstr) : option jstr := strip_prefix SENTINEL s.

(** One pass from left to right: where [at_] recognises an occurrence, [w]
    is written and the occurrence is skipped; other characters are
    copied. *)
Fixpoint rewrite_with (at_ : jstr -> option jstr) (w : jstr) (s : jstr)
    (skip : nat) {struct s} : jstr :=
  match skip with
  | S k =>
      match s with
      | _ :: tl => rewrite_with at_ w tl k
      | [] => []
      end
  | O =>
      match s with
      | [] => []
      | c :: tl =>
          match at_ s with
          | Some r => w ++ rewrite_with at_ w tl (length tl - length r)
          | None => c :: rewrite_with at_ w tl 0
          end
      end
  end.

(** The repairs as the claim words them: first every empty [\hspace{}],
    then every remaining bare [\hspace], becomes [\,]. *)
Definition repair_spec (m0 : jstr) : jstr :=
  rewrite_with bare_hspace_at (js "\,")
    (rewrite_with empty_hspace_at (js "\,") m0 0) 0.

(** [p] occurs somewhere in [s]. *)
Fixpoint occurs (p s : jstr) : bool :=
  match strip_prefix p s with
  | Some _ => true
  | None =>
      match s with
      | _ :: tl => occurs p tl
      | [] => false
      end
  end.

(** Texts whose only less-than and greater-than signs are those of
    [<br>]. *)
Inductive br_only : jstr -> Prop :=
| br_only_nil : br_only []
| br_only_char c s :
    c <> 60%N -> c <> 62%N -> br_only s -> br_only (c :: s)
| br_only_br s : br_only s -> br_only (js "<br>" ++ s).

(** Plain and math spans in turn, starting with a plain span. *)
Fixpoint alternating (spans : list span) : bool :=
  match spans with
  | [] => true
  | [Plain _] => true
  | Plain _ :: Math _ :: spans' => alternating spans'
  | _ => false
  end.

(** What a span contributes to the final output. *)
Definition final_render (sp : span) : jstr := restore_br (render sp).

(** A continuation of the stateful matcher and one on the remaining text
    that agree. *)
Definition krel (k : mstate -> option mstate) (kr : jstr -> option jstr)
  : Prop :=
  forall st, option_map rest (k st) = kr (rest st).

(** [x] is what remains of [a] after some prefix. *)
Definition is_suffix (x a : jstr) : Prop := exists p, a = p ++ x.

(** The characters of the sentinel. *)
Definition in_sentinel (c : N) : bool := existsb (N.eqb c) SENTINEL.

(** Plain and math spans in pairs. *)
Fixpoint paired (spans : list span) : bool :=
  match spans with
  | [] => true
  | Plain _ :: Math _ :: spans' => paired spans'
  | _ => false
  end.

(** The outline of a math segment: it opens with a dollar sign or with a
    backslash and a bracket, and closes with a dollar sign or a bracket. *)
Definition is_closer (c : N) : bool :=
  N.eqb c (ch ")") || N.eqb c (ch "]") || N.eqb c (ch "$").

Definition math_outline (v : jstr) : Prop :=
  (exists y l, v = ch "$" :: y ++ [l] /\ is_closer l = true)
  \/ (exists c y l, v = ch "\" :: c :: y ++ [l]
                    /\ (c = ch "(" \/ c = ch "[") /\ is_closer l = true).

(** ** The delimiter pairs, read directly off the text

    What the delimiter pattern matches at the head of a text: the first of
    the four pairs, in the order of the alternation, whose opening
    delimiter is at the head and whose closing delimiter occurs after it;
    the match ends with the first occurrence of the closing delimiter. *)

(** The text after the first occurrence of [cl] in [s]. *)
Fixpoint after_first (cl s : jstr) : option jstr :=
  match strip_prefix cl s with
  | Some r => Some r
  | None =>
      match s with
      | _ :: tl => after_first cl tl
      | [] => None
      end
  end.

Definition pair_at (op cl s : jstr) : option jstr :=
  match strip_prefix op s with
  | Some body => after_first cl body
  | None => None
  end.

(** The text that remains after the math span at the head of [s]. *)
Definition math_at (s : jstr) : option jstr :=
  match pair_at (js "\(") (js "\)") s with
  | Some r => Some r
  | None =>
      match pair_at (js "\[") (js "\]") s with
      | Some r => Some r
      | None =>
          match pair_at (js "$$") (js "$$") s with
          | Some r => Some r
          | None => pair_at (js "$") (js "$") s
          end
      end
  end.

(** The spans of a text: each math span is the leftmost math span of what
    is left of the text, up to the first closing delimiter; the plain span
    before it is the text in which no math span begins, and the last plain
    span is the text in which no math span is left. *)
Inductive segmentation : jstr -> list span -> Prop :=
| seg_end t :
    (forall a x, t = a ++ x -> math_at x = None) ->
    segmentation t [Plain t]
| seg_pair t w r spans :
    (forall a y, t = a ++ y -> y <> [] -> math_at (y ++ w ++ r) = None) ->
    math_at (w ++ r) = Some r ->
    segmentation r spans ->
    segmentation (t ++ w ++ r) (Plain t :: Math w :: spans).

(** ** The category label of a query (displayQueries)

    [escapeHTML(query.category).replace(/_/g, ' ')]: the global
    [escapeHTML] first applies [String] to its argument. *)

Definition escapeHTML_value (v : value) : outcome jstr :=
  bind (to_string v) (fun s => Ret (escapeHTML s)).

Definition category_label (category : value) : outcome jstr :=
  bind (escapeHTML_value category) (fun e =>
  Ret (replace_const (Chr (ch "_")) (js " ") e)).

(** ** Occurrences of what a recogniser accepts *)

(** [at_] accepts the text at some position of [s]. *)
Fixpoint anywhere (at_ : jstr -> option jstr) (s : jstr) : bool :=
  match at_ s with
  | Some _ => true
  | None =>
      match s with
      | _ :: tl => anywhere at_ tl
      | [] => false
      end
  end.

(** A recogniser that only accepts texts that begin with a backslash. *)
Definition needs_backslash (at_ : jstr -> option jstr) : Prop :=
  forall x r, at_ x = Some r -> exists t, x = ch "\" :: t.

(** ** What normalization leaves behind *)

(** [s] begins with two white-space characters: what follows the run of
    white space. *)
Definition spaces_at (s : jstr) : option jstr :=
  match s with
  | c1 :: c2 :: tl =>
      if is_space c1 && is_space c2 then Some (drop_while is_space tl)
      else None
  | _ => None
  end.

(** No two white-space characters follow each other. *)
Fixpoint no_double_space (s : jstr) : bool :=
  match s with
  | c1 :: tl =>
      match tl with
      | c2 :: _ => negb (is_space c1 && is_space c2)
      | [] => true
      end && no_double_space tl
  | [] => true
  end.

Definition starts_with_space (s : jstr) : bool :=
  match s with
  | c :: _ => is_space c
  | [] => false
  end.

(** ** The candidate cards (displayReferences) *)

(** [v.k] for the property names the code reads from a candidate
    ([reference], [title], [confidence], [score], [reasoning]), none of
    which a built-in prototype defines: a TypeError on [null] and
    [undefined], the field of an object, [undefined] otherwise. *)
Definition get_prop (v : value) (k : jstr) : outcome value :=
  match v with
  | VUndefined | VNull => Throw
  | VObj fs =>
      Ret (match lookup_field k fs with
           | Some x => x
           | None => VUndefined
           end)
  | _ => Ret VUndefined
  end.

Definition dash : jstr := [8212%N].

Definition confidence_open : jstr :=
  js "<div class=" ++ [dquote] ++ js "confidence" ++ [dquote]
  ++ js ">LLM Confidence: ".

Definition reasoning_open : jstr :=
  js "<details class=" ++ [dquote] ++ js "reasoning" ++ [dquote]
  ++ js "><summary>Reasoning</summary><div>".

Definition reasoning_close : jstr := js "</div></details>".

(** [hasConf] of buildCard. *)
Definition hasConf (confidence : value) : bool :=
  negb (match confidence with VStr [] => true | _ => false end
        || is_nullish confidence
        || match confidence with
           | VNum x => negb (is_finite x)
           | _ => false
           end).

Definition confText (confidence : value) : outcome jstr :=
  if hasConf confidence then formatConfidence confidence else Ret dash.

Definition reasoningHTML (reasoning : value) : outcome jstr :=
  if to_boolean reasoning
  then bind (escapeHTML_value reasoning) (fun e =>
       Ret (reasoning_open ++ e ++ reasoning_close))
  else Ret [].

(** The arrow function [buildCard] of displayReferences. *)
Definition buildCard (title confidence reasoning : value) : outcome jstr :=
  bind (escapeHTML_value title) (fun t =>
  bind (confText confidence) (fun c =>
  bind (reasoningHTML reasoning) (fun r =>
  Ret ((js "<b>" ++ t ++ js "</b>")
       ++ (confidence_open ++ c ++ js "</div>")
       ++ r)))).

(** Lines 334 to 337: the title, the confidence and the reasoning of a
    candidate that is not a string. *)
Definition candidate_fields (candidate : value)
  : outcome (value * value * value) :=
  bind (get_prop candidate (js "reference")) (fun r =>
  let ref := js_or r (VObj []) in
  bind (get_prop ref (js "title")) (fun rt =>
  bind (get_prop candidate (js "title")) (fun ct =>
  let title := js_or (js_or rt ct) (VStr (js "N/A")) in
  bind (get_prop candidate (js "confidence")) (fun cf =>
  bind (get_prop candidate (js "score")) (fun sc =>
  let confidence := js_coalesce (js_coalesce cf sc) (VStr []) in
  bind (get_prop candidate (js "reasoning")) (fun rs =>
  let reasoning := js_or rs (VStr []) in
  Ret (title, confidence, reasoning))))))).

(** The body of the [forEach] callback: the markup of one card. *)
Definition candidate_card (candidate : value) : outcome jstr :=
  match candidate with
  | VStr _ => buildCard candidate (VStr []) (VStr [])
  | _ =>
      bind (candidate_fields candidate) (fun f =>
      let '(title, confidence, reasoning) := f in
      buildCard title confidence reasoning)
  end.




(** ** Selection and navigation

    The handlers that choose the current paper and artifact read only the
    ids: a paper is given by its id and the ids of its artifacts.  [Id] is
    the type of the values that occur as ids, [id_eqb] their comparison
    with [===], [truthy] their truth value and [null_id] the value
    [null]. *)

Section Navigation.

(** The values used as ids, with [===] on them, their truthiness and the
    value [null]. *)
Variable Id : Type.
Variable id_eqb : Id -> Id -> bool.
Variable truthy : Id -> bool.
Variable null_id : Id.
Variable DEFAULT_PAPER_ID : Id.

Record paper : Type := Paper {
  p_id : Id;
  p_artifacts : list Id
}.

Record nav : Type := Nav {
  currentPaperId : Id;
  currentArtifactId : Id
}.

(** [ids.some(a => a === x)] *)
Definition has_id (ids : list Id) (x : Id) : bool :=
  existsb (fun a => id_eqb a x) ids.

(** [papers.find(p => p.id === x)] *)
Definition find_paper (papers : list paper) (x : Id) : option paper :=
  find (fun p => id_eqb (p_id p) x) papers.

(** [findIndex]: the first index with the id, or [-1]. *)
Fixpoint findIndex_from (ids : list Id) (x : Id) (i : Z) : Z :=
  match ids with
  | [] => (-1)%Z
  | a :: tl => if id_eqb a x then i else findIndex_from tl x (i + 1)%Z
  end.

Definition findIndex (ids : list Id) (x : Id) : Z :=
  findIndex_from ids x 0%Z.

(** [p.artifacts[0] ? p.artifacts[0].id : null] *)
Definition first_artifact (p : paper) : Id :=
  match p_artifacts p with
  | a :: _ => a
  | [] => null_id
  end.

(** Lines 160 to 167, for a list of papers that is not empty ([None] when
    it is: the function has returned before). *)
Definition init_selection (papers : list paper) (hPaper hArtifact : Id)
  : option nav :=
  match papers with
  | [] => None
  | p0 :: _ =>
      let fallbackId :=
        if has_id (map p_id papers) DEFAULT_PAPER_ID
        then DEFAULT_PAPER_ID else p_id p0 in
      let pid :=
        if truthy hPaper && has_id (map p_id papers) hPaper
        then hPaper else fallbackId in
      let initPaper := find_paper papers pid in
      let aid :=
        if truthy hArtifact
           && match initPaper with
              | Some p => has_id (p_artifacts p) hArtifact
              | None => false
              end
        then hArtifact
        else match initPaper with
             | Some p => first_artifact p
             | None => null_id
             end in
      Some (Nav pid aid)
  end.

(** The [hashchange] listener, up to the call of displayArtifact: the new
    state and whether displayArtifact is called. *)
Definition on_hashchange (papers : list paper) (st : nav)
    (hPaper hArtifact : Id) : outcome (nav * bool) :=
  if negb (truthy hPaper) || negb (has_id (map p_id papers) hPaper)
  then Ret (st, false)
  else
    match find_paper papers hPaper with
    | None => Throw
    | Some p =>
        let aid :=
          if truthy hArtifact && has_id (p_artifacts p) hArtifact
          then hArtifact else first_artifact p in
        Ret (Nav hPaper aid, true)
    end.

(** The click listeners of the two artifact buttons, up to the call of
    displayArtifact: the new state and whether displayArtifact is called. *)
Definition on_prev (papers : list paper) (st : nav) : outcome (nav * bool) :=
  match find_paper papers (currentPaperId st) with
  | None => Throw
  | Some p =>
      let currentIndex := findIndex (p_artifacts p) (currentArtifactId st) in
      if (0 <? currentIndex)%Z then
        match nth_error (p_artifacts p) (Z.to_nat (currentIndex - 1)) with
        | Some a => Ret (Nav (currentPaperId st) a, true)
        | None => Throw
        end
      else Ret (st, false)
  end.

Definition on_next (papers : list paper) (st : nav) : outcome (nav * bool) :=
  match find_paper papers (currentPaperId st) with
  | None => Throw
  | Some p =>
      let currentIndex := findIndex (p_artifacts p) (currentArtifactId st) in
      if (currentIndex <? Z.of_nat (length (p_artifacts p)) - 1)%Z then
        match nth_error (p_artifacts p) (Z.to_nat (currentIndex + 1)) with
        | Some a => Ret (Nav (currentPaperId st) a, true)
        | None => Throw
        end
      else Ret (st, false)
  end.

(** The click listener of the Next Paper button, up to the call of
    displayArtifact. *)
Definition on_next_paper (papers : list paper) (st : nav)
  : outcome (nav * bool) :=
  let idx := findIndex (map p_id papers) (currentPaperId st) in
  match papers with
  | [] => Throw
  | _ :: _ =>
      let nextIdx := ((idx + 1) mod Z.of_nat (length papers))%Z in
      match nth_error papers (Z.to_nat nextIdx) with
      | None => Throw
      | Some nextPaper =>
          Ret (Nav (p_id nextPaper)
                   (match p_artifacts nextPaper with
                    | a :: _ => if truthy a then a else null_id
                    | [] => null_id
                    end),
               true)
      end
  end.

(** The two classes set by updateNavButtons: whether the previous and the
    next button are disabled ([None] when the paper is not found and the
    function returns). *)
Definition updateNavButtons (papers : list paper) (st : nav)
  : option (bool * bool) :=
  match find_paper papers (currentPaperId st) with
  | None => None
  | Some p =>
      let currentIndex := findIndex (p_artifacts p) (currentArtifactId st) in
      Some ((currentIndex <=? 0)%Z,
            (Z.of_nat (length (p_artifacts p)) - 1 <=? currentIndex)%Z)
  end.

(** The two look-ups at the head of displayArtifact: nothing when an id is
    falsy, otherwise the paper and the index of the artifact; a paper or
    an artifact that is not found is a TypeError further down. *)
Definition displayArtifact_lookup (papers : list paper) (st : nav)
  : outcome (option (paper * Z)) :=
  if negb (truthy (currentPaperId st)) || negb (truthy (currentArtifactId st))
  then Ret None
  else
    match find_paper papers (currentPaperId st) with
    | None => Throw
    | Some p =>
        if has_id (p_artifacts p) (currentArtifactId st)
        then Ret (Some (p, findIndex (p_artifacts p) (currentArtifactId st)))
        else Throw
    end.

(** What displayArtifact makes of a selection: with two truthy ids it has
    the paper with the current id and the position of the current artifact
    among the artifacts of that paper; with a falsy id it returns at its
    first line and displays nothing. *)
Definition lookup_succeeds (papers : list paper) (st : nav) : Prop :=
  if truthy (currentPaperId st) && truthy (currentArtifactId st)
  then exists p k,
         displayArtifact_lookup papers st = Ret (Some (p, Z.of_nat k))
         /\ In p papers
         /\ p_id p = currentPaperId st
         /\ nth_error (p_artifacts p) k = Some (currentArtifactId st)
  else displayArtifact_lookup papers st = Ret None.

End Navigation.

(** Ids as they come from the address fragment: a string or [null]. *)
Definition oid : Type := option jstr.

Definition oid_eqb (a b : oid) : bool :=
  match a, b with
  | Some x, Some y => jstr_eqb x y
  | None, None => true
  | _, _ => false
  end.

Definition oid_truthy (a : oid) : bool :=
  match a with
  | Some (_ :: _) => true
  | _ => false
  end.

(** A dataset of three papers, the second without artifacts. *)
Definition example_papers : list (paper oid) :=
  [ Paper (Some (js "2310.00736v2"))
          [Some (js "thm1"); Some (js "thm2"); Some (js "thm3")];
    Paper (Some (js "p2")) [];
    Paper (Some (js "p3")) [Some (js "lem1")] ].
(** * Properties *)

(** ** The matcher only moves forward *)

Lemma reach_refl st : reach 0 st st.
Proof. exists []. simpl. repeat split; lia. Qed.

Lemma reach_trans n1 n2 st1 st2 st3 :
  reach n1 st1 st2 -> reach n2 st2 st3 -> reach (n1 + n2) st1 st3.
Proof.
  intros (w1 & E1 & P1 & L1) (w2 & E2 & P2 & L2).
  exists (w1 ++ w2). rewrite length_app, <- app_assoc, <- E2.
  repeat split; auto; lia.
Qed.

Lemma reach_weaken n m st st' : m <= n -> reach n st st' -> reach m st st'.
Proof. intros H (w & E & P & L). exists w. repeat split; auto; lia. Qed.

Lemma reach_advance st c tl :
  rest st = c :: tl -> reach 1 st (advance st c tl).
Proof. intros E. exists [c]. simpl. rewrite E. repeat split; lia. Qed.

Lemma strip_prefix_app w : forall s tl,
  strip_prefix w s = Some tl -> s = w ++ tl.
Proof.
  induction w as [|c w IH]; intros s tl H; simpl in *.
  - congruence.
  - destruct s as [|x s']; [discriminate|].
    destruct (N.eqb_spec x c); [|discriminate].
    subst. f_equal. auto.
Qed.

Lemma strip_prefix_app_same w : forall tl, strip_prefix w (w ++ tl) = Some tl.
Proof.
  induction w as [|c w IH]; intros tl; simpl; auto.
  rewrite N.eqb_refl. auto.
Qed.

Lemma advance_by_spec w : forall st tl,
  rest (advance_by w st tl) = tl /\
  pos (advance_by w st tl) = pos st + length w /\
  caps (advance_by w st tl) = caps st.
Proof.
  induction w as [|c w IH]; intros st tl; simpl.
  - repeat split; lia.
  - destruct (IH (MState (Some c) tl (S (pos st)) (caps st)) tl) as (A & B & C).
    rewrite A, B, C. simpl. repeat split; lia.
Qed.

Lemma rep_reach lz p s : forall min st k res,
  rest st = s -> rep lz p min s st k = Some res ->
  exists st', reach min st st' /\ k st' = Some res.
Proof.
  induction s as [|c tl IH]; intros min st k res E H.
  - simpl in H. destruct min; [|discriminate].
    exists st. split; [apply reach_refl|].
    destruct lz; destruct (k st); congruence.
  - assert (More : (if p c then rep lz p (Nat.pred min) tl (advance st c tl) k
                    else None) = Some res ->
                   exists st', reach min st st' /\ k st' = Some res).
    { destruct (p c); [|discriminate]. intros H1.
      apply IH in H1; [|reflexivity].
      destruct H1 as (st' & R & K). exists st'. split; auto.
      apply reach_weaken with (n := 1 + Nat.pred min); [lia|].
      eapply reach_trans; [apply reach_advance; exact E|exact R]. }
    simpl in H. destruct min; [|auto].
    destruct lz.
    + destruct (k st) eqn:K.
      * exists st. split; [apply reach_refl|congruence].
      * auto.
    + match type of H with
      | match ?x with _ => _ end = _ => destruct x eqn:M
      end.
      * apply More. congruence.
      * exists st. split; [apply reach_refl|auto].
Qed.

Lemma rmatch_reach r : forall st k res,
  rmatch r st k = Some res ->
  exists st', reach (min_len r) st st' /\ k st' = Some res.
Proof.
  induction r; intros st k res H; simpl in H; simpl min_len.
  - exists st. split; [apply reach_refl|auto].
  - destruct (rest st) as [|x tl] eqn:E; [discriminate|].
    destruct (N.eqb x c); [|discriminate].
    exists (advance st x tl). split; [apply reach_advance|]; auto.
  - destruct (rest st) as [|x tl] eqn:E; [discriminate|].
    destruct (p x); [|discriminate].
    exists (advance st x tl). split; [apply reach_advance|]; auto.
  - apply IHr1 in H. destruct H as (st1 & R1 & H).
    apply IHr2 in H. destruct H as (st2 & R2 & H).
    exists st2. split; auto. eapply reach_trans; eauto.
  - destruct (rmatch r1 st k) eqn:M.
    + apply IHr1 in M. destruct M as (st1 & R1 & K). exists st1.
      split; [eapply reach_weaken; [|exact R1]; lia|congruence].
    + apply IHr2 in H. destruct H as (st1 & R1 & K). exists st1.
      split; [eapply reach_weaken; [|exact R1]; lia|congruence].
  - destruct (rmatch r st k) eqn:M.
    + apply IHr in M. destruct M as (st1 & R1 & K). exists st1.
      split; [eapply reach_weaken; [|exact R1]; lia|congruence].
    + exists st. split; [apply reach_refl|auto].
  - eapply rep_reach; eauto.
  - apply IHr in H. destruct H as (st1 & (w & E & P & L) & K).
    exists (set_cap i (firstn (pos st1 - pos st) (rest st)) st1).
    split; auto. exists w. simpl. auto.
  - destruct (get_cap i (caps st)) as [w|].
    + destruct (strip_prefix w (rest st)) as [tl|] eqn:S; [|discriminate].
      exists (advance_by w st tl). split; auto.
      destruct (advance_by_spec w st tl) as (A & B & _).
      exists w. rewrite A, B. apply strip_prefix_app in S.
      repeat split; auto; lia.
    + exists st. split; [apply reach_refl|auto].
  - destruct (rmatch r st Some) as [st1|]; [|discriminate].
    exists (with_caps st st1). split; auto. exists []. simpl.
    repeat split; lia.
  - destruct (rmatch r st Some); [discriminate|].
    exists st. split; [apply reach_refl|auto].
  - destruct (xorb _ _); [|discriminate].
    exists st. split; [apply reach_refl|auto].
  - destruct (pos st); [|discriminate].
    exists st. split; [apply reach_refl|auto].
  - destruct (rest st); [|discriminate].
    exists st. split; [apply reach_refl|auto].
Qed.

Lemma match_at_spec r pv s n st' :
  match_at r pv s n = Some st' ->
  exists w, s = w ++ rest st' /\ pos st' = n + length w
            /\ min_len r <= length w.
Proof.
  unfold match_at. intros H. apply rmatch_reach in H.
  destruct H as (st1 & (w & E & P & L) & K). inversion K; subst.
  exists w. simpl in *. auto.
Qed.

Lemma search_spec r s : forall pv n i st',
  search r pv s n = Some (i, st') ->
  exists pre w, s = pre ++ w ++ rest st' /\ i = n + length pre
                /\ pos st' = i + length w /\ min_len r <= length w.
Proof.
  induction s as [|c tl IH]; intros pv n i st' H; simpl in H.
  - destruct (match_at r pv [] n) eqn:M; [|discriminate].
    inversion H; subst. apply match_at_spec in M.
    destruct M as (w & E & P & L). exists [], w. simpl.
    repeat split; auto; lia.
  - destruct (match_at r pv (c :: tl) n) eqn:M.
    + inversion H; subst. apply match_at_spec in M.
      destruct M as (w & E & P & L). exists [], w. simpl.
      repeat split; auto; lia.
    + apply IH in H. destruct H as (pre & w & E & I & P & L).
      exists (c :: pre), w. simpl. rewrite E.
      repeat split; auto; lia.
Qed.

Lemma exec_spec r s li i e cs :
  exec r s li = Some (i, e, cs) ->
  exists a pre w post, s = a ++ pre ++ w ++ post /\ length a = li
    /\ i = li + length pre /\ e = i + length w /\ min_len r <= length w.
Proof.
  unfold exec. destruct (Nat.ltb_spec (length s) li); [discriminate|].
  destruct (search _ _ _ _) as [[i' st']|] eqn:S; [|discriminate].
  intros E. inversion E; subst. apply search_spec in S.
  destruct S as (pre & w & E1 & I & P & L).
  exists (firstn li s), pre, w, (rest st').
  rewrite <- E1, firstn_skipn, length_firstn.
  repeat split; auto; lia.
Qed.

(** ** Literals and delimiter pairs *)

Lemma rmatch_lit w : forall st k res,
  rmatch (lit w) st k = Some res ->
  exists st', rest st = w ++ rest st' /\ pos st' = pos st + length w
              /\ k st' = Some res.
Proof.
  induction w as [|c w IH]; intros st k res H; simpl in H.
  - exists st. simpl. repeat split; auto; lia.
  - destruct (rest st) as [|x tl] eqn:E; [discriminate|].
    destruct (N.eqb_spec x c); [|discriminate]. subst x.
    apply IH in H. destruct H as (st' & E' & P' & K).
    exists st'. simpl in *. rewrite E'. repeat split; auto; lia.
Qed.

Lemma delimited_app op mid cl : delimited op cl (op ++ mid ++ cl) = true.
Proof.
  unfold delimited. rewrite strip_prefix_app_same, rev_app_distr.
  rewrite strip_prefix_app_same. reflexivity.
Qed.

Lemma rmatch_pair op cl st k res :
  rmatch (seq [lit op; Rep true 0 any_char; lit cl]) st k = Some res ->
  exists w st', rest st = w ++ rest st' /\ delimited op cl w = true
                /\ k st' = Some res.
Proof.
  simpl. intros H.
  apply rmatch_lit in H. destruct H as (st1 & E1 & _ & H).
  apply rep_reach with (s := rest st1) in H; [|reflexivity].
  destruct H as (st2 & (mid & E2 & _ & _) & H).
  apply rmatch_lit in H. destruct H as (st3 & E3 & _ & H).
  exists (op ++ mid ++ cl), st3. split; [|split; [apply delimited_app|exact H]].
  rewrite E1, E2, E3, <- !app_assoc. reflexivity.
Qed.

Lemma match_at_math pv s n st' :
  match_at re_math pv s n = Some st' ->
  exists w, s = w ++ rest st' /\ is_math_text w = true.
Proof.
  unfold match_at, re_math, is_math_text. intros H.
  cbn [rmatch] in H.
  repeat match type of H with
  | match ?x with _ => _ end = _ => destruct x eqn:?M; [inversion H; subst; clear H|]
  end.
  4: rename H into M2.
  all: match goal with
       | M : rmatch (seq _) _ _ = Some _ |- _ =>
           apply rmatch_pair in M; destruct M as (w & st2 & E & D & K)
       end.
  all: inversion K; subst; simpl in E; exists w; split; [exact E|].
  all: rewrite D; repeat rewrite orb_true_r; reflexivity.
Qed.

(** ** The loop of the segmenter *)

Lemma skipn_length_app (a b : jstr) : skipn (length a) (a ++ b) = b.
Proof. induction a; simpl; auto. Qed.

Lemma slice_app (x y z : jstr) n m :
  n = length x -> m = length x + length y -> slice (x ++ y ++ z) n m = y.
Proof.
  intros -> ->. unfold slice. rewrite skipn_length_app.
  replace (length x + length y - length x) with (length y + 0) by lia.
  rewrite firstn_app_2. simpl. apply app_nil_r.
Qed.

Lemma match_at_math_spec pv s n st' :
  match_at re_math pv s n = Some st' ->
  exists w, s = w ++ rest st' /\ pos st' = n + length w /\ 2 <= length w
            /\ is_math_text w = true.
Proof.
  intros M. destruct (match_at_spec _ _ _ _ M) as (w & E & P & L).
  destruct (match_at_math _ _ _ M) as (w' & E' & D).
  assert (w' = w) by (rewrite E in E' at 1; apply app_inv_tail in E'; auto).
  subst. exists w. repeat split; auto.
Qed.

Lemma search_math_spec s : forall pv n i st',
  search re_math pv s n = Some (i, st') ->
  exists pre w, s = pre ++ w ++ rest st' /\ i = n + length pre
                /\ pos st' = i + length w /\ 2 <= length w
                /\ is_math_text w = true.
Proof.
  induction s as [|c tl IH]; intros pv n i st' H; cbn [search] in H.
  - destruct (match_at re_math pv [] n) eqn:M; [|discriminate].
    inversion H; subst. apply match_at_math_spec in M.
    destruct M as (w & E & P & L & D). exists [], w. simpl.
    repeat split; auto; lia.
  - destruct (match_at re_math pv (c :: tl) n) eqn:M.
    + inversion H; subst. apply match_at_math_spec in M.
      destruct M as (w & E & P & L & D). exists [], w. simpl.
      repeat split; auto; lia.
    + apply IH in H. destruct H as (pre & w & E & I & P & L & D).
      exists (c :: pre), w. simpl. rewrite E.
      repeat split; auto; lia.
Qed.

Lemma exec_math_spec s li i e cs :
  exec re_math s li = Some (i, e, cs) ->
  exists a pre w post, s = a ++ pre ++ w ++ post /\ length a = li
    /\ i = li + length pre /\ e = i + length w /\ 1 <= length w
    /\ is_math_text w = true.
Proof.
  unfold exec. destruct (Nat.ltb_spec (length s) li); [discriminate|].
  destruct (search _ _ _ _) as [[i' st']|] eqn:S; [|discriminate].
  intros E. inversion E; subst. apply search_math_spec in S.
  destruct S as (pre & w & E1 & I & P & L & D).
  exists (firstn li s), pre, w, (rest st').
  rewrite <- E1, firstn_skipn, length_firstn.
  repeat split; auto; lia.
Qed.

Lemma app_inj_length (a a' x y : jstr) :
  a ++ x = a' ++ y -> length a' = length a -> a' = a /\ y = x.
Proof.
  revert a'. induction a as [|c a IH]; intros [|c' a'] E L; simpl in *;
    try discriminate; auto.
  inversion E; subst. destruct (IH a' H1) as [-> ->]; auto.
Qed.

Lemma seg_loop_spec : forall fuel a b out,
  length b < fuel ->
  exists spans c,
    b = concat (map span_text spans) ++ c /\
    Forall span_ok spans /\
    exec re_math (a ++ b) (length (a ++ concat (map span_text spans))) = None /\
    seg_loop fuel (a ++ b) (SegState out (length a) (length a)) =
      Some (SegState (out ++ concat (map render spans))
                     (length (a ++ concat (map span_text spans))) 0) /\
    paired spans = true.
Proof.
  induction fuel as [|fuel IH]; intros a b out Hf; [lia|].
  simpl. destruct (exec re_math (a ++ b) (length a)) as [[[i e] cs]|] eqn:X.
  - destruct (exec_math_spec _ _ X) as (a' & pre & w & post & E & La & I & En & Lw & D).
    assert (a' = a /\ pre ++ w ++ post = b) as [-> <-]
      by (apply app_inj_length; auto).
    clear E La.
    rewrite (@slice_app a pre (w ++ post) (length a) i) by lia.
    replace (a ++ pre ++ w ++ post) with ((a ++ pre) ++ w ++ post)
      by (rewrite <- app_assoc; reflexivity).
    rewrite (@slice_app (a ++ pre) w post i e)
      by (rewrite ?length_app; lia).
    replace e with (length ((a ++ pre) ++ w)) by (rewrite !length_app; lia).
    replace ((a ++ pre) ++ w ++ post) with (((a ++ pre) ++ w) ++ post)
      by (rewrite <- !app_assoc; reflexivity).
    destruct (IH ((a ++ pre) ++ w) post
                ((out ++ escapeHTML_local pre) ++ mathSeg w))
      as (spans & c & Eb & Ok & Xn & Lp & Pr).
    { rewrite !length_app in Hf. lia. }
    exists (Plain pre :: Math w :: spans), c.
    simpl. rewrite <- !app_assoc in *. rewrite <- Eb.
    split; [reflexivity|]. split; [repeat constructor; auto|].
    split; [auto|]. split; auto.
  - exists [], b. simpl. rewrite !app_nil_r. repeat split; auto.
Qed.

Lemma two_step_ind (P : list span -> Prop) :
  P [] -> (forall x, P [x]) -> (forall x y l, P l -> P (x :: y :: l)) ->
  forall l, P l.
Proof.
  intros H0 H1 H2.
  refine (fix IH (l : list span) : P l :=
            match l with
            | [] => H0
            | [x] => H1 x
            | x :: y :: l' => H2 x y l' (IH l')
            end).
Qed.

Lemma paired_alternating_snoc spans c :
  paired spans = true -> alternating (spans ++ [Plain c]) = true.
Proof.
  induction spans as [|x|x y l IH] using two_step_ind; intros H.
  - reflexivity.
  - destruct x; discriminate.
  - destruct x; [|discriminate]. destruct y; [discriminate|].
    simpl in *. auto.
Qed.

Lemma paired_alternating spans :
  paired spans = true -> alternating spans = true.
Proof.
  induction spans as [|x|x y l IH] using two_step_ind; intros H.
  - reflexivity.
  - destruct x; discriminate.
  - destruct x; [|discriminate]. destruct y; [discriminate|].
    simpl in *. auto.
Qed.

(** The output of the segmenter as a list of spans: the spans partition
    the text, every math span is a delimiter pair, and no further match
    starts after the last math span. *)
Lemma segment_spans s :
  exists spans,
    s = concat (map span_text spans) /\
    Forall span_ok spans /\
    segment s = Some (concat (map render spans)) /\
    alternating spans = true.
Proof.
  destruct (@seg_loop_spec (S (length s)) [] s [])
    as (spans & c & E & Ok & X & L & Pr); [lia|].
  unfold segment, segment_fuel. simpl in *. rewrite L. simpl.
  destruct (Nat.ltb_spec (length (concat (map span_text spans))) (length s)).
  - exists (spans ++ [Plain c]). rewrite !map_app, !concat_app. simpl.
    rewrite !app_nil_r. repeat split; auto.
    + apply Forall_app. split; auto. constructor; simpl; auto.
    + do 2 f_equal.
      assert (S : slice s (length (concat (map span_text spans))) (length s) = c).
      { rewrite E at 1. unfold slice. rewrite skipn_length_app.
        apply firstn_all2. rewrite E at 1. rewrite length_app. lia. }
      rewrite S. reflexivity.
    + apply paired_alternating_snoc. exact Pr.
  - assert (c = []).
    { destruct c; auto. rewrite E, length_app in H. simpl in H. lia. }
    subst c. rewrite app_nil_r in E. exists spans. repeat split; auto.
    apply paired_alternating. exact Pr.
Qed.

(** ** Global replacement, step by step *)

Lemma replace_from_skip r f w : forall pv t n,
  replace_from r f pv (w ++ t) n (length w) =
  replace_from r f (prev_after pv w) t (n + length w) 0.
Proof.
  induction w as [|c w IH]; intros pv t n; simpl.
  - rewrite Nat.add_0_r. reflexivity.
  - rewrite IH. f_equal. lia.
Qed.

Lemma replace_from_nomatch r f pv c tl n :
  match_at r pv (c :: tl) n = None ->
  replace_from r f pv (c :: tl) n 0 =
  c :: replace_from r f (Some c) tl (S n) 0.
Proof. intros M. cbn [replace_from]. rewrite M. reflexivity. Qed.

Lemma replace_from_nil_nomatch r f pv n :
  match_at r pv [] n = None -> replace_from r f pv [] n 0 = [].
Proof. intros M. cbn [replace_from]. rewrite M. reflexivity. Qed.

Lemma replace_from_match r f pv n w t st' :
  match_at r pv (w ++ t) n = Some st' ->
  pos st' = n + length w -> w <> [] ->
  replace_from r f pv (w ++ t) n 0 =
  f w (caps st') ++ replace_from r f (prev_after pv w) t (n + length w) 0.
Proof.
  intros M P W. destruct w as [|c w]; [congruence|].
  change ((c :: w) ++ t) with (c :: w ++ t) in *.
  cbn [replace_from]. rewrite M, P. replace (n + length (c :: w) - n) with (S (length w))
    by (simpl; lia).
  f_equal.
  - change (c :: w ++ t) with ((c :: w) ++ t).
    replace (S (length w)) with (length (c :: w) + 0) by (simpl; lia).
    rewrite firstn_app_2. simpl. rewrite app_nil_r. reflexivity.
  - rewrite replace_from_skip. simpl. f_equal. lia.
Qed.

(** ** The escaper *)

Lemma replace_cls p f s : forall pv n,
  replace_from (Cls p) f pv s n 0 =
  flat_map (fun c => if p c then f [c] [] else [c]) s.
Proof.
  induction s as [|c tl IH]; intros pv n.
  - reflexivity.
  - cbn [flat_map]. destruct (p c) eqn:Pc.
    + change (c :: tl) with ([c] ++ tl).
      rewrite (@replace_from_match (Cls p) f pv n [c] tl
                 (advance (MState pv (c :: tl) n []) c tl)).
      * simpl. rewrite IH. reflexivity.
      * unfold match_at. simpl. rewrite Pc. reflexivity.
      * simpl. lia.
      * discriminate.
    + rewrite replace_from_nomatch.
      * rewrite IH. reflexivity.
      * unfold match_at. simpl. rewrite Pc. reflexivity.
Qed.

Lemma escapeHTML_local_chars s : escapeHTML_local s = flat_map esc_char s.
Proof. unfold escapeHTML_local, replace_all. apply replace_cls. Qed.

Lemma escapeHTML_chars s : escapeHTML s = flat_map esc_char s.
Proof. unfold escapeHTML, replace_all. apply replace_cls. Qed.

Lemma special_cases c :
  is_html_special c = true ->
  c = 38%N \/ c = 60%N \/ c = 62%N \/ c = 34%N \/ c = 39%N.
Proof.
  unfold is_html_special. rewrite !orb_true_iff, !N.eqb_eq. tauto.
Qed.

Lemma not_special_neq c :
  is_html_special c = false ->
  c <> 38%N /\ c <> 60%N /\ c <> 62%N /\ c <> 34%N /\ c <> 39%N.
Proof.
  unfold is_html_special. rewrite !orb_false_iff, !N.eqb_neq. tauto.
Qed.

Lemma unescape_from_escaped s : forall pv n,
  replace_from re_entity (fun m _ => unentity m) pv (flat_map esc_char s) n 0
  = s.
Proof.
  induction s as [|c tl IH]; intros pv n.
  - reflexivity.
  - cbn [flat_map]. unfold esc_char at 1.
    destruct (is_html_special c) eqn:Sp.
    + apply special_cases in Sp.
      destruct Sp as [-> | [-> | [-> | [-> | ->]]]].
      all: match goal with
           | |- replace_from _ _ _ (entity ?x ++ ?t) _ _ = _ =>
               erewrite (@replace_from_match re_entity _ pv n (entity x) t);
               [ rewrite IH; reflexivity
               | unfold match_at; reflexivity
               | simpl; lia
               | discriminate ]
           end.
    + apply not_special_neq in Sp. destruct Sp as (A & _).
      simpl app. rewrite replace_from_nomatch.
      * rewrite IH. reflexivity.
      * unfold match_at. simpl. apply N.eqb_neq in A. rewrite A.
        reflexivity.
Qed.

Lemma unescape_escape s : unescapeHTML (escapeHTML s) = s.
Proof.
  rewrite escapeHTML_chars. unfold unescapeHTML, replace_all.
  apply unescape_from_escaped.
Qed.

Lemma unescape_escape_local s : unescapeHTML (escapeHTML_local s) = s.
Proof.
  rewrite escapeHTML_local_chars. unfold unescapeHTML, replace_all.
  apply unescape_from_escaped.
Qed.

Lemma esc_char_length c : 1 <= length (esc_char c).
Proof.
  unfold esc_char. destruct (is_html_special c) eqn:Sp; [|simpl; lia].
  apply special_cases in Sp.
  destruct Sp as [-> | [-> | [-> | [-> | ->]]]]; simpl; lia.
Qed.

Lemma flat_map_esc_length s : length s <= length (flat_map esc_char s).
Proof.
  induction s as [|c tl IH]; simpl; [lia|].
  rewrite length_app. pose proof (esc_char_length c). lia.
Qed.

Lemma esc_char_no_markup c :
  Forall (fun x => is_markup_char x = false) (esc_char c).
Proof.
  unfold esc_char. destruct (is_html_special c) eqn:Sp.
  - apply special_cases in Sp.
    destruct Sp as [-> | [-> | [-> | [-> | ->]]]];
      repeat constructor.
  - apply not_special_neq in Sp. destruct Sp as (_ & B & C & D & E).
    constructor; [|constructor]. unfold is_markup_char.
    rewrite !orb_false_iff, !N.eqb_neq. tauto.
Qed.

Lemma flat_map_esc_no_markup s :
  Forall (fun x => is_markup_char x = false) (flat_map esc_char s).
Proof.
  induction s as [|c tl IH]; simpl; [constructor|].
  apply Forall_app. split; [apply esc_char_no_markup|exact IH].
Qed.

Lemma amp_ok_escaped s : amp_ok (flat_map esc_char s) = true.
Proof.
  induction s as [|c tl IH]; simpl; [reflexivity|].
  unfold esc_char. destruct (is_html_special c) eqn:Sp.
  - apply special_cases in Sp.
    destruct Sp as [-> | [-> | [-> | [-> | ->]]]]; simpl; exact IH.
  - apply not_special_neq in Sp. destruct Sp as (A & _).
    simpl. apply N.eqb_neq in A. rewrite A. exact IH.
Qed.

Lemma amp_ok_split pre : forall post,
  amp_ok (pre ++ 38%N :: post) = true ->
  exists e rest, In e entity_tails /\ post = e ++ rest.
Proof.
  induction pre as [|c pre IH]; intros post H; simpl in H.
  - apply andb_true_iff in H. destruct H as [H _].
    unfold starts_entity_tail in H. apply existsb_exists in H.
    destruct H as (e & In_e & S).
    destruct (strip_prefix e post) as [rest|] eqn:SP; [|discriminate].
    exists e, rest. split; auto. apply strip_prefix_app; auto.
  - apply andb_true_iff in H. destruct H as [_ H]. auto.
Qed.

(** ** Claims about the escaper and the segmenter *)

(** C1 (defect in the code): inside a matched math span the two last
    replacements of [mathSeg] put the same character back, so a literal
    less-than or greater-than sign of a math span reaches the output as it
    is, while ampersands and quotes are left unchanged as stated. *)
Theorem C1_math_angle_brackets_not_escaped :
  processLatexForDisplay (Some (js "$a<b>c$")) = Some (js "$a<b>c$")
  /\ mathSeg (js "$a<b>c$") = js "$a<b>c$"
  /\ processLatexForDisplay (Some (js "\(x & 'y'\)")) = Some (js "\(x & 'y'\)").
Proof. repeat split; vm_compute; reflexivity. Qed.

(** C4 as stated does not hold: unescaping the concatenated output also
    rewrites entity text that stands inside a math span.  The math span
    below has no [\hspace], so no repair applies to it. *)
Lemma C4_unescape_whole_output_counterexample :
  segment (js "$&amp;$") = Some (js "$&amp;$")
  /\ mathSeg (js "$&amp;$") = js "$&amp;$"
  /\ unescapeHTML (js "$&amp;$") = js "$&$"
  /\ unescapeHTML (js "$&amp;$") <> js "$&amp;$".
Proof. repeat split; try (vm_compute; reflexivity). vm_compute. discriminate. Qed.

(** C4 (amended): the spans seen by the segmenter partition its input; the
    output is the concatenation, in order, of the escaped plain spans and
    the repaired math spans; undoing the escaping on the escaped plain
    segments, and taking each math span before its repairs, gives the input
    back. *)
Theorem C4_segments_reconstruct_input : forall s,
  exists spans,
    segment s = Some (concat (map render spans)) /\
    concat (map undo_span spans) = s /\
    concat (map span_text spans) = s.
Proof.
  intros s. destruct (segment_spans s) as (spans & E & Ok & Sg & _).
  exists spans. split; [exact Sg|]. split; [|symmetry; exact E].
  transitivity (concat (map span_text spans)); [|symmetry; exact E].
  f_equal. apply map_ext. intros [t|t]; simpl; auto.
  apply unescape_escape_local.
Qed.

(** C5 as stated does not hold: the entities themselves begin with an
    ampersand. *)
Lemma C5_output_contains_ampersand_counterexample :
  escapeHTML (js "<") = js "&lt;" /\ In 38%N (escapeHTML (js "<")).
Proof. split; [reflexivity|]. vm_compute. auto. Qed.

(** C5 (amended): [escapeHTML] (the global function and the local one
    alike) replaces each of the five characters by its entity and keeps
    every other character; its output has no less-than, greater-than,
    double-quote or single-quote character, every ampersand of the output
    begins one of the five entities, the inverse substitution gives the
    input back, and the length does not decrease. *)
Theorem C5_escapeHTML_properties : forall s,
  escapeHTML s = flat_map esc_char s
  /\ escapeHTML_local s = escapeHTML s
  /\ Forall (fun c => is_markup_char c = false) (escapeHTML s)
  /\ (forall pre post, escapeHTML s = pre ++ 38%N :: post ->
        exists e tl, In e entity_tails /\ post = e ++ tl)
  /\ unescapeHTML (escapeHTML s) = s
  /\ length s <= length (escapeHTML s).
Proof.
  intros s. rewrite escapeHTML_local_chars, escapeHTML_chars.
  repeat split.
  - apply flat_map_esc_no_markup.
  - intros pre post E. apply amp_ok_split with (pre := pre).
    rewrite <- E. apply amp_ok_escaped.
  - rewrite <- escapeHTML_chars. apply unescape_escape.
  - apply flat_map_esc_length.
Qed.

Lemma C5_escapeHTML_properties_witness :
  escapeHTML (js "a<b") = js "a" ++ 38%N :: js "lt;b" /\
  exists e tl, In e entity_tails /\ js "lt;b" = e ++ tl.
Proof.
  split; [reflexivity|].
  apply (proj1 (proj2 (proj2 (proj2 (C5_escapeHTML_properties (js "a<b")))))
           (js "a") (js "lt;b")).
  reflexivity.
Defined.

(** C7: the equation environment of the example is rewritten to
    [\[E=mc^2\]], the label leaving no residue; the delimiter pattern then
    matches this string from its first to its last character, and the output
    is the same string, none of its characters escaped. *)
Theorem C7_equation_example :
  normalize (js "\begin{equation}E=mc^2\label{eq:1}\end{equation}")
    = js "\[E=mc^2\]"
  /\ (exists cs, exec re_math (js "\[E=mc^2\]") 0
                 = Some (0, length (js "\[E=mc^2\]"), cs))
  /\ segment (js "\[E=mc^2\]") = Some (render (Math (js "\[E=mc^2\]")))
  /\ render (Math (js "\[E=mc^2\]")) = js "\[E=mc^2\]"
  /\ processLatexForDisplay
       (Some (js "\begin{equation}E=mc^2\label{eq:1}\end{equation}"))
     = Some (js "\[E=mc^2\]").
Proof.
  split; [vm_compute; reflexivity|].
  split; [eexists; vm_compute; reflexivity|].
  repeat split; vm_compute; reflexivity.
Qed.

(** ** formatConfidence *)


(** ** Conversions of the values of the data *)

Lemma value_ind' (P : value -> Prop) :
  P VUndefined -> P VNull -> (forall b, P (VBool b)) ->
  (forall x, P (VNum x)) -> (forall s, P (VStr s)) ->
  (forall l, Forall P l -> P (VArr l)) ->
  (forall fs, P (VObj fs)) ->
  forall v, P v.
Proof.
  intros H1 H2 H3 H4 H5 H6 H7.
  fix IH 1. intros [| |b|x|s|l|fs].
  - exact H1.
  - exact H2.
  - apply H3.
  - apply H4.
  - apply H5.
  - apply H6. induction l as [|e l' IHl]; constructor.
    + apply IH.
    + exact IHl.
  - apply H7.
Qed.

Lemma collect_not_diverge (A : Type) (l : list (outcome A)) :
  Forall (fun o => o <> Diverge) l -> collect l <> Diverge.
Proof.
  induction 1 as [|o l' Ho _ IH]; cbn [collect]; [discriminate|].
  destruct o as [a| |]; cbn [bind]; [|discriminate|congruence].
  destruct (collect l'); cbn [bind]; [discriminate|discriminate|congruence].
Qed.

Lemma to_string_not_diverge v : to_string v <> Diverge.
Proof.
  induction v as [| |b|x|s|l IH|fs] using value_ind'; cbn [to_string];
    try discriminate.
  - assert (C : collect (map (fun e => match e with
                                       | VUndefined | VNull => Ret []
                                       | _ => to_string e
                                       end) l) <> Diverge).
    { apply collect_not_diverge. apply Forall_map.
      eapply Forall_impl; [|exact IH]. intros e He.
      destruct e; try exact He; discriminate. }
    destruct (collect _); cbn [bind]; [discriminate|discriminate|congruence].
  - destruct (lookup_field (js "toString") fs); discriminate.
Qed.







Lemma jstr_eqb_eq : forall a b, jstr_eqb a b = true <-> a = b.
Proof.
  induction a as [|x a IH]; intros [|y b]; cbn [jstr_eqb];
    try (split; [discriminate|discriminate]); [tauto|].
  rewrite andb_true_iff, N.eqb_eq, IH. split.
  - intros [-> ->]. reflexivity.
  - intros H. inversion H. auto.
Qed.






(** ** parseCandidates *)

Lemma try_catch_not_throw {A : Type} (body handler : outcome A) :
  handler <> Throw -> try_catch body handler <> Throw.
Proof. destruct body; simpl; auto; discriminate. Qed.

Lemma parseCandidates_never_throws (R : Type) (run : jstr -> outcome R) raw :
  parseCandidates run raw <> Throw.
Proof.
  unfold parseCandidates.
  destruct raw; try discriminate;
    match goal with
    | |- context [match ?t with [] => _ | _ :: _ => _ end] =>
        destruct t; try discriminate
    end.
  all: repeat apply try_catch_not_throw; discriminate.
Qed.

Lemma rep_greedy_all (p : N -> bool) text : forall st k,
  forallb p text = true -> rest st = text ->
  (forall st', rest st' = [] -> exists r, k st' = Some r) ->
  exists r, rep false p 0 text st k = Some r.
Proof.
  induction text as [|c tl IH]; intros st k Hall Hrest Hk.
  - simpl. apply Hk. exact Hrest.
  - simpl in Hall. apply andb_true_iff in Hall. destruct Hall as [Hc Htl].
    destruct (IH (advance st c tl) k Htl eq_refl Hk) as (r & Hr).
    exists r. simpl. rewrite Hc. simpl in Hr. rewrite Hr. reflexivity.
Qed.

Lemma guard_accepts text :
  forallb guard_char text = true -> test re_guard text = true.
Proof.
  intros H. unfold test.
  assert (M : exists r, match_at re_guard None text 0 = Some r).
  { unfold match_at, re_guard. cbn [seq fold_right rmatch pos rest].
    apply rep_greedy_all; auto.
    intros st' E. cbn [rmatch]. rewrite E. eauto. }
  destruct M as (r & M).
  destruct text; cbn [search]; rewrite M; reflexivity.
Qed.

Lemma letter_or_paren_guard c : letter_or_paren c = true -> guard_char c = true.
Proof.
  unfold letter_or_paren, is_ascii_letter, guard_char.
  intros H.
  repeat (apply orb_true_iff in H; destruct H as [H|H]);
    rewrite H; repeat rewrite orb_true_r; reflexivity.
Qed.

Lemma forallb_impl (p q : N -> bool) (l : jstr) :
  (forall c, p c = true -> q c = true) ->
  forallb p l = true -> forallb q l = true.
Proof.
  intros I. induction l as [|c l IH]; simpl; auto.
  rewrite !andb_true_iff. intros [A B]. auto.
Qed.

(** C6: parseCandidates never throws, whatever the engine does with the
    evaluated text; an array is returned as it is, [null] and [undefined]
    give the empty array, and so does a string for which both parses throw
    and the guarded evaluation is refused or throws.  The examples evaluate
    as stated. *)
Theorem C6_parseCandidates_never_throws :
  forall (R : Type) (run : jstr -> outcome R),
    (forall raw, parseCandidates run raw <> Throw)
    /\ (forall l, parseCandidates run (VArr l) = Ret (Data (VArr l)))
    /\ parseCandidates run VNull = Ret (Data (VArr []))
    /\ parseCandidates run VUndefined = Ret (Data (VArr []))
    /\ (forall s,
          JSON_parse (trim s) = Throw ->
          JSON_parse (lenient_rewrite (trim s)) = Throw ->
          test re_guard (trim s) = false
          \/ run (function_source (trim s)) = Throw ->
          parseCandidates run (VStr s) = Ret (Data (VArr [])))
    /\ parseCandidates run (VStr (js "[]")) = Ret (Data (VArr []))
    /\ parseCandidates run (VStr (js "[{'title': 'Foo', 'confidence': 0.5}]"))
       = Ret (Data (VArr [VObj [(js "title", VStr (js "Foo"));
                                (js "confidence",
                                 VNum (decimal_to_float false 5 (-1)))]])).
Proof.
  intros R run. split; [apply parseCandidates_never_throws|].
  split; [reflexivity|]. split; [reflexivity|]. split; [reflexivity|].
  split.
  - intros s J1 J2 G. unfold parseCandidates.
    destruct (trim s) as [|c t] eqn:T; [reflexivity|].
    rewrite J1, J2. cbn [lift_data try_catch].
    destruct G as [G|G]; rewrite G.
    + reflexivity.
    + destruct (test re_guard (c :: t)); reflexivity.
  - split; vm_compute; reflexivity.
Qed.

Lemma C6_parseCandidates_never_throws_witness :
  JSON_parse (trim (js "{oops")) = Throw /\
  JSON_parse (lenient_rewrite (trim (js "{oops"))) = Throw /\
  parseCandidates (fun _ : jstr => @Throw unit) (VStr (js "{oops"))
    = Ret (Data (VArr [])).
Proof.
  split; [reflexivity|]. split; [reflexivity|].
  apply (proj1 (proj2 (proj2 (proj2 (proj2
           (C6_parseCandidates_never_throws (fun _ : jstr => @Throw unit))))))
         (js "{oops")).
  - reflexivity.
  - reflexivity.
  - right. reflexivity.
Defined.

(** C10: the allow-list accepts every text made of ASCII letters and
    parentheses.  For [alert(1)] both parses throw and the guard accepts,
    so the text is wrapped into a function body and handed to the engine,
    and whatever the engine's call returns is the result. *)
Theorem C10_guard_admits_call_expressions :
  forall (R : Type) (run : jstr -> outcome R),
    (forall text, forallb letter_or_paren text = true ->
                  test re_guard text = true)
    /\ JSON_parse (js "alert(1)") = Throw
    /\ JSON_parse (lenient_rewrite (js "alert(1)")) = Throw
    /\ test re_guard (js "alert(1)") = true
    /\ function_source (js "alert(1)")
       = [34%N] ++ js "use strict" ++ [34%N] ++ js ";return (alert(1))"
    /\ parseCandidates run (VStr (js "alert(1)"))
       = try_catch (lift_eval (run (function_source (js "alert(1)"))))
                   (Ret (Data (VArr [])))
    /\ (forall r, run (function_source (js "alert(1)")) = Ret r ->
                  parseCandidates run (VStr (js "alert(1)"))
                  = Ret (Evaluated r)).
Proof.
  intros R run.
  assert (P : parseCandidates run (VStr (js "alert(1)"))
              = try_catch (lift_eval (run (function_source (js "alert(1)"))))
                          (Ret (Data (VArr [])))).
  { vm_compute. reflexivity. }
  split.
  { intros text H. apply guard_accepts.
    eapply forallb_impl; [apply letter_or_paren_guard|exact H]. }
  split; [vm_compute; reflexivity|]. split; [vm_compute; reflexivity|].
  split; [vm_compute; reflexivity|]. split; [vm_compute; reflexivity|].
  split; [exact P|].
  intros r Hr. rewrite P, Hr. reflexivity.
Qed.

Lemma C10_guard_admits_call_expressions_witness :
  forallb letter_or_paren (js "fetch(x)") = true /\
  test re_guard (js "fetch(x)") = true.
Proof.
  split; [reflexivity|].
  apply (proj1 (C10_guard_admits_call_expressions (fun _ : jstr => @Throw unit))
           (js "fetch(x)")).
  reflexivity.
Defined.

(** ** The stateful matcher and the matcher on the remaining text *)

Lemma option_map_orelse {A B : Type} (f : A -> B) (a b : option A) :
  option_map f (match a with Some r => Some r | None => b end) =
  match option_map f a with Some r => Some r | None => option_map f b end.
Proof. destruct a; reflexivity. Qed.

Lemma krel_Some : krel Some Some.
Proof. intros st. reflexivity. Qed.

Lemma rep_sim lz p s : forall min st k kr,
  krel k kr -> rest st = s ->
  option_map rest (rep lz p min s st k) = rep_rest lz p min s kr.
Proof.
  induction s as [|c tl IH]; intros min st k kr K E.
  - simpl. destruct min; [|reflexivity].
    rewrite <- E, <- (K st). destruct lz; destruct (k st); reflexivity.
  - cbn [rep rep_rest].
    assert (M : option_map rest
                  (if p c then rep lz p (Nat.pred min) tl (advance st c tl) k
                   else None)
                = (if p c then rep_rest lz p (Nat.pred min) tl kr else None)).
    { destruct (p c); [|reflexivity]. apply IH; auto. }
    destruct min; [|exact M].
    destruct lz; rewrite option_map_orelse, M, (K st), E; reflexivity.
Qed.

Lemma rmatch_sim r : forall st k kr,
  position_free r = true -> krel k kr ->
  option_map rest (rmatch r st k) = rmatch_rest r (rest st) kr.
Proof.
  induction r; intros st k kr PF K; simpl in PF; try discriminate;
    cbn [rmatch rmatch_rest].
  - apply K.
  - destruct (rest st) as [|x tl] eqn:E; [reflexivity|].
    destruct (N.eqb x c); [|reflexivity]. apply (K (advance st x tl)).
  - destruct (rest st) as [|x tl] eqn:E; [reflexivity|].
    destruct (p x); [|reflexivity]. apply (K (advance st x tl)).
  - apply andb_true_iff in PF. destruct PF as [P1 P2].
    apply IHr1; auto. intros st'. apply IHr2; auto.
  - apply andb_true_iff in PF. destruct PF as [P1 P2].
    rewrite option_map_orelse, (IHr1 st k kr), (IHr2 st k kr); auto.
  - rewrite option_map_orelse, (IHr st k kr), (K st); auto.
  - apply rep_sim; auto.
  - apply IHr; auto. intros st'. apply (K (set_cap _ _ st')).
  - pose proof (IHr st Some Some PF krel_Some) as A.
    destruct (rmatch r st Some) as [st'|]; simpl in A; rewrite <- A.
    + apply (K (with_caps st st')).
    + reflexivity.
  - pose proof (IHr st Some Some PF krel_Some) as A.
    destruct (rmatch r st Some) as [st'|]; simpl in A; rewrite <- A.
    + reflexivity.
    + apply K.
  - destruct (rest st) eqn:E; [|reflexivity]. rewrite <- E. apply K.
Qed.

Lemma match_at_rest r pv s n :
  position_free r = true ->
  option_map rest (match_at r pv s n) = rmatch_rest r s Some.
Proof.
  intros PF. unfold match_at.
  apply (rmatch_sim r (MState pv s n []) PF krel_Some).
Qed.

Lemma rmatch_rest_lit w : forall s k,
  rmatch_rest (lit w) s k =
  match strip_prefix w s with Some tl => k tl | None => None end.
Proof.
  induction w as [|c w IH]; intros s k; simpl; [reflexivity|].
  destruct s as [|x tl]; [reflexivity|].
  destruct (N.eqb x c); [apply IH|reflexivity].
Qed.

(** A greedy star whose continuation refuses the characters of the class
    reads the longest run and does not come back. *)
Lemma rep_rest_greedy p k s :
  (forall c tl, p c = true -> k (c :: tl) = None) ->
  rep_rest false p 0 s k = k (drop_while p s).
Proof.
  intros Hk. induction s as [|c tl IH]; [reflexivity|].
  cbn [rep_rest drop_while Nat.pred]. destruct (p c) eqn:Pc.
  - rewrite IH. destruct (k (drop_while p tl)); [reflexivity|].
    apply Hk. exact Pc.
  - reflexivity.
Qed.

Lemma is_space_not_brace c : is_space c = true -> N.eqb c 123 = false.
Proof.
  intros H. destruct (N.eqb_spec c 123); [subst; discriminate|reflexivity].
Qed.

Lemma is_space_not_close c : is_space c = true -> N.eqb c 125 = false.
Proof.
  intros H. destruct (N.eqb_spec c 125); [subst; discriminate|reflexivity].
Qed.

Lemma empty_hspace_direct s :
  rmatch_rest re_hspace_empty s Some = empty_hspace_at s.
Proof.
  unfold re_hspace_empty, empty_hspace_at.
  cbn [seq fold_right]. cbn [rmatch_rest]. rewrite rmatch_rest_lit.
  destruct (strip_prefix (js "\hspace") s) as [s1|]; [|reflexivity].
  rewrite rep_rest_greedy.
  - destruct (drop_while is_space s1) as [|x s2]; [reflexivity|].
    destruct (N.eqb x (ch "{")); [|reflexivity].
    rewrite rep_rest_greedy.
    + destruct (drop_while is_space s2) as [|y s3]; reflexivity.
    + intros c tl Hc. change (ch "}") with 125%N.
      rewrite (is_space_not_close _ Hc). reflexivity.
  - intros c tl Hc. change (ch "{") with 123%N.
    rewrite (is_space_not_brace _ Hc). reflexivity.
Qed.

Lemma group_follows_direct s :
  match rmatch_rest
          (seq [Rep false 0 is_space; Chr (ch "{");
                Rep false 1 (not_char (ch "}")); Chr (ch "}")]) s Some with
  | Some _ => true
  | None => false
  end = group_follows s.
Proof.
  unfold group_follows. cbn [seq fold_right]. cbn [rmatch_rest].
  rewrite rep_rest_greedy.
  - destruct (drop_while is_space s) as [|x s1]; [reflexivity|].
    destruct (N.eqb x (ch "{")); [|destruct s1; reflexivity].
    destruct s1 as [|c s2]; [reflexivity|].
    cbn [rep_rest Nat.pred andb].
    destruct (not_char (ch "}") c); [|reflexivity].
    rewrite rep_rest_greedy.
    + destruct (drop_while (not_char (ch "}")) s2) as [|y s3]; [reflexivity|].
      destruct (N.eqb y (ch "}")); reflexivity.
    + intros c' tl Hc. unfold not_char in Hc.
      destruct (N.eqb c' (ch "}")); [discriminate|reflexivity].
  - intros c tl Hc. change (ch "{") with 123%N.
    rewrite (is_space_not_brace _ Hc). reflexivity.
Qed.

Lemma bare_hspace_direct s :
  rmatch_rest re_hspace_bare s Some = bare_hspace_at s.
Proof.
  unfold re_hspace_bare, bare_hspace_at.
  cbn [seq fold_right]. cbn [rmatch_rest]. rewrite rmatch_rest_lit.
  destruct (strip_prefix (js "\hspace") s) as [s1|]; [|reflexivity].
  pose proof (group_follows_direct s1) as G.
  cbn [seq fold_right] in G. cbn [rmatch_rest] in G.
  rewrite <- G.
  match goal with
  | |- match ?x with _ => _ end = _ => destruct x; reflexivity
  end.
Qed.

Lemma sentinel_direct s : rmatch_rest (lit SENTINEL) s Some = sentinel_at s.
Proof.
  rewrite rmatch_rest_lit. unfold sentinel_at.
  destruct (strip_prefix SENTINEL s); reflexivity.
Qed.

(** A global replacement by a constant is the one-pass rewriting with the
    recogniser that the regex amounts to. *)
Lemma replace_const_rewrite r w at_ :
  1 <= min_len r ->
  (forall pv s n, option_map rest (match_at r pv s n) = at_ s) ->
  forall s pv n skip,
    replace_from r (fun _ _ => w) pv s n skip = rewrite_with at_ w s skip.
Proof.
  intros Hmin Hat. induction s as [|c tl IH]; intros pv n skip.
  - destruct skip; [|reflexivity]. cbn [replace_from rewrite_with].
    destruct (match_at r pv [] n) as [st'|] eqn:M; [|reflexivity].
    apply match_at_spec in M. destruct M as (w0 & E & _ & L).
    destruct w0; [simpl in L; lia|discriminate].
  - destruct skip as [|k]; [|cbn [replace_from rewrite_with]; apply IH].
    cbn [replace_from rewrite_with].
    pose proof (Hat pv (c :: tl) n) as A.
    destruct (match_at r pv (c :: tl) n) as [st'|] eqn:M; simpl in A;
      rewrite <- A.
    + apply match_at_spec in M. destruct M as (w0 & E & P & L).
      f_equal. rewrite P.
      replace (n + length w0 - n) with (length w0) by lia.
      destruct w0 as [|c0 w0]; [simpl in L; lia|].
      simpl in E. inversion E; subst. cbn [length].
      rewrite IH. f_equal. rewrite length_app. lia.
    + f_equal. apply IH.
Qed.

Lemma mathSeg_angle_id c s : forall pv n,
  replace_from (Chr c) (fun _ _ => [c]) pv s n 0 = s.
Proof.
  induction s as [|x tl IH]; intros pv n; [reflexivity|].
  destruct (N.eqb x c) eqn:E.
  - apply N.eqb_eq in E. subst x. change (c :: tl) with ([c] ++ tl).
    rewrite (@replace_from_match (Chr c) _ pv n [c] tl
               (advance (MState pv (c :: tl) n []) c tl)).
    + simpl. rewrite IH. reflexivity.
    + unfold match_at. simpl. rewrite N.eqb_refl. reflexivity.
    + simpl. lia.
    + discriminate.
  - rewrite replace_from_nomatch.
    + rewrite IH. reflexivity.
    + unfold match_at. simpl. rewrite E. reflexivity.
Qed.

(** The math segment of the source is the repair read off the text. *)
Lemma mathSeg_repair_spec m0 : mathSeg m0 = repair_spec m0.
Proof.
  unfold mathSeg, repair_spec, replace_const, replace_all.
  change (js ">") with [ch ">"]. change (js "<") with [ch "<"].
  rewrite !mathSeg_angle_id.
  rewrite (@replace_const_rewrite re_hspace_empty (js "\,") empty_hspace_at).
  - rewrite (@replace_const_rewrite re_hspace_bare (js "\,") bare_hspace_at).
    + reflexivity.
    + simpl. lia.
    + intros pv s n. rewrite match_at_rest by reflexivity.
      apply bare_hspace_direct.
  - simpl. lia.
  - intros pv s n. rewrite match_at_rest by reflexivity.
    apply empty_hspace_direct.
Qed.

Lemma restore_br_rewrite s :
  restore_br s = rewrite_with sentinel_at (js "<br>") s 0.
Proof.
  unfold restore_br, replace_const, replace_all.
  apply replace_const_rewrite.
  - simpl. lia.
  - intros pv s' n.
    rewrite match_at_rest.
    + apply sentinel_direct.
    + reflexivity.
Qed.

(** ** A math span without [\hspace] is left as it is *)

Lemma rewrite_with_none at_ w s :
  (forall x, at_ x <> None -> strip_prefix (js "\hspace") x <> None) ->
  occurs (js "\hspace") s = false ->
  rewrite_with at_ w s 0 = s.
Proof.
  intros Hat. induction s as [|c tl IH]; intros Ho; [reflexivity|].
  cbn [rewrite_with]. cbn [occurs] in Ho.
  destruct (strip_prefix (js "\hspace") (c :: tl)) eqn:SP; [discriminate|].
  destruct (at_ (c :: tl)) eqn:A.
  - exfalso. apply (Hat (c :: tl)); congruence.
  - f_equal. apply IH. exact Ho.
Qed.

Lemma repair_spec_intact s :
  occurs (js "\hspace") s = false -> repair_spec s = s.
Proof.
  intros Ho. unfold repair_spec.
  rewrite (@rewrite_with_none empty_hspace_at (js "\,") s); auto.
  - apply rewrite_with_none; auto.
    intros x. unfold bare_hspace_at.
    destruct (strip_prefix (js "\hspace") x); [intros _; discriminate|auto].
  - intros x. unfold empty_hspace_at.
    destruct (strip_prefix (js "\hspace") x); [intros _; discriminate|auto].
Qed.

(** ** Rewriting and concatenation *)

Lemma is_suffix_tail c (tl x a : jstr) :
  is_suffix x tl -> a = c :: tl -> is_suffix x a.
Proof. intros (p & ->) ->. exists (c :: p). reflexivity. Qed.

Lemma rewrite_with_app at_ w b a : forall skip,
  (forall x, x <> [] -> is_suffix x a ->
             at_ (x ++ b) = option_map (fun r => r ++ b) (at_ x)) ->
  skip <= length a ->
  rewrite_with at_ w (a ++ b) skip =
  rewrite_with at_ w a skip ++ rewrite_with at_ w b 0.
Proof.
  induction a as [|c tl IH]; intros skip H L.
  - simpl in L. replace skip with 0 by lia. reflexivity.
  - assert (Htl : forall x, x <> [] -> is_suffix x tl ->
                    at_ (x ++ b) = option_map (fun r => r ++ b) (at_ x)).
    { intros x Nx Sx. apply H; auto. eapply is_suffix_tail; eauto. }
    destruct skip as [|k].
    + change ((c :: tl) ++ b) with (c :: tl ++ b).
      cbn [rewrite_with].
      change (c :: tl ++ b) with ((c :: tl) ++ b).
      rewrite (H (c :: tl)); [|discriminate|exists []; reflexivity].
      destruct (at_ (c :: tl)) as [r|]; cbn [option_map].
      * rewrite IH; auto.
        -- rewrite !length_app, <- app_assoc. f_equal. f_equal. f_equal. lia.
        -- rewrite !length_app. lia.
      * rewrite IH; auto. lia.
    + simpl. simpl in L. apply IH; auto. lia.
Qed.

Lemma strip_prefix_app_end p l : forall x,
  Forall (fun c => c <> l) p ->
  strip_prefix p (x ++ [l]) = option_map (fun r => r ++ [l]) (strip_prefix p x).
Proof.
  induction p as [|c p IH]; intros x Hp; [reflexivity|].
  inversion Hp; subst. destruct x as [|y x]; simpl.
  - destruct (N.eqb_spec l c); [congruence|reflexivity].
  - destruct (N.eqb y c); auto.
Qed.

(** A pattern none of whose characters is the first character of [b] does
    not run from [x] into [b]. *)
Lemma strip_prefix_app_head p h b : forall x,
  p <> [] -> Forall (fun c => c <> h) p ->
  strip_prefix p (x ++ h :: b)
  = option_map (fun r => r ++ h :: b) (strip_prefix p x).
Proof.
  induction p as [|c p IH]; intros x Np Hp; [congruence|].
  inversion Hp; subst. destruct x as [|y x]; simpl.
  - destruct (N.eqb_spec h c); [congruence|reflexivity].
  - destruct (N.eqb y c); [|reflexivity].
    destruct p as [|c' p']; [reflexivity|].
    apply IH; [discriminate|auto].
Qed.

(** A pattern none of whose characters is the last character of [x] does
    not run from [x] into [b]. *)
Lemma strip_prefix_app_last p l b : forall x,
  Forall (fun c => c <> l) p ->
  strip_prefix p ((x ++ [l]) ++ b)
  = option_map (fun r => r ++ b) (strip_prefix p (x ++ [l])).
Proof.
  induction p as [|c p IH]; intros x Hp; [reflexivity|].
  inversion Hp; subst. destruct x as [|y x]; simpl.
  - destruct (N.eqb_spec l c); [congruence|reflexivity].
  - destruct (N.eqb y c); auto.
Qed.

Lemma not_in_sentinel_Forall c :
  in_sentinel c = false -> Forall (fun x => x <> c) SENTINEL.
Proof.
  unfold in_sentinel. intros H. apply Forall_forall. intros x Hx E. subst x.
  assert (T : existsb (N.eqb c) SENTINEL = true).
  { apply existsb_exists. exists c. split; [exact Hx|apply N.eqb_refl]. }
  congruence.
Qed.

Lemma suffix_of_snoc (x a : jstr) l :
  x <> [] -> is_suffix x (a ++ [l]) -> exists x', x = x' ++ [l].
Proof.
  intros Nx (p & E). destruct (exists_last Nx) as (x' & l' & ->).
  exists x'. rewrite app_assoc in E. apply app_inj_tail in E.
  destruct E as [_ ->]. reflexivity.
Qed.

Lemma restore_app_head a h b :
  in_sentinel h = false ->
  restore_br (a ++ h :: b) = restore_br a ++ restore_br (h :: b).
Proof.
  intros Hh. rewrite !restore_br_rewrite. apply rewrite_with_app; [|lia].
  intros x _ _. unfold sentinel_at. apply strip_prefix_app_head.
  - discriminate.
  - apply not_in_sentinel_Forall, Hh.
Qed.

Lemma restore_app_last a l b :
  in_sentinel l = false ->
  restore_br ((a ++ [l]) ++ b) = restore_br (a ++ [l]) ++ restore_br b.
Proof.
  intros Hl. rewrite !restore_br_rewrite. apply rewrite_with_app; [|lia].
  intros x Nx Sx. destruct (@suffix_of_snoc x a l Nx Sx) as (x' & ->).
  unfold sentinel_at. apply strip_prefix_app_last.
  apply not_in_sentinel_Forall, Hl.
Qed.

Lemma restore_br_only u : forall skip,
  Forall (fun c => is_markup_char c = false) u ->
  br_only (rewrite_with sentinel_at (js "<br>") u skip).
Proof.
  induction u as [|c tl IH]; intros skip H.
  - destruct skip; constructor.
  - inversion H; subst. destruct skip as [|k]; [|simpl; auto].
    cbn [rewrite_with]. destruct (sentinel_at (c :: tl)).
    + apply br_only_br. auto.
    + unfold is_markup_char in H2.
      rewrite !orb_false_iff, !N.eqb_neq in H2.
      apply br_only_char; [tauto|tauto|auto].
Qed.

(** ** The outline of a math segment survives the repairs *)

Lemma closer_cases l :
  is_closer l = true -> l = ch ")" \/ l = ch "]" \/ l = ch "$".
Proof.
  unfold is_closer. rewrite !orb_true_iff, !N.eqb_eq. tauto.
Qed.

Lemma drop_while_app_end p l : forall x,
  p l = false -> drop_while p (x ++ [l]) = drop_while p x ++ [l].
Proof.
  intros x Hl. induction x as [|c x IH]; simpl.
  - rewrite Hl. reflexivity.
  - destruct (p c); auto.
Qed.

Lemma closer_not_in_hspace l :
  is_closer l = true -> Forall (fun c => c <> l) (js "\hspace").
Proof.
  intros H. apply closer_cases in H.
  destruct H as [-> | [-> | ->]]; repeat constructor; discriminate.
Qed.

Lemma closer_not_space l : is_closer l = true -> is_space l = false.
Proof.
  intros H. apply closer_cases in H.
  destruct H as [-> | [-> | ->]]; reflexivity.
Qed.

Lemma closer_not_brace l :
  is_closer l = true ->
  N.eqb l (ch "{") = false /\ N.eqb l (ch "}") = false.
Proof.
  intros H. apply closer_cases in H.
  destruct H as [-> | [-> | ->]]; split; reflexivity.
Qed.

Lemma empty_hspace_app_end l x :
  is_closer l = true ->
  empty_hspace_at (x ++ [l])
  = option_map (fun r => r ++ [l]) (empty_hspace_at x).
Proof.
  intros Hl. unfold empty_hspace_at.
  rewrite strip_prefix_app_end by (apply closer_not_in_hspace; auto).
  destruct (strip_prefix (js "\hspace") x) as [s1|]; [|reflexivity].
  cbn [option_map].
  rewrite drop_while_app_end by (apply closer_not_space; auto).
  destruct (closer_not_brace _ Hl) as [B1 B2].
  destruct (drop_while is_space s1) as [|x0 s2]; cbn [app].
  - rewrite B1. reflexivity.
  - destruct (N.eqb x0 (ch "{")); [|reflexivity].
    rewrite drop_while_app_end by (apply closer_not_space; auto).
    destruct (drop_while is_space s2) as [|y s3]; cbn [app].
    + rewrite B2. reflexivity.
    + destruct (N.eqb y (ch "}")); reflexivity.
Qed.

Lemma closing_brace_app_end l s :
  N.eqb l (ch "}") = false ->
  match drop_while (not_char (ch "}")) (s ++ [l]) with
  | y :: _ => N.eqb y (ch "}")
  | [] => false
  end
  = match drop_while (not_char (ch "}")) s with
    | y :: _ => N.eqb y (ch "}")
    | [] => false
    end.
Proof.
  intros Hl. induction s as [|c s IH]; cbn [app drop_while].
  - unfold not_char. rewrite Hl. reflexivity.
  - destruct (not_char (ch "}") c); [exact IH|reflexivity].
Qed.

Lemma group_follows_app_end l s :
  is_closer l = true -> group_follows (s ++ [l]) = group_follows s.
Proof.
  intros Hl. unfold group_follows.
  rewrite drop_while_app_end by (apply closer_not_space; auto).
  destruct (closer_not_brace _ Hl) as [B1 B2].
  destruct (drop_while is_space s) as [|x [|c s2]]; cbn [app drop_while].
  - reflexivity.
  - rewrite andb_false_r. reflexivity.
  - rewrite closing_brace_app_end by auto. reflexivity.
Qed.

Lemma bare_hspace_app_end l x :
  is_closer l = true ->
  bare_hspace_at (x ++ [l])
  = option_map (fun r => r ++ [l]) (bare_hspace_at x).
Proof.
  intros Hl. unfold bare_hspace_at.
  rewrite strip_prefix_app_end by (apply closer_not_in_hspace; auto).
  destruct (strip_prefix (js "\hspace") x) as [s1|]; [|reflexivity].
  cbn [option_map]. rewrite group_follows_app_end by auto.
  destruct (group_follows s1); reflexivity.
Qed.

Lemma rewrite_keeps_last at_ w l y :
  (forall x, at_ (x ++ [l]) = option_map (fun r => r ++ [l]) (at_ x)) ->
  at_ [] = None ->
  rewrite_with at_ w (y ++ [l]) 0 = rewrite_with at_ w y 0 ++ [l].
Proof.
  intros H E. rewrite rewrite_with_app; [|intros; apply H|lia].
  f_equal. cbn [rewrite_with]. pose proof (H []) as H0. cbn [app] in H0.
  rewrite H0, E. reflexivity.
Qed.

Lemma rewrite_keeps_outline at_ w v :
  (forall l x, is_closer l = true ->
               at_ (x ++ [l]) = option_map (fun r => r ++ [l]) (at_ x)) ->
  (forall x, at_ x <> None -> strip_prefix (js "\hspace") x <> None) ->
  math_outline v -> math_outline (rewrite_with at_ w v 0).
Proof.
  intros Happ Hpre O.
  assert (E : at_ [] = None).
  { destruct (at_ []) eqn:A; auto. exfalso. apply (Hpre []); [congruence|reflexivity]. }
  assert (No : forall x, strip_prefix (js "\hspace") x = None -> at_ x = None).
  { intros x Sx. destruct (at_ x) eqn:A; auto.
    exfalso. apply (Hpre x); congruence. }
  destruct O as [(y & l & -> & Hl) | (c & y & l & -> & Hc & Hl)].
  - left. exists (rewrite_with at_ w y 0), l. split; auto.
    cbn [rewrite_with]. rewrite No by reflexivity.
    rewrite rewrite_keeps_last; auto.
  - right. exists c, (rewrite_with at_ w y 0), l. split; auto.
    cbn [rewrite_with].
    rewrite (No (ch "\" :: c :: y ++ [l]))
      by (destruct Hc as [-> | ->]; reflexivity).
    rewrite (No (c :: y ++ [l]))
      by (destruct Hc as [-> | ->]; reflexivity).
    rewrite rewrite_keeps_last; auto.
Qed.

Lemma delimited_inv op cl t :
  delimited op cl t = true -> exists mid, t = op ++ mid ++ cl.
Proof.
  unfold delimited. intros H.
  destruct (strip_prefix op t) as [body|] eqn:S1; [|discriminate].
  destruct (strip_prefix (rev cl) (rev body)) as [x|] eqn:S2; [|discriminate].
  apply strip_prefix_app in S1. apply strip_prefix_app in S2.
  exists (rev x). rewrite S1. f_equal.
  rewrite <- (rev_involutive body), S2, rev_app_distr, rev_involutive.
  reflexivity.
Qed.

Lemma math_text_outline w : is_math_text w = true -> math_outline w.
Proof.
  unfold is_math_text. rewrite !orb_true_iff.
  intros [[[H|H]|H]|H]; apply delimited_inv in H; destruct H as (mid & ->).
  - right. exists (ch "("), (mid ++ [ch "\"]), (ch ")").
    rewrite <- app_assoc. repeat split; auto.
  - right. exists (ch "["), (mid ++ [ch "\"]), (ch "]").
    rewrite <- app_assoc. repeat split; auto.
  - left. exists (ch "$" :: mid ++ [ch "$"]), (ch "$").
    simpl. rewrite <- app_assoc. repeat split; auto.
  - left. exists mid, (ch "$"). repeat split; auto.
Qed.

Lemma mathSeg_outline w : is_math_text w = true -> math_outline (mathSeg w).
Proof.
  intros H. rewrite mathSeg_repair_spec. unfold repair_spec.
  apply rewrite_keeps_outline.
  - intros l x Hl. apply bare_hspace_app_end; auto.
  - intros x. unfold bare_hspace_at.
    destruct (strip_prefix (js "\hspace") x); [intros _; discriminate|auto].
  - apply rewrite_keeps_outline.
    + intros l x Hl. apply empty_hspace_app_end; auto.
    + intros x. unfold empty_hspace_at.
      destruct (strip_prefix (js "\hspace") x); [intros _; discriminate|auto].
    + apply math_text_outline; auto.
Qed.

(** ** Restoring the line breaks, span by span *)

Lemma outline_ends v :
  math_outline v ->
  exists h y l, v = (h :: y) ++ [l]
                /\ in_sentinel h = false /\ in_sentinel l = false.
Proof.
  intros [(y & l & -> & Hl) | (c & y & l & -> & Hc & Hl)];
    apply closer_cases in Hl.
  - exists (ch "$"), y, l. repeat split.
    destruct Hl as [-> | [-> | ->]]; reflexivity.
  - exists (ch "\"), (c :: y), l. repeat split.
    destruct Hl as [-> | [-> | ->]]; reflexivity.
Qed.

Lemma restore_br_nil : restore_br [] = [].
Proof. reflexivity. Qed.

Lemma restore_concat spans :
  alternating spans = true -> Forall span_ok spans ->
  restore_br (concat (map render spans)) = concat (map final_render spans).
Proof.
  induction spans as [|x|x y l IH] using two_step_ind; intros A Ok.
  - reflexivity.
  - simpl. rewrite !app_nil_r. reflexivity.
  - destruct x as [t|t]; [|discriminate]. destruct y as [w|w]; [discriminate|].
    inversion Ok as [|? ? _ Ok1]; subst. inversion Ok1 as [|? ? Hw Ok2]; subst.
    simpl in Hw. simpl in A.
    destruct (outline_ends (mathSeg_outline _ Hw)) as (h & b & e & E & Hh & He).
    cbn [map concat]. unfold final_render at 1 2. cbn [render].
    rewrite <- (IH A Ok2). rewrite E.
    change (((h :: b) ++ [e]) ++ concat (map render l))
      with (h :: (b ++ [e]) ++ concat (map render l)).
    rewrite restore_app_head by exact Hh.
    change (h :: (b ++ [e]) ++ concat (map render l))
      with (((h :: b) ++ [e]) ++ concat (map render l)).
    rewrite restore_app_last by exact He. reflexivity.
Qed.

(** C3 as stated does not hold: below, no [\item] occurs in the raw input,
    yet the output has line-break markup, once for the sentinel string
    written in the input and once for literal tags of the input. *)
Lemma C3_sentinel_collision_counterexample :
  occurs (js "\item") (js "a__BR_SENTINEL__b") = false
  /\ processLatexForDisplay (Some (js "a__BR_SENTINEL__b")) = Some (js "a<br>b")
  /\ occurs (js "\item") (js "x<br>y<br />z") = false
  /\ processLatexForDisplay (Some (js "x<br>y<br />z"))
     = Some (js "x<br>y<br>z").
Proof. repeat split; vm_compute; reflexivity. Qed.

(** C3 (amended): the sentinel is a fixed string that escaping leaves as
    it is.  The output is made span by span, from the spans of the text in
    which every [<br>] tag has been replaced by the sentinel: each span is
    rendered and its sentinels are turned into [<br>].  What a plain span
    contributes has no less-than or greater-than sign other than those of
    such [<br>] tags. *)
Theorem C3_only_br_markup_from_plain_text :
  escapeHTML_local SENTINEL = SENTINEL
  /\ restore_br SENTINEL = js "<br>"
  /\ protect_br (normalize (js "\item x")) = SENTINEL ++ [bullet] ++ js " x"
  /\ forall raw, exists out spans,
       processLatexForDisplay (Some raw) = Some out
       /\ concat (map span_text spans) = protect_br (normalize raw)
       /\ Forall span_ok spans
       /\ out = concat (map final_render spans)
       /\ Forall (fun sp => match sp with
                            | Plain t => br_only (final_render (Plain t))
                            | Math _ => True
                            end) spans.
Proof.
  split; [vm_compute; reflexivity|]. split; [vm_compute; reflexivity|].
  split; [vm_compute; reflexivity|].
  intros raw.
  destruct (segment_spans (protect_br (normalize raw)))
    as (spans & E & Ok & Sg & Al).
  exists (concat (map final_render spans)), spans.
  unfold processLatexForDisplay. rewrite Sg.
  rewrite (restore_concat Al Ok).
  repeat split; auto.
  apply Forall_forall. intros [t|t] _; [|exact I].
  unfold final_render. cbn [render].
  rewrite restore_br_rewrite, escapeHTML_local_chars.
  apply restore_br_only, flat_map_esc_no_markup.
Qed.


(** ** The delimiter pattern, read directly off the text *)

Lemma lazy_any_first cl : forall s,
  rep_rest true any_char 0 s
    (fun s' => rmatch_rest (lit cl) s' (fun s'' => rmatch_rest Eps s'' Some))
  = after_first cl s.
Proof.
  induction s as [|c tl IH]; cbn [rep_rest after_first];
    rewrite rmatch_rest_lit; cbn [rmatch_rest].
  - destruct (strip_prefix cl []); reflexivity.
  - destruct (strip_prefix cl (c :: tl)); [reflexivity|].
    cbn [any_char Nat.pred]. apply IH.
Qed.

Lemma pair_direct op cl s :
  rmatch_rest (seq [lit op; Rep true 0 any_char; lit cl]) s Some
  = pair_at op cl s.
Proof.
  unfold seq, pair_at. cbn [fold_right rmatch_rest].
  rewrite rmatch_rest_lit.
  destruct (strip_prefix op s) as [body|]; [|reflexivity].
  apply lazy_any_first.
Qed.

Lemma math_direct s : rmatch_rest re_math s Some = math_at s.
Proof.
  unfold re_math, math_at. cbn [rmatch_rest].
  rewrite !pair_direct. reflexivity.
Qed.

Lemma match_at_math_direct pv s n :
  option_map rest (match_at re_math pv s n) = math_at s.
Proof. rewrite match_at_rest by reflexivity. apply math_direct. Qed.

Lemma math_at_text s r :
  math_at s = Some r ->
  exists w, s = w ++ r /\ 2 <= length w /\ is_math_text w = true.
Proof.
  intros H. rewrite <- (match_at_math_direct None s 0) in H.
  destruct (match_at re_math None s 0) as [st'|] eqn:M; [|discriminate].
  cbn [option_map] in H. inversion H; subst r.
  destruct (match_at_math_spec _ _ _ M) as (w & E & _ & L & D).
  exists w. auto.
Qed.

Lemma anywhere_suffix at_ s s' :
  anywhere at_ s = false -> is_suffix s' s -> at_ s' = None.
Proof.
  intros H (p & ->). induction p as [|c p IH].
  - destruct s'; simpl in H; destruct (at_ _); congruence.
  - apply IH. cbn [app anywhere] in H.
    destruct (at_ (c :: p ++ s')); [discriminate|exact H].
Qed.

(** ** The loop follows the segmentation *)

(** The search stops at the first position where a math span begins. *)
Lemma search_math_leftmost s : forall pv n,
  (forall i st', search re_math pv s n = Some (i, st') ->
     exists pre w, s = pre ++ w ++ rest st' /\ i = n + length pre
       /\ pos st' = i + length w /\ 2 <= length w
       /\ is_math_text w = true
       /\ math_at (w ++ rest st') = Some (rest st')
       /\ (forall x y, pre = x ++ y -> y <> [] ->
                       math_at (y ++ w ++ rest st') = None))
  /\ (search re_math pv s n = None ->
      forall x y, s = x ++ y -> math_at y = None).
Proof.
  induction s as [|c tl IH]; intros pv n; cbn [search];
    pose proof (match_at_math_direct pv) as D.
  - specialize (D [] n).
    destruct (match_at re_math pv [] n) as [st0|] eqn:M; cbn [option_map] in D.
    + split; [|discriminate]. intros i st' H. inversion H; subst.
      destruct (match_at_math_spec _ _ _ M) as (w & E & _ & L & _).
      destruct w; [simpl in L; lia|discriminate].
    + split; [discriminate|]. intros _ x y E.
      destruct x; [|discriminate]. simpl in E. subst y. auto.
  - specialize (D (c :: tl) n).
    destruct (match_at re_math pv (c :: tl) n) as [st0|] eqn:M;
      cbn [option_map] in D.
    + split; [|discriminate]. intros i st' H. inversion H; subst.
      destruct (match_at_math_spec _ _ _ M) as (w & E & P & L & T).
      exists [], w. cbn [app length]. rewrite <- E.
      repeat split; auto; try lia.
      intros x y Exy. destruct x; [|discriminate]. simpl in Exy.
      congruence.
    + destruct (IH (Some c) (S n)) as [IH1 IH2]. split.
      * intros i st' H. destruct (IH1 _ _ H)
          as (pre & w & E & I & P & L & T & Mw & Left).
        exists (c :: pre), w. cbn [app length]. rewrite <- E.
        repeat split; auto; try lia.
        intros x y Exy Ny. destruct x as [|c' x].
        -- simpl in Exy. subst y. cbn [app]. rewrite <- E. auto.
        -- inversion Exy; subst. apply (Left x y); auto.
      * intros H x y Exy. destruct x as [|c' x].
        -- simpl in Exy. subst y. auto.
        -- inversion Exy; subst. apply (IH2 H x y). reflexivity.
Qed.

Lemma exec_math_leftmost s li :
  (forall i e cs, exec re_math s li = Some (i, e, cs) ->
     exists a pre w post, s = a ++ pre ++ w ++ post /\ length a = li
       /\ i = li + length pre /\ e = i + length w /\ 1 <= length w
       /\ is_math_text w = true
       /\ math_at (w ++ post) = Some post
       /\ (forall x y, pre = x ++ y -> y <> [] ->
                       math_at (y ++ w ++ post) = None))
  /\ (exec re_math s li = None -> li <= length s ->
      forall x y, skipn li s = x ++ y -> math_at y = None).
Proof.
  unfold exec.
  set (pv := match li with O => None | S i => nth_error s i end).
  destruct (search_math_leftmost (skipn li s) pv li) as [S1 S2].
  destruct (Nat.ltb_spec (length s) li).
  - split; [discriminate|]. intros _ L. lia.
  - destruct (search re_math pv (skipn li s) li) as [[i' st']|] eqn:S.
    + split; [|discriminate]. intros i e cs E. inversion E; subst.
      destruct (S1 _ _ eq_refl) as (pre & w & E1 & I & P & L & T & Mw & Left).
      exists (firstn li s), pre, w, (rest st').
      rewrite <- E1, firstn_skipn, length_firstn.
      repeat split; auto; lia.
    + split; [discriminate|]. intros _ _. apply S2. reflexivity.
Qed.

Lemma seg_loop_segmentation : forall fuel a b out,
  length b < fuel ->
  exists spans c,
    b = concat (map span_text spans) ++ c /\
    Forall span_ok spans /\
    seg_loop fuel (a ++ b) (SegState out (length a) (length a)) =
      Some (SegState (out ++ concat (map render spans))
                     (length (a ++ concat (map span_text spans))) 0) /\
    paired spans = true /\
    segmentation b (spans ++ [Plain c]).
Proof.
  induction fuel as [|fuel IH]; intros a b out Hf; [lia|].
  cbn [seg_loop seg_lastIndex seg_last seg_out].
  destruct (exec_math_leftmost (a ++ b) (length a)) as [X1 X2].
  destruct (exec re_math (a ++ b) (length a)) as [[[i e] cs]|] eqn:X.
  - destruct (X1 _ _ _ eq_refl)
      as (a' & pre & w & post & E & La & I & En & Lw & D & Mw & Left).
    assert (a' = a /\ pre ++ w ++ post = b) as [-> <-]
      by (apply app_inj_length; auto).
    clear E La X1 X2.
    rewrite (@slice_app a pre (w ++ post) (length a) i) by lia.
    replace (a ++ pre ++ w ++ post) with ((a ++ pre) ++ w ++ post)
      by (rewrite <- app_assoc; reflexivity).
    rewrite (@slice_app (a ++ pre) w post i e)
      by (rewrite ?length_app; lia).
    replace e with (length ((a ++ pre) ++ w)) by (rewrite !length_app; lia).
    replace ((a ++ pre) ++ w ++ post) with (((a ++ pre) ++ w) ++ post)
      by (rewrite <- !app_assoc; reflexivity).
    destruct (IH ((a ++ pre) ++ w) post
                ((out ++ escapeHTML_local pre) ++ mathSeg w))
      as (spans & c & Eb & Ok & Lp & Pr & Sg).
    { rewrite !length_app in Hf. lia. }
    exists (Plain pre :: Math w :: spans), c.
    cbn [map concat span_text render paired app].
    rewrite <- !app_assoc in *. rewrite <- Eb.
    split; [reflexivity|]. split; [repeat constructor; auto|].
    split; [exact Lp|]. split; [exact Pr|].
    apply seg_pair; auto.
  - exists [], b. cbn [map concat app]. rewrite !app_nil_r.
    split; [reflexivity|]. split; [constructor|].
    split; [reflexivity|]. split; [reflexivity|].
    apply seg_end. intros x y E. apply (X2 eq_refl) with (x := x).
    + rewrite length_app. lia.
    + rewrite skipn_length_app. exact E.
Qed.

(** The output of the segmenter is the concatenation of what is rendered
    for the spans of the segmentation. *)
Lemma segment_segmentation s :
  exists spans,
    segmentation s spans /\
    segment s = Some (concat (map render spans)) /\
    alternating spans = true /\
    Forall span_ok spans.
Proof.
  destruct (@seg_loop_segmentation (S (length s)) [] s [])
    as (spans & c & E & Ok & L & Pr & Sg); [lia|].
  exists (spans ++ [Plain c]). split; [exact Sg|].
  split; [|split].
  - unfold segment, segment_fuel. cbn [app length] in L. rewrite L.
    cbn [seg_last seg_out app].
    rewrite !map_app, !concat_app. cbn [map concat render].
    rewrite !app_nil_r.
    destruct (Nat.ltb_spec (length (concat (map span_text spans))) (length s)).
    + do 2 f_equal.
      assert (S : slice s (length (concat (map span_text spans))) (length s) = c).
      { rewrite E at 1. unfold slice. rewrite skipn_length_app.
        apply firstn_all2. rewrite E at 1. rewrite length_app. lia. }
      rewrite S. reflexivity.
    + assert (c = []).
      { destruct c; auto. rewrite E, length_app in H. simpl in H. lia. }
      subst c. rewrite app_nil_r. reflexivity.
  - apply paired_alternating_snoc. exact Pr.
  - apply Forall_app. split; [exact Ok|]. constructor; [exact I|constructor].
Qed.

(** A text has one segmentation only. *)
Lemma segmentation_unique s sp1 :
  segmentation s sp1 -> forall sp2, segmentation s sp2 -> sp1 = sp2.
Proof.
  induction 1 as [t H|t w r spans Left Mw Sr IH]; intros sp2 S2.
  - destruct S2 as [t' H'|t' w' r' spans' Left' Mw' Sr']; [reflexivity|].
    rewrite (H t' (w' ++ r') eq_refl) in Mw'. discriminate.
  - remember (t ++ w ++ r) as s eqn:Es.
    destruct S2 as [t' H'|t' w' r' spans' Left' Mw' Sr'].
    + rewrite (H' t (w ++ r) Es) in Mw. discriminate.
    + assert (Et : t' = t).
      { symmetry in Es. apply app_eq_app in Es.
        destruct Es as (l & [[E1 E2]|[E1 E2]]).
        - destruct l as [|c l]; [rewrite app_nil_r in E1; auto|].
          rewrite E2 in Mw'. rewrite (Left t' (c :: l) E1) in Mw';
            [discriminate|discriminate].
        - destruct l as [|c l]; [rewrite app_nil_r in E1; auto|].
          rewrite E2 in Mw. rewrite (Left' t (c :: l) E1) in Mw;
            [discriminate|discriminate]. }
      subst t'. apply app_inv_head in Es.
      assert (Er : r' = r) by (rewrite Es in Mw'; congruence).
      subst r'. apply app_inv_tail in Es. subst w'.
      f_equal. f_equal. apply IH. exact Sr'.
Qed.

(** The whole function, span by span. *)
Lemma processLatexForDisplay_spans raw :
  exists spans,
    segmentation (protect_br (normalize raw)) spans
    /\ processLatexForDisplay (Some raw)
       = Some (concat (map final_render spans)).
Proof.
  destruct (segment_segmentation (protect_br (normalize raw)))
    as (spans & Sg & E & Al & Ok).
  exists spans. split; [exact Sg|].
  unfold processLatexForDisplay. rewrite E.
  rewrite (restore_concat Al Ok). reflexivity.
Qed.

Lemma processLatexForDisplay_of_spans raw spans :
  segmentation (protect_br (normalize raw)) spans ->
  processLatexForDisplay (Some raw) = Some (concat (map final_render spans)).
Proof.
  intros Sg. destruct (processLatexForDisplay_spans raw) as (spans' & Sg' & E).
  rewrite (segmentation_unique Sg Sg'). exact E.
Qed.

Lemma no_match_segmentation s :
  anywhere math_at s = false -> segmentation s [Plain s].
Proof.
  intros H. apply seg_end. intros a x E.
  apply (anywhere_suffix _ H). exists a. exact E.
Qed.

(** ** Restoring the line breaks in a text without the sentinel *)

Lemma rewrite_with_absent at_ w p s :
  (forall x, at_ x <> None -> strip_prefix p x <> None) ->
  occurs p s = false ->
  rewrite_with at_ w s 0 = s.
Proof.
  intros Hat. induction s as [|c tl IH]; intros Ho; [reflexivity|].
  cbn [rewrite_with]. cbn [occurs] in Ho.
  destruct (strip_prefix p (c :: tl)) eqn:SP; [discriminate|].
  destruct (at_ (c :: tl)) eqn:A.
  - exfalso. apply (Hat (c :: tl)); congruence.
  - f_equal. apply IH. exact Ho.
Qed.

Lemma restore_br_absent s : occurs SENTINEL s = false -> restore_br s = s.
Proof.
  intros H. rewrite restore_br_rewrite.
  apply rewrite_with_absent with (p := SENTINEL); [|exact H].
  intros x Hx. exact Hx.
Qed.

Lemma sentinel_head : exists tl, SENTINEL = 95%N :: tl.
Proof. eexists. vm_compute. reflexivity. Qed.

Lemma sentinel_not_special :
  Forall (fun c => is_html_special c = false) SENTINEL.
Proof. vm_compute. repeat constructor. Qed.

Lemma entity_head x :
  is_html_special x = true -> exists e, esc_char x = 38%N :: e.
Proof.
  intros Sx. apply special_cases in Sx.
  destruct Sx as [-> | [-> | [-> | [-> | ->]]]]; eexists; vm_compute;
    reflexivity.
Qed.

Lemma strip_prefix_escaped w :
  Forall (fun c => is_html_special c = false) w ->
  forall t, strip_prefix w (flat_map esc_char t) <> None ->
            strip_prefix w t <> None.
Proof.
  induction 1 as [|c w' Hc _ IH]; intros t H; [discriminate|].
  destruct t as [|x t']; [exact H|].
  cbn [flat_map] in H. cbn [strip_prefix].
  destruct (is_html_special x) eqn:Sx.
  - exfalso. apply H. destruct (entity_head _ Sx) as (e & ->).
    cbn [app strip_prefix].
    destruct (N.eqb_spec 38 c) as [E|_]; [|reflexivity].
    subst c. vm_compute in Hc. discriminate.
  - assert (Ex : esc_char x = [x]) by (unfold esc_char; rewrite Sx; reflexivity).
    rewrite Ex in H. cbn [app strip_prefix] in H.
    destruct (N.eqb x c); [apply IH; exact H|exact H].
Qed.

Lemma occurs_skip e : forall rest,
  Forall (fun c => c <> 95%N) e ->
  occurs SENTINEL (e ++ rest) = occurs SENTINEL rest.
Proof.
  destruct sentinel_head as (tl & E).
  induction e as [|c e IH]; intros rest H; [reflexivity|].
  inversion H; subst. cbn [app occurs]. rewrite E at 1.
  cbn [strip_prefix]. destruct (N.eqb_spec c 95); [contradiction|].
  apply IH. assumption.
Qed.

Lemma entity_no_underscore x :
  is_html_special x = true -> Forall (fun c => c <> 95%N) (esc_char x).
Proof.
  intros Sx. apply special_cases in Sx.
  destruct Sx as [-> | [-> | [-> | [-> | ->]]]]; vm_compute;
    repeat constructor; discriminate.
Qed.

Lemma occurs_escaped t :
  occurs SENTINEL t = false -> occurs SENTINEL (flat_map esc_char t) = false.
Proof.
  induction t as [|x t' IH]; intros H; [exact H|].
  cbn [occurs] in H. destruct (strip_prefix SENTINEL (x :: t')) eqn:SP;
    [discriminate|].
  cbn [flat_map]. destruct (is_html_special x) eqn:Sx.
  - rewrite occurs_skip by (apply entity_no_underscore; exact Sx).
    apply IH. exact H.
  - assert (Ex : esc_char x = [x]) by (unfold esc_char; rewrite Sx; reflexivity).
    rewrite Ex. cbn [app occurs].
    destruct (strip_prefix SENTINEL (x :: flat_map esc_char t')) eqn:SP'.
    + exfalso.
      apply (@strip_prefix_escaped SENTINEL sentinel_not_special (x :: t')).
      * cbn [flat_map]. rewrite Ex. cbn [app]. congruence.
      * exact SP.
    + apply IH. exact H.
Qed.

(** What a plain span contributes to the output. *)
Lemma final_render_plain t :
  final_render (Plain t)
    = rewrite_with sentinel_at (js "<br>") (flat_map esc_char t) 0
  /\ br_only (final_render (Plain t))
  /\ (occurs SENTINEL t = false ->
      final_render (Plain t) = flat_map esc_char t
      /\ Forall (fun c => is_markup_char c = false) (final_render (Plain t))).
Proof.
  unfold final_render. cbn [render]. rewrite escapeHTML_local_chars.
  split; [apply restore_br_rewrite|]. split.
  - rewrite restore_br_rewrite. apply restore_br_only, flat_map_esc_no_markup.
  - intros H. rewrite restore_br_absent by (apply occurs_escaped; exact H).
    split; [reflexivity|apply flat_map_esc_no_markup].
Qed.

(** What a math span contributes to the output. *)
Lemma final_render_math w :
  final_render (Math w)
    = rewrite_with sentinel_at (js "<br>") (repair_spec w) 0
  /\ (occurs (js "\hspace") w = false -> occurs SENTINEL w = false ->
      final_render (Math w) = w).
Proof.
  unfold final_render. cbn [render]. rewrite mathSeg_repair_spec.
  split; [apply restore_br_rewrite|].
  intros H1 H2. rewrite repair_spec_intact by exact H1.
  apply restore_br_absent. exact H2.
Qed.

(** ** Claims about the spans of the output *)

(** C2 as stated does not hold: the text below has no math delimiter at
    all, and its less-than and greater-than signs reach the output as they
    are, where the escaper would have written entities. *)
Lemma C2_br_tag_not_escaped_counterexample :
  anywhere math_at (js "x<br>y") = false
  /\ processLatexForDisplay (Some (js "x<br>y")) = Some (js "x<br>y")
  /\ escapeHTML (js "x<br>y") = js "x&lt;br&gt;y"
  /\ processLatexForDisplay (Some (js "x<br>y"))
     <> Some (escapeHTML (js "x<br>y")).
Proof.
  split; [vm_compute; reflexivity|]. split; [vm_compute; reflexivity|].
  split; [vm_compute; reflexivity|]. vm_compute. discriminate.
Qed.

(** C2 (amended): the output is made from the normalized text in which
    every [<br>] tag has been replaced by the sentinel.  That text has one
    segmentation: each math span is the leftmost delimiter pair of what is
    left, closed by the first closing delimiter, and the plain spans are
    the text between, in which no pair begins; what is matched at a
    position is what the delimiter pattern of the code matches there.  The
    output is the
    concatenation of what the spans contribute, and a plain span contributes
    its HTML-escaped text with every sentinel turned into [<br>]: it has no
    less-than or greater-than sign other than those of such tags, and when
    the span holds no sentinel it is the escaped text itself.  A text in
    which no delimiter pair is found (a lone dollar sign, an unclosed [\(])
    is one plain span, and [<b>evil</b>] comes out as escaped text. *)
Theorem C2_plain_text_is_escaped :
  (forall raw, exists spans,
      segmentation (protect_br (normalize raw)) spans
      /\ processLatexForDisplay (Some raw)
         = Some (concat (map final_render spans))
      /\ forall t, In (Plain t) spans ->
           final_render (Plain t)
             = rewrite_with sentinel_at (js "<br>") (flat_map esc_char t) 0
           /\ br_only (final_render (Plain t))
           /\ (occurs SENTINEL t = false ->
               final_render (Plain t) = flat_map esc_char t
               /\ Forall (fun c => is_markup_char c = false)
                         (final_render (Plain t))))
  /\ (forall s sp1 sp2,
        segmentation s sp1 -> segmentation s sp2 -> sp1 = sp2)
  /\ (forall pv s n,
        option_map rest (match_at re_math pv s n) = math_at s)
  /\ (forall raw,
        anywhere math_at (protect_br (normalize raw)) = false ->
        processLatexForDisplay (Some raw)
        = Some (final_render (Plain (protect_br (normalize raw)))))
  /\ processLatexForDisplay (Some (js "5 < 7 $ x"))
       = Some (js "5 &lt; 7 $ x")
  /\ processLatexForDisplay (Some (js "\(<i>"))
       = Some (js "\(&lt;i&gt;")
  /\ processLatexForDisplay (Some (js "<b>evil</b>"))
       = Some (js "&lt;b&gt;evil&lt;/b&gt;")
  /\ processLatexForDisplay (Some (js "$x$ <b>evil</b> \[y\]"))
       = Some (js "$x$ &lt;b&gt;evil&lt;/b&gt; \[y\]")
  /\ processLatexForDisplay (Some (js "$a$ <i> $b$ </i> $"))
       = Some (js "$a$ &lt;i&gt; $b$ &lt;/i&gt; $")
  /\ processLatexForDisplay (Some (js "\] <u> \[x\] \)"))
       = Some (js "\] &lt;u&gt; \[x\] \)").
Proof.
  split; [|split; [|split; [|split]]].
  - intros raw. destruct (processLatexForDisplay_spans raw) as (spans & Sg & E).
    exists spans. split; [exact Sg|]. split; [exact E|].
    intros t _. apply final_render_plain.
  - intros s sp1 sp2 S1 S2. exact (segmentation_unique S1 S2).
  - apply match_at_math_direct.
  - intros raw H.
    rewrite (processLatexForDisplay_of_spans raw (no_match_segmentation _ H)).
    cbn [map concat]. rewrite app_nil_r. reflexivity.
  - repeat split; vm_compute; reflexivity.
Qed.

Lemma C2_plain_text_is_escaped_witness :
  anywhere math_at (protect_br (normalize (js "a $ <b>"))) = false
  /\ processLatexForDisplay (Some (js "a $ <b>"))
     = Some (final_render (Plain (protect_br (normalize (js "a $ <b>"))))).
Proof.
  split; [vm_compute; reflexivity|].
  apply (proj1 (proj2 (proj2 (proj2 C2_plain_text_is_escaped)))
           (js "a $ <b>")).
  vm_compute. reflexivity.
Defined.

(** C8 as stated does not hold: the math spans below have no [\hspace],
    yet their content is not left intact.  The first is a delimiter pair
    from its first to its last character and holds the sentinel string; the
    second holds a line-break tag, which is the sentinel by the time the
    spans are matched.  Both come out with [<br>] inside the span. *)
Lemma C8_line_break_in_math_counterexample :
  protect_br (normalize (js "$a__BR_SENTINEL__b$")) = js "$a__BR_SENTINEL__b$"
  /\ math_at (js "$a__BR_SENTINEL__b$") = Some []
  /\ occurs (js "\hspace") (js "$a__BR_SENTINEL__b$") = false
  /\ processLatexForDisplay (Some (js "$a__BR_SENTINEL__b$"))
     = Some (js "$a<br>b$")
  /\ protect_br (normalize (js "$x<br />y$")) = js "$x__BR_SENTINEL__y$"
  /\ math_at (js "$x__BR_SENTINEL__y$") = Some []
  /\ processLatexForDisplay (Some (js "$x<br />y$")) = Some (js "$x<br>y$")
  /\ js "$a<br>b$" <> js "$a__BR_SENTINEL__b$"
  /\ js "$x<br>y$" <> js "$x<br />y$".
Proof.
  repeat split; try (vm_compute; reflexivity); vm_compute; discriminate.
Qed.

(** C8 (amended): in the output, a matched math span is the span with
    every empty [\hspace{}] (white space allowed before and between the
    braces) and then every [\hspace] that is not followed by a non-empty
    brace group replaced by [\,], and after that with every sentinel string
    replaced by [<br>]; a span without [\hspace] and without the sentinel is
    left as it is.  The spans are those of the one segmentation of the
    normalized text in which the [<br>] tags have been replaced by the
    sentinel. *)
Theorem C8_math_span_repairs :
  (forall raw, exists spans,
      segmentation (protect_br (normalize raw)) spans
      /\ processLatexForDisplay (Some raw)
         = Some (concat (map final_render spans))
      /\ forall w, In (Math w) spans ->
           final_render (Math w)
             = rewrite_with sentinel_at (js "<br>") (repair_spec w) 0
           /\ (occurs (js "\hspace") w = false ->
               occurs SENTINEL w = false ->
               final_render (Math w) = w))
  /\ (forall raw spans,
        segmentation (protect_br (normalize raw)) spans ->
        processLatexForDisplay (Some raw)
        = Some (concat (map final_render spans)))
  /\ (forall w, render (Math w) = repair_spec w)
  /\ (forall w, occurs (js "\hspace") w = false -> render (Math w) = w)
  /\ render (Math (js "$a\hspace{}b$")) = js "$a\,b$"
  /\ render (Math (js "$a\hspace{  }b$")) = js "$a\,b$"
  /\ render (Math (js "$a\hspace b$")) = js "$a\, b$"
  /\ render (Math (js "$a\hspace{1em}b & c$")) = js "$a\hspace{1em}b & c$"
  /\ processLatexForDisplay (Some (js "x \(a\hspace{}b\hspace\) y"))
     = Some (js "x \(a\,b\,\) y")
  /\ processLatexForDisplay (Some (js "$a\hspace{1em}b & c$ <p> $\hspace {} d$"))
     = Some (js "$a\hspace{1em}b & c$ &lt;p&gt; $\, d$").
Proof.
  split; [|split; [|split; [|split]]].
  - intros raw. destruct (processLatexForDisplay_spans raw) as (spans & Sg & E).
    exists spans. split; [exact Sg|]. split; [exact E|].
    intros w _. apply final_render_math.
  - intros raw spans Sg. apply processLatexForDisplay_of_spans. exact Sg.
  - intros w. apply mathSeg_repair_spec.
  - intros w H. cbn [render]. rewrite mathSeg_repair_spec.
    apply repair_spec_intact, H.
  - repeat split; vm_compute; reflexivity.
Qed.

Lemma C8_math_span_repairs_witness :
  segmentation (protect_br (normalize (js "$x^2 \le y$")))
    [Plain []; Math (js "$x^2 \le y$"); Plain []]
  /\ processLatexForDisplay (Some (js "$x^2 \le y$"))
     = Some (concat (map final_render
                       [Plain []; Math (js "$x^2 \le y$"); Plain []]))
  /\ occurs (js "\hspace") (js "$x^2 \le y$") = false
  /\ render (Math (js "$x^2 \le y$")) = js "$x^2 \le y$".
Proof.
  assert (Sg : segmentation (protect_br (normalize (js "$x^2 \le y$")))
                 [Plain []; Math (js "$x^2 \le y$"); Plain []]).
  { change (protect_br (normalize (js "$x^2 \le y$")))
      with ([] ++ js "$x^2 \le y$" ++ []).
    apply seg_pair.
    - intros a y E Ny. destruct a; destruct y; try discriminate.
      contradiction.
    - vm_compute. reflexivity.
    - apply seg_end. intros a x E. destruct a; destruct x; try discriminate.
      reflexivity. }
  split; [exact Sg|]. split.
  - apply (proj1 (proj2 C8_math_span_repairs) (js "$x^2 \le y$") _ Sg).
  - split; [reflexivity|].
    apply (proj1 (proj2 (proj2 (proj2 C8_math_span_repairs)))
             (js "$x^2 \le y$")).
    reflexivity.
Defined.

(** * Further properties of the code *)

(** ** The loop of processLatexForDisplay terminates *)

Lemma seg_loop_more_fuel fuel s : forall st r,
  seg_loop fuel s st = Some r -> seg_loop (S fuel) s st = Some r.
Proof.
  induction fuel as [|fuel IH]; intros st r H; [discriminate|].
  cbn [seg_loop] in *.
  destruct (exec re_math s (seg_lastIndex st)) as [[[i e] cs]|]; auto.
Qed.

Lemma seg_loop_fuel_le s st r : forall fuel fuel',
  fuel <= fuel' -> seg_loop fuel s st = Some r -> seg_loop fuel' s st = Some r.
Proof.
  intros fuel fuel' L H. induction L; auto using seg_loop_more_fuel.
Qed.

(** The [while] loop ends for every text: each match is at least two
    characters long, so [lastIndex] grows, and one unit of fuel per
    character (and one more) is enough; more fuel gives the same output.
    On a string the function therefore returns a string.  On the values of
    the data it never runs forever, returns the empty string for [null]
    and [undefined], and otherwise returns what it returns on [String] of
    the argument; it throws exactly when [String] throws, which it does on
    an object with an own field [toString] and on no number, boolean or
    string. *)
Theorem processLatexForDisplay_total :
  (forall s fuel, length s < fuel ->
     exists out, segment_fuel fuel s = Some out /\ segment s = Some out)
  /\ (forall raw, exists out, processLatexForDisplay raw = Some out)
  /\ processLatexForDisplay None = Some []
  /\ (forall rawStr,
        processLatexForDisplay_value rawStr <> Diverge
        /\ (processLatexForDisplay_value rawStr = Throw
            <-> to_string rawStr = Throw)
        /\ (is_nullish rawStr = true ->
            processLatexForDisplay_value rawStr = Ret [])
        /\ (forall s, is_nullish rawStr = false -> to_string rawStr = Ret s ->
              exists out, processLatexForDisplay (Some s) = Some out
                          /\ processLatexForDisplay_value rawStr = Ret out))
  /\ (forall fs, to_string (VObj fs) = Throw
                 <-> lookup_field (js "toString") fs <> None)
  /\ (forall v, match v with
                | VArr _ | VObj _ => True
                | _ => exists s, to_string v = Ret s
                end).
Proof.
  assert (A : forall s fuel, length s < fuel ->
                exists out, segment_fuel fuel s = Some out
                            /\ segment s = Some out).
  { intros s fuel L.
    destruct (@seg_loop_spec (S (length s)) [] s [])
      as (spans & c & _ & _ & _ & H & _); [lia|].
    cbn [app length] in H.
    unfold segment, segment_fuel.
    rewrite (@seg_loop_fuel_le s _ _ (S (length s)) fuel ltac:(lia) H), H.
    eexists. split; reflexivity. }
  assert (B : forall raw, exists out, processLatexForDisplay raw = Some out).
  { intros [raw|]; [|exists []; reflexivity].
    destruct (A (protect_br (normalize raw))
                (S (length (protect_br (normalize raw)))) ltac:(lia))
      as (out & _ & H).
    exists (restore_br out). unfold processLatexForDisplay. rewrite H.
    reflexivity. }
  split; [exact A|]. split; [exact B|]. split; [reflexivity|].
  split; [|split].
  - intros rawStr. unfold processLatexForDisplay_value.
    pose proof (to_string_not_diverge rawStr) as D.
    destruct (is_nullish rawStr) eqn:Nl.
    + split; [discriminate|]. split; [|split; [reflexivity|discriminate]].
      destruct rawStr; try discriminate; split; discriminate.
    + destruct (to_string rawStr) as [s| |]; cbn [bind]; [|clear D|congruence].
      * destruct (B (Some s)) as (out & E). rewrite E.
        split; [discriminate|]. split; [split; discriminate|].
        split; [discriminate|].
        intros s' _ Es. inversion Es; subst s'. exists out. auto.
      * split; [discriminate|]. split; [tauto|].
        split; [discriminate|]. intros s' _ Es. discriminate Es.
  - intros fs. cbn [to_string].
    destruct (lookup_field (js "toString") fs); split; congruence.
  - intros [| |b|x|s|l|fs]; cbn [to_string]; eauto.
Qed.

Lemma processLatexForDisplay_total_witness :
  length (js "a $x$ b") < 100 /\
  exists out, segment_fuel 100 (js "a $x$ b") = Some out
              /\ segment (js "a $x$ b") = Some out.
Proof.
  split; [simpl; lia|].
  apply (proj1 processLatexForDisplay_total (js "a $x$ b") 100).
  simpl. lia.
Defined.

(** ** The category label *)

Lemma replace_chr_const c w s : forall pv n,
  replace_from (Chr c) (fun _ _ => w) pv s n 0
  = flat_map (fun x => if N.eqb x c then w else [x]) s.
Proof.
  induction s as [|x tl IH]; intros pv n; [reflexivity|].
  cbn [flat_map]. destruct (N.eqb x c) eqn:E.
  - apply N.eqb_eq in E. subst x. change (c :: tl) with ([c] ++ tl).
    rewrite (@replace_from_match (Chr c) _ pv n [c] tl
               (advance (MState pv (c :: tl) n []) c tl)).
    + simpl. rewrite IH. reflexivity.
    + unfold match_at. simpl. rewrite N.eqb_refl. reflexivity.
    + simpl. lia.
    + discriminate.
  - rewrite replace_from_nomatch.
    + rewrite IH. reflexivity.
    + unfold match_at. simpl. rewrite E. reflexivity.
Qed.

Lemma label_of_escaped s :
  replace_const (Chr (ch "_")) (js " ") (escapeHTML s)
  = flat_map (fun x => if N.eqb x (ch "_") then js " " else [x])
             (flat_map esc_char s)
  /\ Forall (fun c => is_markup_char c = false /\ c <> ch "_")
            (replace_const (Chr (ch "_")) (js " ") (escapeHTML s)).
Proof.
  assert (E : replace_const (Chr (ch "_")) (js " ") (escapeHTML s)
              = flat_map (fun x => if N.eqb x (ch "_") then js " " else [x])
                         (flat_map esc_char s)).
  { unfold replace_const, replace_all.
    rewrite replace_chr_const, escapeHTML_chars. reflexivity. }
  split; [exact E|]. rewrite E. clear E.
  pose proof (flat_map_esc_no_markup s) as M.
  revert M. generalize (flat_map esc_char s) as u.
  induction u as [|x u IH]; intros M; [constructor|].
  inversion M as [|? ? Hx Mu]; subst. cbn [flat_map].
  destruct (N.eqb_spec x (ch "_")) as [->|Nx].
  - constructor; [split; [reflexivity|discriminate]|auto].
  - constructor; [split; auto|auto].
Qed.

(** The label shown for a query's category: when [String] converts the
    category, the label is the escaped text with every underscore turned
    into a space, and it has no less-than, greater-than or quote character
    and no underscore; when [String] throws on the category (an object with
    an own field [toString]), so does the computation of the label. *)
Theorem category_label_safe : forall category,
  category_label category <> Diverge
  /\ (category_label category = Throw <-> to_string category = Throw)
  /\ (forall label, category_label category = Ret label ->
        exists s, to_string category = Ret s
          /\ label = flat_map (fun x => if N.eqb x (ch "_") then js " "
                                        else [x])
                              (flat_map esc_char s)
          /\ Forall (fun c => is_markup_char c = false /\ c <> ch "_") label).
Proof.
  intros category. unfold category_label, escapeHTML_value.
  pose proof (to_string_not_diverge category) as D.
  destruct (to_string category) as [s| |]; cbn [bind]; [|clear D|congruence].
  - split; [discriminate|]. split; [split; discriminate|].
    intros label H. injection H as <-. exists s.
    split; [reflexivity|]. apply label_of_escaped.
  - split; [discriminate|]. split; [tauto|]. intros label H. discriminate H.
Qed.

Lemma category_label_safe_witness :
  category_label (VStr (js "open_problem<1>"))
    = Ret (js "open problem&lt;1&gt;")
  /\ exists s, to_string (VStr (js "open_problem<1>")) = Ret s
       /\ js "open problem&lt;1&gt;"
          = flat_map (fun x => if N.eqb x (ch "_") then js " " else [x])
                     (flat_map esc_char s)
       /\ Forall (fun c => is_markup_char c = false /\ c <> ch "_")
                 (js "open problem&lt;1&gt;").
Proof.
  split; [vm_compute; reflexivity|].
  apply (proj2 (proj2 (category_label_safe (VStr (js "open_problem<1>"))))).
  vm_compute. reflexivity.
Defined.

(** ** The allow-list of parseCandidates is exact *)

Lemma drop_while_nil_forallb p (s : jstr) :
  match drop_while p s with [] => true | _ :: _ => false end = forallb p s.
Proof.
  induction s as [|c tl IH]; [reflexivity|].
  cbn [drop_while forallb]. destruct (p c); [exact IH|reflexivity].
Qed.

Lemma guard_match_at pv s n :
  match match_at re_guard pv s n with Some _ => true | None => false end
  = match n with O => forallb guard_char s | S _ => false end.
Proof.
  unfold match_at, re_guard. cbn [seq fold_right]. cbn [rmatch pos].
  destruct n as [|n]; [|reflexivity].
  pose proof (@rmatch_sim (Cat (Rep false 0 guard_char) (Cat Eol Eps))
                (MState pv s 0 []) Some Some eq_refl krel_Some) as S.
  cbn [rmatch rmatch_rest rest] in S.
  rewrite rep_rest_greedy in S by reflexivity.
  rewrite <- drop_while_nil_forallb.
  cbn [rest].
  destruct (rep false guard_char 0 s _ _); cbn [option_map] in S;
    destruct (drop_while guard_char s); congruence.
Qed.

Lemma search_guard_later s : forall pv n, search re_guard pv s (S n) = None.
Proof.
  induction s as [|c tl IH]; intros pv n; cbn [search].
  - pose proof (guard_match_at pv [] (S n)) as G.
    destruct (match_at re_guard pv [] (S n)); [discriminate|reflexivity].
  - pose proof (guard_match_at pv (c :: tl) (S n)) as G.
    destruct (match_at re_guard pv (c :: tl) (S n)); [discriminate|apply IH].
Qed.

Lemma guard_exact text : test re_guard text = forallb guard_char text.
Proof.
  unfold test. pose proof (guard_match_at None text 0) as G.
  destruct text as [|c tl]; cbn [search].
  - destruct (match_at re_guard None [] 0); exact G.
  - destruct (match_at re_guard None (c :: tl) 0); [exact G|].
    rewrite search_guard_later. exact G.
Qed.

(** The engine decides the result of parseCandidates only for a string
    whose trimmed text is not empty, makes both parses throw and consists
    of allow-listed characters alone: in every other case the result is the
    same whatever the engine would do with the text. *)
Theorem parseCandidates_engine_only_behind_guard :
  forall (R : Type) (run run' : jstr -> outcome R) raw,
    parseCandidates run raw <> parseCandidates run' raw ->
    exists s, raw = VStr s
      /\ trim s <> []
      /\ JSON_parse (trim s) = Throw
      /\ JSON_parse (lenient_rewrite (trim s)) = Throw
      /\ forallb guard_char (trim s) = true
      /\ run (function_source (trim s)) <> run' (function_source (trim s)).
Proof.
  intros R run run' raw H.
  destruct raw as [| |b|x|s|l|fs]; try (exfalso; apply H; reflexivity).
  exists s. split; [reflexivity|].
  unfold parseCandidates in H.
  destruct (trim s) as [|c t] eqn:T; [exfalso; apply H; reflexivity|].
  split; [discriminate|].
  destruct (JSON_parse (c :: t)) eqn:J1;
    try (exfalso; apply H; reflexivity).
  split; [reflexivity|].
  destruct (JSON_parse (lenient_rewrite (c :: t))) eqn:J2;
    try (exfalso; apply H; reflexivity).
  split; [reflexivity|].
  cbn [lift_data try_catch] in H. rewrite guard_exact in H.
  destruct (forallb guard_char (c :: t));
    [|exfalso; apply H; reflexivity].
  split; [reflexivity|].
  intros E. apply H. rewrite E. reflexivity.
Qed.

Lemma parseCandidates_engine_only_behind_guard_witness :
  parseCandidates (fun _ => Ret 1%nat) (VStr (js "alert(1)"))
    <> parseCandidates (fun _ => Ret 2%nat) (VStr (js "alert(1)"))
  /\ exists s, VStr (js "alert(1)") = VStr s
      /\ trim s <> []
      /\ JSON_parse (trim s) = Throw
      /\ JSON_parse (lenient_rewrite (trim s)) = Throw
      /\ forallb guard_char (trim s) = true
      /\ (fun _ : jstr => Ret 1%nat) (function_source (trim s))
         <> (fun _ : jstr => Ret 2%nat) (function_source (trim s)).
Proof.
  assert (N : parseCandidates (fun _ => Ret 1%nat) (VStr (js "alert(1)"))
              <> parseCandidates (fun _ => Ret 2%nat) (VStr (js "alert(1)"))).
  { vm_compute. discriminate. }
  split; [exact N|].
  exact (parseCandidates_engine_only_behind_guard
           (fun _ => Ret 1%nat) (fun _ => Ret 2%nat) (VStr (js "alert(1)")) N).
Defined.

(** ** After the repairs no malformed [\hspace] is left *)

Lemma rewrite_cons_none at_ w c tl :
  at_ (c :: tl) = None ->
  rewrite_with at_ w (c :: tl) 0 = c :: rewrite_with at_ w tl 0.
Proof. intros H. cbn [rewrite_with]. rewrite H. reflexivity. Qed.

Lemma rewrite_cons_some at_ w c tl r :
  at_ (c :: tl) = Some r ->
  rewrite_with at_ w (c :: tl) 0
  = w ++ rewrite_with at_ w tl (length tl - length r).
Proof. intros H. cbn [rewrite_with]. rewrite H. reflexivity. Qed.

Lemma needs_backslash_other at_ c tl :
  needs_backslash at_ -> c <> ch "\" -> at_ (c :: tl) = None.
Proof.
  intros Hb Hc. destruct (at_ (c :: tl)) as [r|] eqn:A; [|reflexivity].
  destruct (Hb _ _ A) as (t & E). inversion E. congruence.
Qed.

Lemma empty_needs_backslash : needs_backslash empty_hspace_at.
Proof.
  intros x r H. unfold empty_hspace_at in H.
  destruct x as [|c t]; [discriminate|].
  destruct (N.eqb_spec c (ch "\")) as [->|Nc]; [eauto|].
  cbn [strip_prefix js map list_ascii_of_string] in H.
  change (N_of_ascii "\") with (ch "\") in H.
  apply N.eqb_neq in Nc. rewrite Nc in H. discriminate.
Qed.

Lemma bare_needs_backslash : needs_backslash bare_hspace_at.
Proof.
  intros x r H. unfold bare_hspace_at in H.
  destruct x as [|c t]; [discriminate|].
  destruct (N.eqb_spec c (ch "\")) as [->|Nc]; [eauto|].
  cbn [strip_prefix js map list_ascii_of_string] in H.
  change (N_of_ascii "\") with (ch "\") in H.
  apply N.eqb_neq in Nc. rewrite Nc in H. discriminate.
Qed.

(** Characters other than a backslash at the head of the rewritten text
    were copied from the head of the text. *)
Lemma copy_prefix at_ q :
  needs_backslash at_ -> Forall (fun c => c <> ch "\") q ->
  forall s y,
    strip_prefix q (rewrite_with at_ (js "\,") s 0) = Some y ->
    exists s', strip_prefix q s = Some s'
               /\ y = rewrite_with at_ (js "\,") s' 0.
Proof.
  intros Hb. induction q as [|d q IH]; intros Hq s y H.
  - exists s. cbn [strip_prefix] in *. split; congruence.
  - inversion Hq as [|? ? Hd Hq']; subst.
    destruct s as [|c tl]; [discriminate|].
    destruct (at_ (c :: tl)) as [r|] eqn:A.
    + rewrite (@rewrite_cons_some _ _ _ _ _ A) in H.
      change (js "\,") with [ch "\"; ch ","] in H.
      cbn [app strip_prefix] in H.
      destruct (N.eqb_spec (ch "\") d); [congruence|discriminate].
    + rewrite (@rewrite_cons_none _ _ _ _ A) in H. cbn [strip_prefix] in *.
      destruct (N.eqb c d); [|discriminate].
      apply IH; auto.
Qed.

Lemma copy_hspace at_ s y :
  needs_backslash at_ ->
  strip_prefix (js "\hspace") (rewrite_with at_ (js "\,") s 0) = Some y ->
  at_ s = None
  /\ exists s', strip_prefix (js "\hspace") s = Some s'
                /\ y = rewrite_with at_ (js "\,") s' 0.
Proof.
  intros Hb H. destruct s as [|c tl]; [discriminate|].
  destruct (at_ (c :: tl)) as [r|] eqn:A.
  - rewrite (@rewrite_cons_some _ _ _ _ _ A) in H. vm_compute in H. discriminate.
  - split; [reflexivity|].
    rewrite (@rewrite_cons_none _ _ _ _ A) in H.
    change (js "\hspace") with (ch "\" :: js "hspace") in *.
    cbn [strip_prefix] in *.
    destruct (N.eqb c (ch "\")); [|discriminate].
    apply copy_prefix in H; auto.
    repeat constructor; discriminate.
Qed.

Lemma copy_char at_ d t y :
  needs_backslash at_ -> d <> ch "\" ->
  rewrite_with at_ (js "\,") t 0 = d :: y ->
  exists t', t = d :: t' /\ y = rewrite_with at_ (js "\,") t' 0.
Proof.
  intros Hb Hd H.
  destruct (@copy_prefix at_ [d] Hb ltac:(repeat constructor; auto) t y)
    as (s' & S & E).
  - rewrite H. cbn [strip_prefix]. rewrite N.eqb_refl. reflexivity.
  - exists s'. split; [|exact E].
    apply strip_prefix_app in S. exact S.
Qed.

Lemma drop_while_rewrite at_ p s :
  needs_backslash at_ -> p (ch "\") = false ->
  drop_while p (rewrite_with at_ (js "\,") s 0)
  = rewrite_with at_ (js "\,") (drop_while p s) 0.
Proof.
  intros Hb Hp. induction s as [|c tl IH]; [reflexivity|].
  destruct (at_ (c :: tl)) as [r|] eqn:A.
  - destruct (Hb _ _ A) as (t & E).
    assert (Ec : c = ch "\") by congruence. subst c. clear E.
    cbn [drop_while]. rewrite Hp.
    rewrite (@rewrite_cons_some _ _ _ _ _ A).
    change (js "\,") with [ch "\"; ch ","].
    cbn [app drop_while]. rewrite Hp. reflexivity.
  - rewrite (@rewrite_cons_none _ _ _ _ A). cbn [drop_while].
    destruct (p c); [exact IH|].
    rewrite (@rewrite_cons_none _ _ _ _ A). reflexivity.
Qed.

(** An empty [\hspace{}] at the head of the rewritten text was one at the
    head of the text. *)
Lemma empty_hspace_rewrite_inv at_ s :
  needs_backslash at_ ->
  empty_hspace_at (rewrite_with at_ (js "\,") s 0) <> None ->
  empty_hspace_at s <> None.
Proof.
  intros Hb H. unfold empty_hspace_at in H.
  destruct (strip_prefix (js "\hspace") (rewrite_with at_ (js "\,") s 0))
    as [y1|] eqn:SP; [|congruence].
  destruct (@copy_hspace _ _ _ Hb SP) as (_ & s1 & S1 & ->).
  rewrite drop_while_rewrite in H by (auto; reflexivity).
  destruct (rewrite_with at_ (js "\,") (drop_while is_space s1) 0)
    as [|x y2] eqn:R1; [congruence|].
  destruct (N.eqb_spec x (ch "{")) as [->|]; [|congruence].
  destruct (@copy_char at_ (ch "{") _ _ Hb ltac:(discriminate) R1) as (t2 & T1 & ->).
  rewrite drop_while_rewrite in H by (auto; reflexivity).
  destruct (rewrite_with at_ (js "\,") (drop_while is_space t2) 0)
    as [|z y3] eqn:R2; [congruence|].
  destruct (N.eqb_spec z (ch "}")) as [->|]; [|congruence].
  destruct (@copy_char at_ (ch "}") _ _ Hb ltac:(discriminate) R2) as (t4 & T3 & _).
  unfold empty_hspace_at. rewrite S1, T1, N.eqb_refl, T3, N.eqb_refl.
  discriminate.
Qed.

Lemma anywhere_rewrite at_ Q :
  (forall y, Q (ch "," :: y) = None) ->
  forall s skip,
    (forall s', is_suffix s' s -> Q (rewrite_with at_ (js "\,") s' 0) = None) ->
    anywhere Q (rewrite_with at_ (js "\,") s skip) = false.
Proof.
  intros Hc. induction s as [|c tl IH]; intros skip H.
  - assert (E : Q [] = None) by (apply (H []); exists []; reflexivity).
    destruct skip; cbn [rewrite_with anywhere]; rewrite E; reflexivity.
  - assert (Htl : forall s', is_suffix s' tl ->
                    Q (rewrite_with at_ (js "\,") s' 0) = None).
    { intros s' Hs. apply H. eapply is_suffix_tail; eauto. }
    destruct skip as [|k]; [|cbn [rewrite_with]; apply IH; exact Htl].
    pose proof (H (c :: tl) ltac:(exists []; reflexivity)) as Hw.
    destruct (at_ (c :: tl)) as [r|] eqn:A.
    + rewrite (@rewrite_cons_some _ _ _ _ _ A) in *.
      change (js "\,") with [ch "\"; ch ","] in *.
      cbn [app anywhere] in *. rewrite Hw, Hc. apply IH. exact Htl.
    + rewrite (@rewrite_cons_none _ _ _ _ A) in *.
      cbn [anywhere]. rewrite Hw. apply IH. exact Htl.
Qed.

Lemma drop_while_split p (s : jstr) :
  exists pre, s = pre ++ drop_while p s /\ forallb p pre = true.
Proof.
  induction s as [|c tl (pre & E & F)]; [exists []; auto|].
  cbn [drop_while]. destruct (p c) eqn:Pc.
  - exists (c :: pre). cbn [app forallb]. rewrite Pc, F, <- E. auto.
  - exists []. auto.
Qed.

Lemma drop_while_app_stop p (b : jstr) x r :
  forallb p b = true -> p x = false -> drop_while p (b ++ x :: r) = x :: r.
Proof.
  intros F Px. induction b as [|c b IH]; cbn [app drop_while].
  - rewrite Px. reflexivity.
  - cbn [forallb] in F. apply andb_true_iff in F. destruct F as [Pc F].
    rewrite Pc. auto.
Qed.

Lemma strip_prefix_before q x : forall body rest r,
  Forall (fun c => c <> x) q ->
  strip_prefix q (body ++ x :: rest) = Some r -> length q <= length body.
Proof.
  induction q as [|d q IH]; intros body rest r Hq H; [simpl; lia|].
  inversion Hq as [|? ? Hd Hq']; subst.
  destruct body as [|c body]; cbn [app strip_prefix length] in *.
  - destruct (N.eqb_spec x d); [congruence|discriminate].
  - destruct (N.eqb c d); [|discriminate].
    apply IH in H; auto. lia.
Qed.

(** Rewriting a text that runs up to a closing brace keeps the brace in
    place and the text before it free of closing braces. *)
Lemma bare_rewrite_in_group body : forall rest skip,
  forallb (not_char (ch "}")) body = true -> skip <= length body ->
  exists body',
    rewrite_with bare_hspace_at (js "\,") (body ++ ch "}" :: rest) skip
    = body' ++ ch "}" :: rewrite_with bare_hspace_at (js "\,") rest 0
    /\ forallb (not_char (ch "}")) body' = true
    /\ (skip = 0 -> body <> [] -> body' <> []).
Proof.
  induction body as [|c b IH]; intros rest skip F L.
  - simpl in L. replace skip with 0 by lia. exists [].
    cbn [app]. rewrite rewrite_cons_none by reflexivity.
    repeat split; auto.
  - cbn [forallb] in F. apply andb_true_iff in F. destruct F as [Pc F].
    destruct skip as [|k].
    + cbn [app].
      destruct (bare_hspace_at (c :: b ++ ch "}" :: rest)) as [r|] eqn:A.
      * rewrite (@rewrite_cons_some _ _ _ _ _ A).
        assert (K : length (b ++ ch "}" :: rest) - length r <= length b).
        { unfold bare_hspace_at in A.
          destruct (strip_prefix (js "\hspace") (c :: b ++ ch "}" :: rest))
            as [s1|] eqn:SP; [|discriminate].
          destruct (group_follows s1); [discriminate|].
          inversion A; subst r.
          pose proof (@strip_prefix_before (js "\hspace") (ch "}")
                        (c :: b) rest s1
                        ltac:(repeat constructor; discriminate) SP) as Lq.
          apply strip_prefix_app in SP.
          apply (f_equal (@length N)) in SP.
          rewrite length_app in SP. cbn [length] in SP, Lq.
          change (length (js "\hspace")) with 7 in *. lia. }
        destruct (IH rest _ F K) as (body' & E & F' & _).
        exists (js "\," ++ body'). rewrite E.
        rewrite <- app_assoc. repeat split; auto.
        intros _ _. discriminate.
      * rewrite (@rewrite_cons_none _ _ _ _ A).
        destruct (IH rest 0 F ltac:(lia)) as (body' & E & F' & _).
        exists (c :: body'). rewrite E. cbn [app forallb].
        rewrite Pc, F'. repeat split; auto. intros _ _. discriminate.
    + cbn [app rewrite_with]. cbn [length] in L.
      destruct (IH rest k F ltac:(lia)) as (body' & E & F' & _).
      exists body'. repeat split; auto. intros; discriminate.
Qed.

Lemma group_follows_rewrite s :
  group_follows s = true ->
  group_follows (rewrite_with bare_hspace_at (js "\,") s 0) = true.
Proof.
  unfold group_follows. intros H.
  rewrite drop_while_rewrite by (try apply bare_needs_backslash; reflexivity).
  destruct (drop_while is_space s) as [|x [|c s2]]; try discriminate.
  apply andb_true_iff in H. destruct H as [H H3].
  apply andb_true_iff in H. destruct H as [H1 H2].
  apply N.eqb_eq in H1. subst x.
  rewrite rewrite_cons_none by reflexivity.
  destruct (drop_while_split (not_char (ch "}")) s2) as (pre & E & F).
  destruct (drop_while (not_char (ch "}")) s2) as [|y rest]; [discriminate|].
  apply N.eqb_eq in H3. subst y.
  destruct (@bare_rewrite_in_group (c :: pre) rest 0) as (body' & R & F' & Ne).
  { cbn [forallb]. rewrite H2, F. reflexivity. }
  { lia. }
  rewrite E. change (c :: pre ++ ch "}" :: rest)
    with ((c :: pre) ++ ch "}" :: rest).
  rewrite R. destruct body' as [|c' b'']; [exfalso; apply Ne; auto; discriminate|].
  cbn [forallb] in F'. apply andb_true_iff in F'. destruct F' as [Pc' F''].
  cbn [app]. rewrite N.eqb_refl, Pc'.
  rewrite drop_while_app_stop by (auto; reflexivity).
  rewrite N.eqb_refl. reflexivity.
Qed.

Lemma bare_hspace_inv y r :
  bare_hspace_at y = Some r ->
  strip_prefix (js "\hspace") y = Some r /\ group_follows r = false.
Proof.
  unfold bare_hspace_at. intros H.
  destruct (strip_prefix (js "\hspace") y) as [y1|]; [|discriminate].
  destruct (group_follows y1) eqn:G; [discriminate|].
  inversion H; subst. auto.
Qed.

Lemma bare_hspace_rewritten s :
  bare_hspace_at (rewrite_with bare_hspace_at (js "\,") s 0) = None.
Proof.
  destruct (bare_hspace_at (rewrite_with bare_hspace_at (js "\,") s 0))
    as [r|] eqn:B; [|reflexivity].
  exfalso. apply bare_hspace_inv in B. destruct B as [SP G'].
  destruct (@copy_hspace _ _ _ bare_needs_backslash SP) as (A & s1 & S1 & ->).
  unfold bare_hspace_at in A. rewrite S1 in A.
  destruct (group_follows s1) eqn:G; [|discriminate].
  rewrite (@group_follows_rewrite _ G) in G'. discriminate.
Qed.

Lemma empty_hspace_rewritten s :
  empty_hspace_at (rewrite_with empty_hspace_at (js "\,") s 0) = None.
Proof.
  destruct (empty_hspace_at (rewrite_with empty_hspace_at (js "\,") s 0))
    as [r|] eqn:B; [|reflexivity].
  exfalso.
  assert (E : empty_hspace_at s <> None).
  { apply (@empty_hspace_rewrite_inv empty_hspace_at).
    - apply empty_needs_backslash.
    - congruence. }
  destruct s as [|c tl]; [apply E; reflexivity|].
  destruct (empty_hspace_at (c :: tl)) as [r0|] eqn:A; [|congruence].
  rewrite (@rewrite_cons_some _ _ _ _ _ A) in B. vm_compute in B. discriminate.
Qed.

(** In what is emitted for a math span, every [\hspace] that is left is
    followed by a brace group with at least one character, and no [\hspace]
    with an empty brace group is left. *)
Theorem math_span_has_no_malformed_hspace : forall w,
  anywhere bare_hspace_at (render (Math w)) = false
  /\ anywhere empty_hspace_at (render (Math w)) = false.
Proof.
  intros w. cbn [render]. rewrite mathSeg_repair_spec. unfold repair_spec.
  set (u := rewrite_with empty_hspace_at (js "\,") w 0).
  assert (U : anywhere empty_hspace_at u = false).
  { apply anywhere_rewrite; [reflexivity|].
    intros s' _. apply empty_hspace_rewritten. }
  split.
  - apply anywhere_rewrite; [reflexivity|].
    intros s' _. apply bare_hspace_rewritten.
  - apply anywhere_rewrite; [reflexivity|].
    intros s' Hs.
    destruct (empty_hspace_at (rewrite_with bare_hspace_at (js "\,") s' 0))
      eqn:B; [|reflexivity].
    exfalso.
    apply (@empty_hspace_rewrite_inv bare_hspace_at s' bare_needs_backslash);
      [congruence|].
    apply (@anywhere_suffix _ _ _ U Hs).
Qed.

(** ** Normalization: white space and tildes *)

Lemma rep_rest_greedy_Some p s :
  rep_rest false p 0 s Some = Some (drop_while p s).
Proof.
  induction s as [|c tl IH]; [reflexivity|].
  cbn [rep_rest drop_while Nat.pred]. destruct (p c); [|reflexivity].
  rewrite IH. reflexivity.
Qed.

Lemma spaces_direct s : rmatch_rest re_spaces s Some = spaces_at s.
Proof.
  unfold re_spaces, spaces_at. cbn [rmatch_rest].
  destruct s as [|c1 [|c2 tl]]; cbn [rep_rest Nat.pred].
  - reflexivity.
  - destruct (is_space c1); reflexivity.
  - destruct (is_space c1); [|reflexivity].
    destruct (is_space c2); [|reflexivity].
    apply rep_rest_greedy_Some.
Qed.

Lemma collapse_rewrite s :
  replace_const re_spaces (js " ") s = rewrite_with spaces_at (js " ") s 0.
Proof.
  unfold replace_const, replace_all. apply replace_const_rewrite.
  - simpl. lia.
  - intros pv s' n. rewrite match_at_rest by reflexivity.
    apply spaces_direct.
Qed.

Lemma rewrite_with_skip at_ w mid : forall r,
  rewrite_with at_ w (mid ++ r) (length mid) = rewrite_with at_ w r 0.
Proof.
  induction mid as [|c mid IH]; intros r; [reflexivity|].
  cbn [app length rewrite_with]. apply IH.
Qed.

Lemma rewrite_spaces_some c1 c2 tl :
  is_space c1 = true -> is_space c2 = true ->
  rewrite_with spaces_at (js " ") (c1 :: c2 :: tl) 0
  = js " " ++ rewrite_with spaces_at (js " ") (drop_while is_space tl) 0.
Proof.
  intros H1 H2.
  assert (A : spaces_at (c1 :: c2 :: tl) = Some (drop_while is_space tl)).
  { unfold spaces_at. rewrite H1, H2. reflexivity. }
  rewrite (@rewrite_cons_some _ _ _ _ _ A). f_equal.
  destruct (drop_while_split is_space tl) as (pre & E & _).
  remember (drop_while is_space tl) as d. clear Heqd A. subst tl.
  replace (length (c2 :: pre ++ d) - length d) with (length (c2 :: pre))
    by (cbn [length]; rewrite length_app; lia).
  apply (rewrite_with_skip spaces_at (js " ") (c2 :: pre)).
Qed.

Lemma drop_while_head p (s : jstr) :
  match drop_while p s with c :: _ => p c = false | [] => True end.
Proof.
  induction s as [|c tl IH]; cbn [drop_while]; auto.
  destruct (p c) eqn:E; auto.
Qed.

Lemma drop_while_length p (s : jstr) : length (drop_while p s) <= length s.
Proof.
  induction s as [|c tl IH]; cbn [drop_while length]; auto.
  destruct (p c); cbn [length]; lia.
Qed.

Lemma collapse_no_double n : forall s,
  length s <= n ->
  no_double_space (rewrite_with spaces_at (js " ") s 0) = true
  /\ (starts_with_space (rewrite_with spaces_at (js " ") s 0) = true ->
      starts_with_space s = true).
Proof.
  induction n as [|n IH]; intros s L.
  - destruct s; [|simpl in L; lia]. split; auto.
  - destruct s as [|c1 [|c2 tl]].
    + split; auto.
    + split; [reflexivity|]. cbn. auto.
    + destruct (is_space c1 && is_space c2) eqn:B.
      * apply andb_true_iff in B. destruct B as [B1 B2].
        rewrite rewrite_spaces_some by auto.
        pose proof (drop_while_length is_space tl) as Ld.
        pose proof (drop_while_head is_space tl) as Hd.
        destruct (IH (drop_while is_space tl)) as [N S];
          [cbn [length] in L; lia|].
        split; [|intros _; cbn [starts_with_space]; exact B1].
        remember (rewrite_with spaces_at (js " ") (drop_while is_space tl) 0)
          as R eqn:ER.
        change (js " " ++ R) with (ch " " :: R). cbn [no_double_space].
        rewrite N, andb_true_r.
        destruct R as [|x y]; [reflexivity|].
        destruct (is_space x) eqn:X; [|rewrite andb_false_r; reflexivity].
        exfalso. cbn [starts_with_space] in S. specialize (S X).
        destruct (drop_while is_space tl) as [|d dl]; [discriminate|].
        cbn [starts_with_space] in S. congruence.
      * assert (A : spaces_at (c1 :: c2 :: tl) = None).
        { unfold spaces_at. rewrite B. reflexivity. }
        rewrite (@rewrite_cons_none _ _ _ _ A).
        destruct (IH (c2 :: tl)) as [N S]; [cbn [length] in *; lia|].
        split; [|intros H; exact H].
        remember (rewrite_with spaces_at (js " ") (c2 :: tl) 0) as R eqn:ER.
        cbn [no_double_space]. rewrite N, andb_true_r.
        destruct R as [|x y]; [reflexivity|].
        destruct (is_space c1) eqn:C1; [|reflexivity].
        destruct (is_space x) eqn:X; [|reflexivity].
        exfalso. cbn [starts_with_space] in S. specialize (S X).
        cbn [andb] in B. congruence.
Qed.

Lemma no_double_space_app a : forall b,
  no_double_space (a ++ b) = true ->
  no_double_space a = true /\ no_double_space b = true.
Proof.
  induction a as [|c a IH]; intros b H; [auto|].
  cbn [app no_double_space] in *.
  apply andb_true_iff in H. destruct H as [H1 H2].
  destruct (IH b H2) as [Ha Hb]. split; [|exact Hb].
  rewrite Ha, andb_true_r.
  destruct a as [|c2 a]; [reflexivity|exact H1].
Qed.

Lemma drop_space_split s :
  exists pre, s = pre ++ drop_space s
              /\ match drop_space s with
                 | c :: _ => is_space c = false
                 | [] => True
                 end.
Proof.
  induction s as [|x tl IH]; [exists []; split; [reflexivity|exact I]|].
  destruct IH as (pre & E & H).
  cbn [drop_space]. destruct (is_space x) eqn:Pc.
  - exists (x :: pre). cbn [app]. rewrite <- E. auto.
  - exists []. auto.
Qed.

(** The text that [trim] keeps: the text is this text between two
    stretches that [trim] drops, and the kept text neither begins nor ends
    with white space. *)
Lemma trim_spec s :
  exists pre post,
    s = pre ++ trim s ++ post
    /\ starts_with_space (trim s) = false
    /\ starts_with_space (rev (trim s)) = false.
Proof.
  unfold trim. destruct (drop_space_split s) as (pre & E & H).
  destruct (drop_space_split (rev (drop_space s))) as (q & Eq & Hq).
  exists pre, (rev q). rewrite rev_involutive.
  assert (E2 : drop_space s = rev (drop_space (rev (drop_space s))) ++ rev q).
  { rewrite <- rev_app_distr, <- Eq, rev_involutive. reflexivity. }
  split; [rewrite <- E2; exact E|]. split.
  - destruct (rev (drop_space (rev (drop_space s)))) as [|c k] eqn:K;
      [reflexivity|].
    rewrite E2 in H. cbn [app] in H. cbn. exact H.
  - destruct (drop_space (rev (drop_space s))); [reflexivity|]. cbn. exact Hq.
Qed.

Lemma Forall_flat_map_tilde (s : jstr) :
  Forall (fun c => c <> ch "~")
         (flat_map (fun x => if N.eqb x (ch "~") then js " " else [x]) s).
Proof.
  induction s as [|c tl IH]; [constructor|]. cbn [flat_map].
  destruct (N.eqb_spec c (ch "~")).
  - constructor; [discriminate|exact IH].
  - constructor; auto.
Qed.

Lemma rewrite_with_Forall (P : N -> Prop) at_ w s : forall skip,
  Forall P w -> Forall P s -> Forall P (rewrite_with at_ w s skip).
Proof.
  intros skip Hw. revert skip.
  induction s as [|c tl IH]; intros skip Hs.
  - destruct skip; constructor.
  - inversion Hs; subst. destruct skip; cbn [rewrite_with]; auto.
    destruct (at_ (c :: tl)).
    + apply Forall_app. split; auto.
    + constructor; auto.
Qed.

(** What normalization returns has no tilde, neither begins nor ends with
    white space, and has no two white-space characters in a row. *)
Theorem normalize_white_space : forall s,
  Forall (fun c => c <> ch "~") (normalize s)
  /\ starts_with_space (normalize s) = false
  /\ starts_with_space (rev (normalize s)) = false
  /\ no_double_space (normalize s) = true.
Proof.
  intros s. unfold normalize.
  set (s5 := replace_const re_item _ _).
  set (s6 := replace_const re_tilde (js " ") s5).
  set (s7 := replace_const re_spaces (js " ") s6).
  destruct (trim_spec s7) as (pre & post & E & H1 & H2).
  assert (T : Forall (fun c => c <> ch "~") s7).
  { unfold s7. rewrite collapse_rewrite.
    apply rewrite_with_Forall; [repeat constructor; discriminate|].
    unfold s6, re_tilde, replace_const, replace_all.
    rewrite replace_chr_const. apply Forall_flat_map_tilde. }
  assert (D : no_double_space s7 = true).
  { unfold s7. rewrite collapse_rewrite.
    apply (@collapse_no_double (length s6) s6). lia. }
  split; [|split; [exact H1|split; [exact H2|]]].
  - rewrite E in T. apply Forall_app in T. destruct T as [_ T].
    apply Forall_app in T. tauto.
  - rewrite E in D. apply no_double_space_app in D. destruct D as [_ D].
    apply no_double_space_app in D. tauto.
Qed.

(** ** The candidate cards *)












Lemma candidate_fields_nullish c :
  is_nullish c = true -> candidate_fields c = Throw.
Proof. destruct c; try discriminate; reflexivity. Qed.





(** A candidate that is a number, a boolean, an array, or an object
    without the fields [reference], [title], [confidence], [score] and
    [reasoning], gets the card with the title [N/A] and a dash for the
    confidence. *)
Theorem candidate_card_missing_fields : forall c,
  match c with
  | VNum _ | VBool _ | VArr _ => True
  | VObj fs =>
      lookup_field (js "reference") fs = None
      /\ lookup_field (js "title") fs = None
      /\ lookup_field (js "confidence") fs = None
      /\ lookup_field (js "score") fs = None
      /\ lookup_field (js "reasoning") fs = None
  | _ => False
  end ->
  candidate_card c
  = Ret (js "<b>N/A</b>" ++ confidence_open ++ dash ++ js "</div>").
Proof.
  intros [| |b|x|s|l|fs] H; try contradiction.
  - vm_compute. reflexivity.
  - vm_compute. reflexivity.
  - vm_compute. reflexivity.
  - destruct H as (H1 & H2 & H3 & H4 & H5).
    unfold candidate_card, candidate_fields. cbn [get_prop bind].
    rewrite H1, H2, H3, H4, H5. vm_compute. reflexivity.
Qed.

Lemma candidate_card_missing_fields_witness :
  candidate_card (VObj [(js "year", VStr (js "2020"))])
  = Ret (js "<b>N/A</b>" ++ confidence_open ++ dash ++ js "</div>").
Proof.
  apply (candidate_card_missing_fields (VObj [(js "year", VStr (js "2020"))])).
  repeat split; reflexivity.
Defined.

(** ** Selection and navigation *)

Lemma oid_eqb_eq : forall a b, oid_eqb a b = true <-> a = b.
Proof.
  intros [x|] [y|]; cbn [oid_eqb]; try (split; [discriminate|discriminate]);
    [|tauto].
  rewrite jstr_eqb_eq. split; [intros ->; reflexivity|intros H; inversion H; auto].
Qed.

Lemma nth_error_Some_bound (A : Type) (l : list A) k a :
  nth_error l k = Some a -> k < length l.
Proof. intros H. apply nth_error_Some. congruence. Qed.

Section NavigationFacts.

Variable Id : Type.
Variable id_eqb : Id -> Id -> bool.
Variable truthy : Id -> bool.
Variable null_id : Id.
Variable DEFAULT_PAPER_ID : Id.

(** On the ids, [===] is equality (as it is on strings and on [null]). *)
Hypothesis id_eqb_eq : forall a b, id_eqb a b = true <-> a = b.

Lemma id_refl : forall a, id_eqb a a = true.
Proof. intros a. apply id_eqb_eq. reflexivity. Qed.

Lemma has_id_find papers x :
  has_id id_eqb (map (@p_id Id) papers) x = true ->
  exists p, find_paper id_eqb papers x = Some p.
Proof.
  unfold has_id, find_paper.
  induction papers as [|p ps IH]; [discriminate|].
  cbn [map existsb find]. destruct (id_eqb (p_id p) x); eauto.
Qed.

Lemma find_paper_in papers x p :
  find_paper id_eqb papers x = Some p -> In p papers /\ p_id p = x.
Proof.
  unfold find_paper. intros H.
  apply find_some in H. destruct H as [H1 H2].
  apply id_eqb_eq in H2. auto.
Qed.

Lemma find_paper_nth papers : forall k q,
  NoDup (map (@p_id Id) papers) -> nth_error papers k = Some q ->
  find_paper id_eqb papers (p_id q) = Some q.
Proof.
  unfold find_paper.
  induction papers as [|p ps IH]; intros k q ND Nth; [destruct k; discriminate|].
  cbn [map] in ND. inversion ND as [|? ? Np Nps]; subst.
  cbn [find]. destruct k as [|k].
  - inversion Nth; subst. rewrite id_refl. reflexivity.
  - cbn [nth_error] in Nth. destruct (id_eqb (p_id p) (p_id q)) eqn:E.
    + apply id_eqb_eq in E. exfalso. apply Np. rewrite E.
      apply in_map. eapply nth_error_In; eauto.
    + eapply IH; eauto.
Qed.

Lemma has_id_nth ids k a :
  nth_error ids k = Some a -> has_id id_eqb ids a = true.
Proof.
  intros H. unfold has_id. apply existsb_exists. exists a.
  split; [eapply nth_error_In; eauto|apply id_refl].
Qed.

Lemma findIndex_from_spec ids x : forall i,
  (findIndex_from id_eqb ids x i = (-1)%Z /\ has_id id_eqb ids x = false)
  \/ (exists k, findIndex_from id_eqb ids x i = (i + Z.of_nat k)%Z
                /\ nth_error ids k = Some x).
Proof.
  unfold has_id.
  induction ids as [|a tl IH]; intros i; [left; auto|].
  cbn [findIndex_from existsb]. destruct (id_eqb a x) eqn:E.
  - right. exists 0. apply id_eqb_eq in E. subst. split; [lia|reflexivity].
  - destruct (IH (i + 1)%Z) as [[H1 H2]|(k & H1 & H2)].
    + left. auto.
    + right. exists (S k). split; [lia|exact H2].
Qed.

Lemma findIndex_nodup ids : forall k a i,
  NoDup ids -> nth_error ids k = Some a ->
  findIndex_from id_eqb ids a i = (i + Z.of_nat k)%Z.
Proof.
  induction ids as [|b tl IH]; intros k a i N H; [destruct k; discriminate|].
  inversion N as [|? ? Nb Ntl]; subst. cbn [findIndex_from].
  destruct k as [|k].
  - inversion H; subst. rewrite id_refl. lia.
  - cbn [nth_error] in H. destruct (id_eqb b a) eqn:E.
    + apply id_eqb_eq in E. subst. exfalso. apply Nb.
      eapply nth_error_In; eauto.
    + rewrite (@IH k a (i + 1)%Z Ntl H). lia.
Qed.

(** The look-ups of displayArtifact succeed on a selection whose paper is
    in the dataset and whose artifact, when its id is truthy, is one of the
    artifacts of that paper. *)
Lemma lookup_ok papers pid aid p :
  find_paper id_eqb papers pid = Some p ->
  (truthy aid = true -> has_id id_eqb (p_artifacts p) aid = true) ->
  lookup_succeeds id_eqb truthy papers (Nav pid aid).
Proof.
  intros F H. unfold lookup_succeeds, displayArtifact_lookup.
  cbn [currentPaperId currentArtifactId].
  destruct (truthy pid); cbn [andb negb orb]; [|reflexivity].
  destruct (truthy aid); cbn [negb]; [|reflexivity].
  rewrite F, H by reflexivity.
  destruct (find_paper_in _ _ F) as [I E].
  destruct (findIndex_from_spec (p_artifacts p) aid 0) as [[_ X]|(k & X & Nth)].
  - rewrite H in X by reflexivity. discriminate.
  - exists p, k. unfold findIndex. rewrite X.
    replace (0 + Z.of_nat k)%Z with (Z.of_nat k) by lia. auto.
Qed.

Hypothesis null_falsy : truthy null_id = false.

Lemma first_artifact_has p :
  truthy (first_artifact null_id p) = true ->
  has_id id_eqb (p_artifacts p) (first_artifact null_id p) = true.
Proof.
  unfold first_artifact, has_id. destruct (p_artifacts p) as [|b l].
  - rewrite null_falsy. discriminate.
  - intros _. cbn [existsb]. rewrite id_refl. reflexivity.
Qed.

(** The selection made from the address fragment, up to the call of
    displayArtifact.  When the page is loaded the selected paper is a paper
    of the dataset: the one named by the fragment if that id is truthy and
    in the dataset, else the default paper if it is in the dataset, else
    the first paper.  The listener for changes of the fragment leaves the
    selection alone and displays nothing when the fragment names no paper
    of the dataset; otherwise it selects that paper, with the artifact of
    the fragment if the paper has it and the first artifact of the paper
    if not, and calls displayArtifact; none of its own statements throws.
    In both cases displayArtifact, given two truthy ids, finds the paper
    and the artifact; given a falsy id it returns at its first line. *)
Theorem selection_from_fragment_is_valid : forall papers hp ha,
  (forall st0,
      init_selection id_eqb truthy null_id DEFAULT_PAPER_ID papers hp ha
        = Some st0 ->
      has_id id_eqb (map (@p_id Id) papers) (currentPaperId st0) = true
      /\ (truthy hp = true ->
          has_id id_eqb (map (@p_id Id) papers) hp = true ->
          currentPaperId st0 = hp)
      /\ (truthy hp = false
          \/ has_id id_eqb (map (@p_id Id) papers) hp = false ->
          currentPaperId st0
          = if has_id id_eqb (map (@p_id Id) papers) DEFAULT_PAPER_ID
            then DEFAULT_PAPER_ID
            else match papers with
                 | p0 :: _ => p_id p0
                 | [] => null_id
                 end)
      /\ lookup_succeeds id_eqb truthy papers st0)
  /\ (forall st,
        (truthy hp = false
         \/ has_id id_eqb (map (@p_id Id) papers) hp = false ->
         on_hashchange id_eqb truthy null_id papers st hp ha
         = Ret (st, false))
        /\ (truthy hp = true ->
            has_id id_eqb (map (@p_id Id) papers) hp = true ->
            exists p,
              find_paper id_eqb papers hp = Some p
              /\ on_hashchange id_eqb truthy null_id papers st hp ha
                 = Ret (Nav hp
                          (if truthy ha && has_id id_eqb (p_artifacts p) ha
                           then ha else first_artifact null_id p),
                        true)
              /\ lookup_succeeds id_eqb truthy papers
                   (Nav hp
                      (if truthy ha && has_id id_eqb (p_artifacts p) ha
                       then ha else first_artifact null_id p)))).
Proof.
  intros papers hp ha. split.
  - intros st0 H. unfold init_selection in H.
    destruct papers as [|p0 ps] eqn:EP; [discriminate|]. rewrite <- EP in *.
    injection H as <-.
    set (fb := if has_id id_eqb (map (@p_id Id) papers) DEFAULT_PAPER_ID
               then DEFAULT_PAPER_ID else p_id p0).
    set (pid := if truthy hp && has_id id_eqb (map (@p_id Id) papers) hp
                then hp else fb).
    assert (Hfb : has_id id_eqb (map (@p_id Id) papers) fb = true).
    { unfold fb.
      destruct (has_id id_eqb (map (@p_id Id) papers) DEFAULT_PAPER_ID)
        eqn:D; [exact D|].
      rewrite EP. unfold has_id. cbn [map existsb]. rewrite id_refl.
      reflexivity. }
    assert (Hpid : has_id id_eqb (map (@p_id Id) papers) pid = true).
    { unfold pid.
      destruct (truthy hp && has_id id_eqb (map (@p_id Id) papers) hp) eqn:C;
        [apply andb_true_iff in C; tauto|exact Hfb]. }
    cbn [currentPaperId]. split; [exact Hpid|]. split; [|split].
    + intros T Hh. unfold pid. rewrite T, Hh. reflexivity.
    + intros C. unfold pid.
      replace (truthy hp && has_id id_eqb (map (@p_id Id) papers) hp)
        with false.
      * unfold fb.
        destruct (has_id id_eqb (map (@p_id Id) papers) DEFAULT_PAPER_ID);
          reflexivity.
      * destruct C as [C|C]; rewrite C; [reflexivity|].
        rewrite andb_false_r. reflexivity.
    + destruct (has_id_find _ _ Hpid) as (p & F). rewrite F.
      apply lookup_ok with (p := p); [exact F|].
      destruct (truthy ha && has_id id_eqb (p_artifacts p) ha) eqn:C.
      * apply andb_true_iff in C. tauto.
      * apply first_artifact_has.
  - intros st. unfold on_hashchange. split.
    + intros [C|C]; rewrite C; cbn [negb orb]; [reflexivity|].
      rewrite orb_true_r. reflexivity.
    + intros T Hh. rewrite T, Hh. cbn [negb orb].
      destruct (has_id_find _ _ Hh) as (p & F). rewrite F.
      exists p. split; [reflexivity|]. split; [reflexivity|].
      apply lookup_ok with (p := p); [exact F|].
      destruct (truthy ha && has_id id_eqb (p_artifacts p) ha) eqn:C.
      * apply andb_true_iff in C. tauto.
      * apply first_artifact_has.
Qed.

(** The buttons and their listeners agree, up to the call of
    displayArtifact.  When the current paper is in the dataset, a button
    that updateNavButtons marks as disabled leaves the selection as it is
    and displayArtifact is not called; a button that is not marked moves to
    an artifact of the same paper, the index being in range, and calls
    displayArtifact, which finds the paper and the artifact when both ids
    are truthy and returns at its first line when one is falsy.  When the
    current paper is not in the dataset, updateNavButtons returns without
    marking anything and both listeners throw. *)
Theorem nav_buttons_match_listeners : forall papers st,
  (forall dp dn, updateNavButtons id_eqb papers st = Some (dp, dn) ->
     (dp = true -> on_prev id_eqb papers st = Ret (st, false))
     /\ (dn = true -> on_next id_eqb papers st = Ret (st, false))
     /\ (dp = false ->
         exists p a,
           find_paper id_eqb papers (currentPaperId st) = Some p
           /\ In a (p_artifacts p)
           /\ on_prev id_eqb papers st
              = Ret (Nav (currentPaperId st) a, true)
           /\ lookup_succeeds id_eqb truthy papers
                (Nav (currentPaperId st) a))
     /\ (dn = false ->
         exists p a,
           find_paper id_eqb papers (currentPaperId st) = Some p
           /\ In a (p_artifacts p)
           /\ on_next id_eqb papers st
              = Ret (Nav (currentPaperId st) a, true)
           /\ lookup_succeeds id_eqb truthy papers
                (Nav (currentPaperId st) a)))
  /\ (updateNavButtons id_eqb papers st = None ->
      find_paper id_eqb papers (currentPaperId st) = None
      /\ on_prev id_eqb papers st = Throw
      /\ on_next id_eqb papers st = Throw).
Proof.
  intros papers st. unfold updateNavButtons, on_prev, on_next.
  destruct (find_paper id_eqb papers (currentPaperId st)) as [p|] eqn:F.
  2:{ split; [intros dp dn H; discriminate H|]. intros _. auto. }
  split; [|intros H; discriminate H].
  intros dp dn H. injection H as E1 E2.
  unfold findIndex in *.
  set (idx := findIndex_from id_eqb (p_artifacts p) (currentArtifactId st) 0) in *.
  assert (R : (idx = -1 \/ 0 <= idx < Z.of_nat (length (p_artifacts p)))%Z).
  { destruct (findIndex_from_spec (p_artifacts p) (currentArtifactId st) 0)
      as [[H _]|(k & H & Nth)]; [left; exact H|right].
    fold idx in H. apply nth_error_Some_bound in Nth. lia. }
  split; [|split; [|split]].
  - intros D. rewrite D in E1. apply Z.leb_le in E1.
    destruct (Z.ltb_spec 0 idx); [lia|reflexivity].
  - intros D. rewrite D in E2. apply Z.leb_le in E2.
    destruct (Z.ltb_spec idx (Z.of_nat (length (p_artifacts p)) - 1));
      [lia|reflexivity].
  - intros D. rewrite D in E1. apply Z.leb_gt in E1.
    destruct (Z.ltb_spec 0 idx); [|lia].
    destruct (nth_error (p_artifacts p) (Z.to_nat (idx - 1))) as [a|] eqn:Nth.
    + exists p, a. split; [reflexivity|].
      split; [eapply nth_error_In; eauto|]. split; [reflexivity|].
      apply lookup_ok with (p := p); [exact F|]. intros _.
      eapply has_id_nth; eauto.
    + apply nth_error_None in Nth. lia.
  - intros D. rewrite D in E2. apply Z.leb_gt in E2.
    destruct (Z.ltb_spec idx (Z.of_nat (length (p_artifacts p)) - 1)); [|lia].
    destruct (nth_error (p_artifacts p) (Z.to_nat (idx + 1))) as [a|] eqn:Nth.
    + exists p, a. split; [reflexivity|].
      split; [eapply nth_error_In; eauto|]. split; [reflexivity|].
      apply lookup_ok with (p := p); [exact F|]. intros _.
      eapply has_id_nth; eauto.
    + apply nth_error_None in Nth. lia.
Qed.

(** Next and Previous undo each other.  Let the artifacts of the current
    paper have distinct ids and the current artifact be the one at
    position [k].  If it is not the last, Next selects the artifact at
    position [k + 1] and a click on Previous then comes back to the
    selection before; if it is not the first, Previous selects the one at
    position [k - 1] and Next then comes back.  On the last artifact Next,
    and on the first artifact Previous, changes nothing (so that the other
    button then moves away and does not come back). *)
Theorem prev_next_are_inverse : forall papers st p k,
  find_paper id_eqb papers (currentPaperId st) = Some p ->
  NoDup (p_artifacts p) ->
  nth_error (p_artifacts p) k = Some (currentArtifactId st) ->
  (S k < length (p_artifacts p) ->
   exists a, nth_error (p_artifacts p) (S k) = Some a
     /\ on_next id_eqb papers st = Ret (Nav (currentPaperId st) a, true)
     /\ on_prev id_eqb papers (Nav (currentPaperId st) a) = Ret (st, true))
  /\ (0 < k ->
      exists a, nth_error (p_artifacts p) (k - 1) = Some a
        /\ on_prev id_eqb papers st = Ret (Nav (currentPaperId st) a, true)
        /\ on_next id_eqb papers (Nav (currentPaperId st) a) = Ret (st, true))
  /\ (S k = length (p_artifacts p) ->
      on_next id_eqb papers st = Ret (st, false))
  /\ (k = 0 -> on_prev id_eqb papers st = Ret (st, false)).
Proof.
  intros papers [pid aid] p k F ND Nth.
  cbn [currentPaperId currentArtifactId] in *.
  assert (Hk := @findIndex_nodup _ _ _ 0%Z ND Nth).
  assert (B := @nth_error_Some_bound _ _ _ _ Nth).
  unfold on_next, on_prev, findIndex.
  cbn [currentPaperId currentArtifactId]. rewrite F, Hk.
  split; [|split; [|split]].
  - intros L.
    destruct (nth_error (p_artifacts p) (S k)) as [a|] eqn:Na.
    2:{ apply nth_error_None in Na. lia. }
    exists a. split; [reflexivity|].
    destruct (Z.ltb_spec (0 + Z.of_nat k) (Z.of_nat (length (p_artifacts p)) - 1));
      [|lia].
    replace (Z.to_nat (0 + Z.of_nat k + 1)) with (S k) by lia.
    rewrite Na. split; [reflexivity|].
    rewrite (@findIndex_nodup _ _ _ 0%Z ND Na).
    destruct (Z.ltb_spec 0 (0 + Z.of_nat (S k))); [|lia].
    replace (Z.to_nat (0 + Z.of_nat (S k) - 1)) with k by lia.
    rewrite Nth. reflexivity.
  - intros L. destruct k as [|k]; [lia|].
    replace (S k - 1) with k by lia.
    destruct (nth_error (p_artifacts p) k) as [a|] eqn:Na.
    2:{ apply nth_error_None in Na. lia. }
    exists a. split; [reflexivity|].
    destruct (Z.ltb_spec 0 (0 + Z.of_nat (S k))); [|lia].
    replace (Z.to_nat (0 + Z.of_nat (S k) - 1)) with k by lia.
    rewrite Na. split; [reflexivity|].
    rewrite (@findIndex_nodup _ _ _ 0%Z ND Na).
    destruct (Z.ltb_spec (0 + Z.of_nat k) (Z.of_nat (length (p_artifacts p)) - 1));
      [|lia].
    replace (Z.to_nat (0 + Z.of_nat k + 1)) with (S k) by lia.
    rewrite Nth. reflexivity.
  - intros L.
    destruct (Z.ltb_spec (0 + Z.of_nat k) (Z.of_nat (length (p_artifacts p)) - 1));
      [lia|reflexivity].
  - intros ->. reflexivity.
Qed.

(** The listener of Next Paper, up to its call of displayArtifact.  When
    the papers have distinct ids and there is at least one, it goes from
    the paper at index [i] to the paper at index [i + 1], from the last
    paper to the first, and to the first paper when the current id is the
    id of no paper; it selects the first artifact of the new paper, or
    [null] when the paper has no artifact or the id of its first artifact
    is falsy; none of its own statements throws; and displayArtifact finds
    the paper and the artifact when both ids are truthy and returns at its
    first line when one is falsy. *)
Theorem next_paper_cycles : forall papers st,
  NoDup (map (@p_id Id) papers) ->
  papers <> [] ->
  exists q,
    on_next_paper id_eqb truthy null_id papers st
      = Ret (Nav (p_id q)
               (match p_artifacts q with
                | a :: _ => if truthy a then a else null_id
                | [] => null_id
                end), true)
    /\ find_paper id_eqb papers (p_id q) = Some q
    /\ lookup_succeeds id_eqb truthy papers
         (Nav (p_id q)
            (match p_artifacts q with
             | a :: _ => if truthy a then a else null_id
             | [] => null_id
             end))
    /\ (forall i p, nth_error papers i = Some p ->
                    currentPaperId st = p_id p ->
                    nth_error papers
                      (if S i <? length papers then S i else 0) = Some q)
    /\ (has_id id_eqb (map (@p_id Id) papers) (currentPaperId st) = false ->
        nth_error papers 0 = Some q).
Proof.
  intros papers st ND NE. unfold on_next_paper, findIndex.
  destruct papers as [|p0 ps] eqn:EP; [congruence|]. rewrite <- EP in *.
  assert (L : 0 < length papers) by (rewrite EP; cbn [length]; lia).
  set (idx := findIndex_from id_eqb (map (@p_id Id) papers) (currentPaperId st) 0).
  set (n := Z.of_nat (length papers)).
  assert (M : (0 <= (idx + 1) mod n < n)%Z) by (apply Z.mod_pos_bound; lia).
  destruct (nth_error papers (Z.to_nat ((idx + 1) mod n))) as [q|] eqn:Nth.
  2:{ apply nth_error_None in Nth. lia. }
  assert (Fq : find_paper id_eqb papers (p_id q) = Some q)
    by (eapply find_paper_nth; eauto).
  exists q. split; [reflexivity|]. split; [exact Fq|]. split; [|split].
  - apply lookup_ok with (p := q); [exact Fq|].
    unfold has_id. destruct (p_artifacts q) as [|a l].
    + rewrite null_falsy. discriminate.
    + destruct (truthy a); [|rewrite null_falsy; discriminate].
      intros _. cbn [existsb]. rewrite id_refl. reflexivity.
  - intros i p Hi Hp.
    assert (Hm : nth_error (map (@p_id Id) papers) i = Some (currentPaperId st)).
    { rewrite nth_error_map, Hi, Hp. reflexivity. }
    assert (Hidx : idx = (0 + Z.of_nat i)%Z) by (apply findIndex_nodup; auto).
    assert (Bi := @nth_error_Some_bound _ _ _ _ Hi).
    rewrite <- Nth. f_equal.
    destruct (Nat.ltb_spec (S i) (length papers)).
    + rewrite Hidx, Z.mod_small by lia. lia.
    + replace (idx + 1)%Z with n by lia. rewrite Z.mod_same by lia. reflexivity.
  - intros Hh. rewrite <- Nth. f_equal.
    destruct (findIndex_from_spec (map (@p_id Id) papers) (currentPaperId st) 0)
      as [[H _]|(k & _ & Hk)].
    + fold idx in H. rewrite H. replace (-1 + 1)%Z with 0%Z by lia.
      rewrite Z.mod_0_l by lia. reflexivity.
    + apply has_id_nth in Hk. congruence.
Qed.

End NavigationFacts.

Lemma example_papers_distinct : NoDup (map (@p_id oid) example_papers).
Proof.
  repeat constructor; cbn [In map example_papers p_id];
    intros H; repeat (destruct H as [H|H]; [vm_compute in H; discriminate H|]);
    exact H.
Qed.

Lemma example_artifacts_distinct :
  NoDup [Some (js "thm1"); Some (js "thm2"); Some (js "thm3")].
Proof.
  repeat constructor; cbn [In];
    intros H; repeat (destruct H as [H|H]; [vm_compute in H; discriminate H|]);
    exact H.
Qed.

Lemma selection_from_fragment_is_valid_witness :
  let st0 := Nav (Some (js "p3")) (Some (js "lem1")) in
  init_selection oid_eqb oid_truthy None (Some (js "2310.00736v2"))
    example_papers (Some (js "p3")) (Some (js "thm2")) = Some st0
  /\ currentPaperId st0 = Some (js "p3")
  /\ lookup_succeeds oid_eqb oid_truthy example_papers st0.
Proof.
  pose proof (proj1 (@selection_from_fragment_is_valid oid oid_eqb oid_truthy
                       None (Some (js "2310.00736v2")) oid_eqb_eq eq_refl
                       example_papers (Some (js "p3")) (Some (js "thm2")))
                (Nav (Some (js "p3")) (Some (js "lem1"))) eq_refl)
    as (_ & H2 & _ & H4).
  split; [reflexivity|]. split; [|exact H4].
  apply H2; reflexivity.
Defined.

Lemma nav_buttons_match_listeners_witness :
  let st := Nav (Some (js "2310.00736v2")) (Some (js "thm3")) in
  updateNavButtons oid_eqb example_papers st = Some (false, true)
  /\ on_next oid_eqb example_papers st = Ret (st, false)
  /\ exists p a,
       find_paper oid_eqb example_papers (currentPaperId st) = Some p
       /\ In a (p_artifacts p)
       /\ on_prev oid_eqb example_papers st
          = Ret (Nav (currentPaperId st) a, true)
       /\ lookup_succeeds oid_eqb oid_truthy example_papers
            (Nav (currentPaperId st) a).
Proof.
  split; [reflexivity|].
  pose proof (proj1 (@nav_buttons_match_listeners oid oid_eqb oid_truthy
                       oid_eqb_eq example_papers
                       (Nav (Some (js "2310.00736v2")) (Some (js "thm3"))))
                false true eq_refl) as H.
  split; [apply H; reflexivity|apply H; reflexivity].
Defined.

Lemma prev_next_are_inverse_witness :
  let st := Nav (Some (js "2310.00736v2")) (Some (js "thm2")) in
  exists a,
    nth_error [Some (js "thm1"); Some (js "thm2"); Some (js "thm3")] 2 = Some a
    /\ on_next oid_eqb example_papers st = Ret (Nav (currentPaperId st) a, true)
    /\ on_prev oid_eqb example_papers (Nav (currentPaperId st) a)
       = Ret (st, true).
Proof.
  apply (proj1 (@prev_next_are_inverse oid oid_eqb oid_eqb_eq example_papers
                  (Nav (Some (js "2310.00736v2")) (Some (js "thm2")))
                  (Paper (Some (js "2310.00736v2"))
                     [Some (js "thm1"); Some (js "thm2"); Some (js "thm3")])
                  1 eq_refl example_artifacts_distinct eq_refl)).
  cbn [length p_artifacts]. lia.
Defined.

Lemma next_paper_cycles_witness :
  exists q,
    on_next_paper oid_eqb oid_truthy None example_papers
      (Nav (Some (js "p3")) (Some (js "lem1")))
      = Ret (Nav (p_id q)
               (match p_artifacts q with
                | a :: _ => if oid_truthy a then a else None
                | [] => None
                end), true)
    /\ nth_error example_papers 0 = Some q.
Proof.
  destruct (@next_paper_cycles oid oid_eqb oid_truthy None oid_eqb_eq eq_refl
              example_papers (Nav (Some (js "p3")) (Some (js "lem1")))
              example_papers_distinct)
    as (q & H1 & _ & _ & H4 & _); [discriminate|].
  exists q. split; [exact H1|].
  apply (H4 2 (Paper (Some (js "p3")) [Some (js "lem1")])); reflexivity.
Defined.
